(** * hpp-constraints: block-index algebra and hierarchical iterative solver

    A shallow embedding of [src/matrix-view.cc] and
    [src/solver/hierarchical-iterative.cc].

    Conventions.
    - [size_type] is a signed machine integer; it is embedded as [Z].  Signed
      overflow is undefined in C++ and is not part of the model.
    - [std::size_t] is the unsigned 64-bit type; where the source subtracts
      on it, the wrap-around modulo [2^64] is written out.
    - [value_type] is [double]; it is embedded as the exact rationals [Q].
      Only the comparisons, [min]/[max] and the sums that the source performs
      are used, so rounding and NaN are outside the model.
    - Dense vectors are [list Q], dense matrices are lists of rows.
    - [assert] is compiled out when the macro [NDEBUG] is defined.  The
      functions whose [assert] decides what the statements below say
      ([BlockIndex::difference] on a sequence, [getReducedJacobian]) take
      the flag [NDEBUG] as an argument; the [assert]s of [add], [update] and
      [computeSaturation] on the sizes of their data are not modelled. *)

From Stdlib Require Import ZArith QArith Qabs Qminmax List Sorted Bool Lia.
From Stdlib Require Ascii String.
Import String.StringSyntax.
Delimit Scope string_scope with string.
Import ListNotations.

Local Open Scope Z_scope.

(** Outcome of a function that holds an [assert] or moves an iterator
    without a check: the value returned; the abort of a failed [assert],
    in a build where [NDEBUG] is not defined; or undefined behaviour. *)
Inductive outcome (A : Type) : Type :=
| Returns (a : A)
| AssertionFailure
| Undefined.
Arguments Returns {A} a.
Arguments AssertionFailure {A}.
Arguments Undefined {A}.

(* ================================================================== *)
(** * Block-index algebra ([namespace Eigen], [struct BlockIndex])     *)
(* ================================================================== *)

Module BlockIndex.

(** [typedef std::pair<size_type, size_type> segment_t;] the pair
    [(first, second)] is [(start, length)]. *)
Abbreviation segment_t := (Z * Z)%type (only parsing).
Abbreviation segments_t := (list (Z * Z)) (only parsing).

Definition first (s : segment_t) : Z := fst s.
Definition second (s : segment_t) : Z := snd s.

(** [BlockIndex::overlap] *)
Definition overlap (a b : segment_t) : bool :=
  if second a =? 0 then false
  else if second b =? 0 then false
  else
    let aend := first a + second a in
    let bend := first b + second b in
    if (first a <=? first b) && (first b <? aend) then true
    else if (first a <? bend) && (bend <=? aend) then true
    else false.

(** [BlockIndex::cardinal] *)
Definition cardinal (a : segments_t) : Z :=
  fold_left (fun c s => c + second s) a 0.

(** Body of [BlockIndex::sum] once [a.first <= b.first] is known. *)
Definition sum_ordered (a b : segment_t) : segments_t :=
  if first a + second a >=? first b
  then [ (first a, Z.max (second a) (first b + second b - first a)) ]
  else [ a ; b ].

(** [BlockIndex::sum].  The source calls itself with the arguments
    swapped when [a.first > b.first]; that call takes the second branch
    at once, so the recursion is unfolded here. *)
Definition sum (a b : segment_t) : segments_t :=
  if first a >? first b then sum_ordered b a else sum_ordered a b.

(** [BlockIndex::difference (const segment_t&, const segment_t&)] *)
Definition difference (a b : segment_t) : segments_t :=
  if second a =? 0 then []
  else if second b =? 0 then [ a ]
  else
    let aend := first a + second a in
    let bend := first b + second b in
    let diffs1 :=
      if first a <? first b
      then [ (first a, Z.min aend (first b) - first a) ]
      else [] in
    let diffs2 :=
      if bend <? aend
      then (let start := Z.max (first a) bend in [ (start, aend - start) ])
      else [] in
    diffs1 ++ diffs2.

(** Loop of [BlockIndex::shrink]: [e1] is the segment the iterator [e1]
    points to, the list is what remains from [e2] on.
    [lend_before_rstart (e1, e2)] is [e1.first + e1.second < e2.first]. *)
Fixpoint shrink_from (e1 : segment_t) (rest : segments_t) : segments_t :=
  match rest with
  | [] => [ e1 ]
  | e2 :: rest' =>
      if first e1 + second e1 <? first e2
      then e1 :: shrink_from e2 rest'
      else shrink_from
             (first e1, Z.max (second e1) (first e2 + second e2 - first e1))
             rest'
  end.

(** [BlockIndex::shrink] *)
Definition shrink (a : segments_t) : segments_t :=
  match a with
  | [] => []
  | e1 :: rest => shrink_from e1 rest
  end.

(** Modelled from the spec: the comparator [internal::BlockIndexCompFull]
    is declared in the header [matrix-view.hh]; the spec gives it as
    "order by start ascending, tie-break by length ascending". *)
Definition BlockIndexCompFull (a b : segment_t) : bool :=
  (first a <? first b) || ((first a =? first b) && (second a <? second b)).

Fixpoint sort_insert (x : segment_t) (l : segments_t) : segments_t :=
  match l with
  | [] => [ x ]
  | y :: l' => if BlockIndexCompFull y x then y :: sort_insert x l'
               else x :: l
  end.

(** [BlockIndex::sort]: [std::sort] with [BlockIndexCompFull]; the order is
    total on pairs, so the sorted sequence does not depend on the sorting
    algorithm. *)
Definition sort (a : segments_t) : segments_t :=
  fold_right sort_insert [] a.

(** Modelled from the spec: the comparator
    [internal::BlockIndexComp<lfirst, rfirst>] is declared in the header
    [matrix-view.hh].  [shrink] names its instance [<false, true>]
    [lend_before_rstart] and the spec reads it as "[e1.end >= e2.start]"
    when it fails: a template argument [true] takes the start of the
    segment on that side, [false] takes its end. *)
Definition BlockIndexComp (lfirst rfirst : bool) (a b : Z * Z) : bool :=
  (if lfirst then first a else first a + second a)
  <? (if rfirst then first b else first b + second b).

(** [std::upper_bound (a.begin (), a.end (), value, comp)], as the position
    of the iterator it returns: the first position whose element [e] has
    [comp (value, e)], or the size of [a] when there is none.  The library
    searches by bisection and requires the elements without
    [comp (value, e)] to come first, as they do in an ordered sequence of
    intervals; there the position found is this one. *)
Fixpoint upper_bound (comp : Z * Z -> Z * Z -> bool) (value : Z * Z)
         (a : list (Z * Z)) : nat :=
  match a with
  | [] => O
  | e :: a' => if comp value e then O else S (upper_bound comp value a')
  end.

(** The condition of the [assert] of
    [BlockIndex::difference (const segments_t&, const segment_t&)] on the
    positions of the iterators [first] and [last]:
    [first == last || last == a.end ()
     || (first != a.end ()
         && first->first + first->second >= last->first)].
    Where the last test is reached neither iterator is [a.end ()]. *)
Definition difference_assert (a : list (Z * Z)) (first_ last_ : nat) : bool :=
  (first_ =? last_)%nat
  || (last_ =? length a)%nat
  || (negb (first_ =? length a)%nat
      && match nth_error a first_, nth_error a last_ with
         | Some f, Some l => first l <=? first f + second f
         | _, _ => false
         end).

(** [BlockIndex::difference (const segments_t&, const segment_t&)].  The
    [assert] aborts the call when it fails and [NDEBUG] is not defined.  The
    loop then runs the iterator from [first] until it meets [last]; were
    [last] before [first] it would run past the end of [a], which is
    undefined. *)
Definition difference_set_seg (NDEBUG : bool) (a : list (Z * Z)) (b : Z * Z)
  : outcome (list (Z * Z)) :=
  let first_ := upper_bound (BlockIndexComp true false) b a in
  let last_ := upper_bound (BlockIndexComp false true) b a in
  if negb NDEBUG && negb (difference_assert a first_ last_)
  then AssertionFailure
  else if (first_ <=? last_)%nat then
    Returns (firstn first_ a
             ++ flat_map (fun _a => difference _a b)
                         (firstn (last_ - first_) (skipn first_ a))
             ++ skipn last_ a)
  else Undefined.

(** Body of the loop of the next function:
    [diff] becomes the difference of [diff] and the interval [_b] points
    to. *)
Definition difference_seg_set_step (NDEBUG : bool)
           (diff : outcome (list (Z * Z))) (_b : Z * Z)
  : outcome (list (Z * Z)) :=
  match diff with
  | Returns d => difference_set_seg NDEBUG d _b
  | AssertionFailure => AssertionFailure
  | Undefined => Undefined
  end.

(** [BlockIndex::difference (const segment_t&, const segments_t&)] *)
Definition difference_seg_set (NDEBUG : bool) (a : Z * Z) (b : list (Z * Z))
  : outcome (list (Z * Z)) :=
  fold_left (difference_seg_set_step NDEBUG) b (Returns [ a ]).

(** Body of the loop of the next function:
    the difference of the interval [_a] points to and [b] is appended to
    [diff]. *)
Definition difference_set_set_step (NDEBUG : bool) (b : list (Z * Z))
           (diff : outcome (list (Z * Z))) (_a : Z * Z)
  : outcome (list (Z * Z)) :=
  match diff with
  | Returns r =>
      match difference_seg_set NDEBUG _a b with
      | Returns d => Returns (r ++ d)
      | AssertionFailure => AssertionFailure
      | Undefined => Undefined
      end
  | AssertionFailure => AssertionFailure
  | Undefined => Undefined
  end.

(** [BlockIndex::difference (const segments_t&, const segments_t&)] *)
Definition difference_set_set (NDEBUG : bool) (a b : list (Z * Z))
  : outcome (list (Z * Z)) :=
  fold_left (difference_set_set_step NDEBUG b) a (Returns []).

(** Data-model invariant of an interval: non-negative start and length. *)
Definition wf (s : segment_t) : Prop := 0 <= first s /\ 0 <= second s.

(** The half-open range [[start, start+length)] as a predicate. *)
Definition mem (x : Z) (s : segment_t) : Prop :=
  first s <= x < first s + second s.

(** Two ranges intersect when they share an index. *)
Definition intersects (a b : segment_t) : Prop :=
  exists x, mem x a /\ mem x b.

(** The indices a sequence of intervals covers. *)
Definition mem_set (x : Z) (l : list (Z * Z)) : Prop :=
  Exists (mem x) l.

(** [e1] starts where [e2] starts or before: the order [sort] leaves. *)
Definition by_start (e1 e2 : Z * Z) : Prop := first e1 <= first e2.

(** [e1] ends where [e2] starts or before. *)
Definition before (e1 e2 : Z * Z) : Prop :=
  first e1 + second e1 <= first e2.

(** [e1] ends strictly before [e2] starts: the two cannot be merged. *)
Definition apart (e1 e2 : Z * Z) : Prop :=
  first e1 + second e1 < first e2.

(** Intervals of non-negative length, pairwise in increasing order and
    disjoint. *)
Definition ordered (l : list (Z * Z)) : Prop :=
  StronglySorted before l /\ Forall (fun e => 0 <= second e) l.

(** The interval [p] lies within the interval [a]. *)
Definition within (a p : Z * Z) : Prop :=
  first a <= first p /\ first p + second p <= first a + second a.

(** Number of indices two intervals share. *)
Definition common (a b : Z * Z) : Z :=
  Z.max 0 (Z.min (first a + second a) (first b + second b)
           - Z.max (first a) (first b)).

End BlockIndex.

Import BlockIndex.


(* ================================================================== *)
(** * Dense vectors and matrices, block views                          *)
(* ================================================================== *)

Abbreviation value_type := Q (only parsing).
Abbreviation vector_t := (list Q) (only parsing).

(** A dense matrix is the list of its rows. *)
Abbreviation matrix_t := (list (list Q)) (only parsing).

(** [x < y] on [value_type]. *)
Definition Qltb (x y : Q) : bool := negb (Qle_bool y x).

Module Dense.

(** In-place write [l[i] = x].  An index past the end is undefined
    behaviour in the source; the model leaves the container as it is. *)
Fixpoint upd {A : Type} (i : nat) (x : A) (l : list A) : list A :=
  match l, i with
  | [], _ => []
  | _ :: l', O => x :: l'
  | y :: l', S i' => y :: upd i' x l'
  end.

Definition Zero (n : Z) : vector_t := repeat 0%Q (Z.to_nat n).
Definition setZero (v : vector_t) : vector_t := map (fun _ => 0%Q) v.

Definition rows (m : matrix_t) : Z := Z.of_nat (length m).
Definition cols (m : matrix_t) : Z := Z.of_nat (length (hd [] m)).

Definition vopp (v : vector_t) : vector_t := map Qopp v.

Fixpoint vadd (u v : vector_t) : vector_t :=
  match u, v with
  | x :: u', y :: v' => (x + y)%Q :: vadd u' v'
  | _, _ => []
  end.

Fixpoint vsub (u v : vector_t) : vector_t :=
  match u, v with
  | x :: u', y :: v' => (x - y)%Q :: vsub u' v'
  | _, _ => []
  end.

Fixpoint dot (u v : vector_t) : Q :=
  match u, v with
  | x :: u', y :: v' => (x * y + dot u' v')%Q
  | _, _ => 0%Q
  end.

Definition squaredNorm (v : vector_t) : Q := dot v v.

(** [m * v] *)
Definition mat_vec (m : matrix_t) (v : vector_t) : vector_t :=
  map (fun r => dot r v) m.

(** Column [j] of [m]. *)
Definition col (j : nat) (m : matrix_t) : vector_t :=
  map (fun r => nth j r 0%Q) m.

(** [a * b] *)
Definition mat_mul (a b : matrix_t) : matrix_t :=
  map (fun r => map (fun j => dot r (col j b))
                    (seq 0 (Z.to_nat (cols b)))) a.

(** [m.rightCols (k)] *)
Definition rightCols (k : Z) (m : matrix_t) : matrix_t :=
  map (fun r => skipn (length r - Z.to_nat k) r) m.

(** [v.segment (start, n)] *)
Definition segment (start n : Z) (v : vector_t) : vector_t :=
  firstn (Z.to_nat n) (skipn (Z.to_nat start) v).

(** [m.col (j).setZero ()] *)
Definition setZero_col (j : nat) (m : matrix_t) : matrix_t :=
  map (upd j 0%Q) m.

(** [m.transpose () * v] *)
Definition tmat_vec (m : matrix_t) (v : vector_t) : vector_t :=
  map (fun j => dot (col j m) v) (seq 0 (Z.to_nat (cols m))).

(** [u.cwiseProduct (v)].  Eigen requires vectors of one size (an assertion
    of debug builds); the model stops at the end of the shorter one. *)
Fixpoint cwiseProduct (u v : vector_t) : vector_t :=
  match u, v with
  | x :: u', y :: v' => (x * y)%Q :: cwiseProduct u' v'
  | _, _ => []
  end.

(** [out.segment (start, v.size ()) = v] on a vector, or
    [out.middleRows (start, v.rows ()) = v] on a matrix seen as the list of
    its rows.  A block that does not fit is undefined behaviour in the
    source; the model then leaves [out] as it is. *)
Definition set_segment {A : Type} (start : Z) (v out : list A) : list A :=
  if (0 <=? start) && (start + Z.of_nat (length v) <=? Z.of_nat (length out))
  then firstn (Z.to_nat start) out ++ v
       ++ skipn (Z.to_nat start + length v) out
  else out.

End Dense.

(** Block views of [matrix-view.hh] ([MatrixBlocks], [MatrixBlockView]).
    The class is declared in the header only; the two operations the solver
    uses on vectors are modelled here. *)
Module MatrixBlocks.

(** The row indices a list of segments selects, in order. *)
Definition indices (a : segments_t) : list nat :=
  flat_map (fun s => seq (Z.to_nat (first s)) (Z.to_nat (second s))) a.

(** [nbIndices ()] / [nbRows ()]: the number of selected indices, kept by
    [updateRows] as [BlockIndex::cardinal] of the segments. *)
Definition nbIndices (a : segments_t) : Z := cardinal a.

(** Modelled from the spec: reading a view, "[rview(vector)] returns a
    contiguous gather (keep semantics)". *)
Definition rview {A : Type} (dflt : A) (a : segments_t) (v : list A)
  : list A :=
  map (fun k => nth k v dflt) (indices a).

(** One coefficient written through a view: [dst[k] = x]. *)
Definition write {A : Type} (dst : list A) (kx : nat * A) : list A :=
  Dense.upd (fst kx) (snd kx) dst.

(** Modelled from the spec: assignment to a writable view, "writable views
    propagate assignments scatter-wise": coefficient [k] of the source is
    stored at the [k]-th selected index of the viewed vector. *)
Definition assign {A : Type} (a : segments_t) (src : list A) (dst : list A)
  : list A :=
  fold_left write (combine (indices a) src) dst.

(** Modelled from the spec: [updateRows<true, true, true> ()] sorts and
    shrinks the segments ("the algebra guarantees the canonical form after
    sort + shrink"). *)
Definition updateRows (a : segments_t) : segments_t := shrink (sort a).

End MatrixBlocks.

(* ================================================================== *)
(** * Comparison types and saturation (anonymous namespace and
      [namespace saturation] of [hierarchical-iterative.cc])           *)
(* ================================================================== *)

Inductive ComparisonType : Type :=
| Equality | EqualToZero | Superior | Inferior.

Abbreviation ComparisonTypes_t := (list ComparisonType) (only parsing).

(** [compare<Superior, ComputeJac> (val, jac, thr)]: returns the new value
    and the new Jacobian row. *)
Definition compare (Superior ComputeJac : bool)
           (val : Q) (jac : vector_t) (thr : Q) : Q * vector_t :=
  if (Superior && Qltb val thr) || (negb Superior && Qltb (- thr) val)
  then ((if Superior then val - thr else val + thr)%Q, jac)
  else (0%Q, if ComputeJac then Dense.setZero jac else jac).

(** One turn of the loop of [applyComparison], at index [j = indices[i]]. *)
Definition applyComparison_step (ComputeJac : bool)
           (comparison : ComparisonTypes_t) (thr : Q)
           (st : vector_t * matrix_t) (j : nat) : vector_t * matrix_t :=
  let '(value, jacobian) := st in
  match nth_error comparison j with
  | Some Superior =>
      let '(v, r) := compare true ComputeJac (nth j value 0%Q)
                             (nth j jacobian []) thr in
      (Dense.upd j v value, Dense.upd j r jacobian)
  | Some Inferior =>
      let '(v, r) := compare false ComputeJac (nth j value 0%Q)
                             (nth j jacobian []) thr in
      (Dense.upd j v value, Dense.upd j r jacobian)
  | _ => (value, jacobian)
  end.

(** [applyComparison<ComputeJac> (comparison, indices, value, jacobian, thr)] *)
Definition applyComparison (ComputeJac : bool)
           (comparison : ComparisonTypes_t) (indices : list nat)
           (value : vector_t) (jacobian : matrix_t) (thr : Q)
  : vector_t * matrix_t :=
  fold_left (applyComparison_step ComputeJac comparison thr) indices
            (value, jacobian).

Module saturation.

(** [Base::saturate]: returns the flag, [qSat] and [saturation]. *)
Definition Base_saturate (q : vector_t) (qSat : vector_t)
           (saturation : list Z) : bool * vector_t * list Z :=
  (false, q, map (fun _ => 0) saturation).

(** [clamp (lb, ub, v, vsat, s)]: returns the flag, [vsat] and [s]. *)
Definition clamp (lb ub v : Q) : bool * Q * Z :=
  if Qle_bool v lb then (true, lb, -1)
  else if Qle_bool ub v then (true, ub, 1)
  else (false, v, 0).

Record Bounds : Type := { lb : vector_t; ub : vector_t }.

(** Body of the loop of [Bounds::saturate] at index [i]. *)
Definition saturate_step (b : Bounds) (q : vector_t)
           (st : bool * vector_t * list Z) (i : nat)
  : bool * vector_t * list Z :=
  let '(sat, qSat, saturation) := st in
  let '(r, vsat, s) := clamp (nth i (lb b) 0%Q) (nth i (ub b) 0%Q)
                             (nth i q 0%Q) in
  (if r then true else sat, Dense.upd i vsat qSat, Dense.upd i s saturation).

(** [Bounds::saturate (q, qSat, saturation)]: the loop runs over
    [0 <= i < q.size ()].  The solver also calls it with [q] and [qSat]
    naming the same vector; coordinate [i] of [q] is read before
    coordinate [i] of [qSat] is written and never again, so the result is
    the same. *)
Definition Bounds_saturate (b : Bounds) (q qSat : vector_t)
           (saturation : list Z) : bool * vector_t * list Z :=
  fold_left (saturate_step b q) (seq 0 (length q)) (false, qSat, saturation).

End saturation.

(* ================================================================== *)
(** * The hierarchical iterative solver
      ([class HierarchicalIterative] of [hierarchical-iterative.cc])   *)
(* ================================================================== *)

(** Interface of [Eigen::JacobiSVD<matrix_t>] (type [SVD_t] of the source)
    as the solver uses it, together with the value a coefficient has after
    Eigen has allocated it without writing it.  The decomposition itself
    belongs to Eigen, not to this repository. *)
Class JacobiSVD : Type := {
  SVD_t : Type;
  (** [svd.compute (m)] on a decomposition built with [ComputeThinU] and
      [ComputeThinV] (flag [true]) or [ComputeFullV] (flag [false]). *)
  svd_compute : bool -> matrix_t -> SVD_t;
  svd_solve : SVD_t -> vector_t -> vector_t;
  svd_rank : SVD_t -> Z;
  svd_singularValues : SVD_t -> vector_t;
  svd_matrixV : SVD_t -> matrix_t;
  uninitialized : Q
}.

Module solver.

(** What the solver reads of a [DifferentiableFunction]. *)
Record DifferentiableFunction : Type := {
  name : String.string;
  outputSize : Z;
  outputDerivativeSize : Z;
  activeDerivativeParameters : list bool
}.

(** A shared pointer: the address (the key of the [std::map]s of the
    solver) and the object it points to. *)
Record DifferentiableFunctionPtr_t : Type := {
  address : nat;
  pointee : DifferentiableFunction
}.

(** What the solver reads of an [Implicit] constraint. *)
Record Implicit : Type := {
  functionPtr : DifferentiableFunctionPtr_t;
  comparisonType : ComparisonTypes_t;
  activeRows : segments_t
}.

Abbreviation ImplicitPtr_t := Implicit (only parsing).

(** [ImplicitConstraintSet]: the constraints of one priority level, in the
    order they were added; its function is the stack of their functions. *)
Abbreviation ImplicitConstraintSet := (list Implicit) (only parsing).

(** [stacks_[i].function ().outputSize ()] and [outputDerivativeSize ()] *)
Definition stack_outputSize (cs : ImplicitConstraintSet) : Z :=
  fold_left (fun n c => n + outputSize (pointee (functionPtr c))) cs 0.

Definition stack_outputDerivativeSize (cs : ImplicitConstraintSet) : Z :=
  fold_left (fun n c => n + outputDerivativeSize (pointee (functionPtr c)))
            cs 0.

(** [std::numeric_limits<double>::max ()], that is [(2 - 2^-52) * 2^1023]. *)
Definition value_max : Q := inject_Z (2 ^ 1024 - 2 ^ 971).

(** [std::map<DifferentiableFunctionPtr_t, T>]: entries ordered by key
    (the address); [m[f] = v] inserts the key or overwrites its value. *)
Fixpoint map_set {T : Type} (f : DifferentiableFunctionPtr_t) (v : T)
         (m : list (DifferentiableFunctionPtr_t * T))
  : list (DifferentiableFunctionPtr_t * T) :=
  match m with
  | [] => [ (f, v) ]
  | (g, w) :: m' =>
      if Nat.ltb (address f) (address g) then (f, v) :: m
      else if Nat.eqb (address f) (address g) then (g, v) :: m'
      else (g, w) :: map_set f v m'
  end.

(** [v.resize (n, x)] of [std::vector] when [v.size () < n]. *)
Definition vector_grow {A : Type} (n : nat) (x : A) (v : list A) : list A :=
  v ++ repeat x (n - length v).

(** The element [v[i]] replaced by [g (v[i])]. *)
Fixpoint at_index {A : Type} (i : nat) (g : A -> A) (v : list A) : list A :=
  match v, i with
  | [], _ => []
  | x :: v', O => g x :: v'
  | x :: v', S i' => x :: at_index i' g v'
  end.

(** The character [34] (double quote). *)
Definition dquote : String.string :=
  String.String (Ascii.Ascii false true false false false true false false)
                String.EmptyString.

(** The message of the exception [add] throws for the function [f]. *)
Definition already_in_solver (f : DifferentiableFunctionPtr_t)
  : String.string :=
  String.append "Contraint "%string
    (String.append dquote
       (String.append (name (pointee f))
          (String.append dquote " already in solver"%string))).

Inductive exception : Type :=
| logic_error (what : String.string).

(** Outcome of a method that reads containers by index: the value, or the
    index of the first read past the end of a container (undefined
    behaviour in the source). *)
Inductive access (A : Type) : Type :=
| Done (a : A)
| OutOfRange (index : Z).
Arguments Done {A} a.
Arguments OutOfRange {A} index.

(** [a - b] on [std::size_t] (64 bits, wraps around). *)
Definition size_t_sub (a b : Z) : Z := (a - b) mod 2 ^ 64.

Section Engine.

Context {Eigen : JacobiSVD}.

(** [*a == *b] on differentiable functions: equality by value, a virtual
    method of the functions. *)
Variable function_eq :
  DifferentiableFunction -> DifferentiableFunction -> bool.

(** [v.resize (n)] on an Eigen vector: nothing happens when the size
    is already [n], otherwise the storage is allocated anew and its
    coefficients are not written. *)
Definition resize (n : Z) (v : vector_t) : vector_t :=
  if Z.of_nat (length v) =? n then v
  else repeat uninitialized (Z.to_nat n).

(** [m.resize (r, c)] on an Eigen matrix.  When only the shape changes
    Eigen keeps the storage; the coefficients are treated as not written
    in that case too. *)
Definition resize_matrix (r c : Z) (m : matrix_t) : matrix_t :=
  if (Dense.rows m =? r) && forallb (fun row => Z.of_nat (length row) =? c) m
  then m
  else repeat (repeat uninitialized (Z.to_nat c)) (Z.to_nat r).

Record Data : Type := {
  (** [output.space ()->nq ()] and [->nv ()] of the level *)
  output_nq : Z;
  output_nv : Z;
  error : vector_t;
  inequalityIndices : list nat;
  equalityIndices : segments_t;
  comparison : ComparisonTypes_t;
  (** rows and columns of the [MatrixBlocks] selector *)
  activeRowsOfJ : segments_t * segments_t;
  reducedJ : matrix_t;
  (** options of [svd]: [ComputeThinV] rather than [ComputeFullV] *)
  svd_ThinV : bool;
  (** [None] until [compute] has been called on the decomposition *)
  svd : option SVD_t;
  PK : matrix_t;
  maxRank : Z
}.

Definition set_error (x : vector_t) (r : Data)
  : Data :=
  {| output_nq := output_nq r; output_nv := output_nv r; error := x;
     inequalityIndices := inequalityIndices r;
     equalityIndices := equalityIndices r; comparison := comparison r;
     activeRowsOfJ := activeRowsOfJ r; reducedJ := reducedJ r;
     svd_ThinV := svd_ThinV r; svd := svd r; PK := PK r;
     maxRank := maxRank r |}.

Definition set_inequalityIndices (x : list nat) (r : Data)
  : Data :=
  {| output_nq := output_nq r; output_nv := output_nv r;
     error := error r; inequalityIndices := x;
     equalityIndices := equalityIndices r; comparison := comparison r;
     activeRowsOfJ := activeRowsOfJ r; reducedJ := reducedJ r;
     svd_ThinV := svd_ThinV r; svd := svd r; PK := PK r;
     maxRank := maxRank r |}.

Definition set_equalityIndices (x : segments_t) (r : Data)
  : Data :=
  {| output_nq := output_nq r; output_nv := output_nv r;
     error := error r; inequalityIndices := inequalityIndices r;
     equalityIndices := x; comparison := comparison r;
     activeRowsOfJ := activeRowsOfJ r; reducedJ := reducedJ r;
     svd_ThinV := svd_ThinV r; svd := svd r; PK := PK r;
     maxRank := maxRank r |}.

Definition set_comparison (x : ComparisonTypes_t) (r : Data)
  : Data :=
  {| output_nq := output_nq r; output_nv := output_nv r;
     error := error r; inequalityIndices := inequalityIndices r;
     equalityIndices := equalityIndices r; comparison := x;
     activeRowsOfJ := activeRowsOfJ r; reducedJ := reducedJ r;
     svd_ThinV := svd_ThinV r; svd := svd r; PK := PK r;
     maxRank := maxRank r |}.

Definition set_reducedJ (x : matrix_t) (r : Data)
  : Data :=
  {| output_nq := output_nq r; output_nv := output_nv r;
     error := error r; inequalityIndices := inequalityIndices r;
     equalityIndices := equalityIndices r; comparison := comparison r;
     activeRowsOfJ := activeRowsOfJ r; reducedJ := x;
     svd_ThinV := svd_ThinV r; svd := svd r; PK := PK r;
     maxRank := maxRank r |}.

Definition set_svd (x : option SVD_t) (r : Data)
  : Data :=
  {| output_nq := output_nq r; output_nv := output_nv r;
     error := error r; inequalityIndices := inequalityIndices r;
     equalityIndices := equalityIndices r; comparison := comparison r;
     activeRowsOfJ := activeRowsOfJ r; reducedJ := reducedJ r;
     svd_ThinV := svd_ThinV r; svd := x; PK := PK r;
     maxRank := maxRank r |}.

Definition set_PK (x : matrix_t) (r : Data)
  : Data :=
  {| output_nq := output_nq r; output_nv := output_nv r;
     error := error r; inequalityIndices := inequalityIndices r;
     equalityIndices := equalityIndices r; comparison := comparison r;
     activeRowsOfJ := activeRowsOfJ r; reducedJ := reducedJ r;
     svd_ThinV := svd_ThinV r; svd := svd r; PK := x;
     maxRank := maxRank r |}.

Definition set_maxRank (x : Z) (r : Data)
  : Data :=
  {| output_nq := output_nq r; output_nv := output_nv r;
     error := error r; inequalityIndices := inequalityIndices r;
     equalityIndices := equalityIndices r; comparison := comparison r;
     activeRowsOfJ := activeRowsOfJ r; reducedJ := reducedJ r;
     svd_ThinV := svd_ThinV r; svd := svd r; PK := PK r; maxRank := x |}.
(** [Data ()].  [maxRank] is written by [update] before it is read. *)
Definition Data_default : Data :=
  {| output_nq := 0; output_nv := 0; error := [];
     inequalityIndices := []; equalityIndices := []; comparison := [];
     activeRowsOfJ := ([], []); reducedJ := []; svd_ThinV := true;
     svd := None; PK := []; maxRank := 0 |}.

(** The state of the solver.  The scratch members read and written only
    by [computeSaturation] and [integrate] ([saturate_], [saturation_],
    [qSat_], [reducedSaturation_], [tmpSat_]) and the members no method
    of this file reads ([reducedJ_], [svd_], [OM_], [OP_]) are left out,
    and so are the Lie-group elements [output] and [rightHandSide] of a
    level, of which only the sizes of the space are kept. *)
Record HierarchicalIterative : Type := {
  squaredErrorThreshold_ : Q;
  inequalityThreshold_ : Q;
  maxIterations_ : Z;
  stacks_ : list ImplicitConstraintSet;
  (** [(nq, nv)] of the configuration space *)
  configSpace_ : Z * Z;
  dimension_ : Z;
  reducedDimension_ : Z;
  lastIsOptional_ : bool;
  solveLevelByLevel_ : bool;
  freeVariables_ : segments_t;
  constraints_ : list ImplicitPtr_t;
  iq_ : list (DifferentiableFunctionPtr_t * Z);
  iv_ : list (DifferentiableFunctionPtr_t * Z);
  priority_ : list (DifferentiableFunctionPtr_t * nat);
  sigma_ : Q;
  dq_ : vector_t;
  dqSmall_ : vector_t;
  squaredNorm_ : Q;
  datas_ : list Data
}.

Definition set_stacks_ (x : list ImplicitConstraintSet) (r : HierarchicalIterative)
  : HierarchicalIterative :=
  {| squaredErrorThreshold_ := squaredErrorThreshold_ r;
     inequalityThreshold_ := inequalityThreshold_ r;
     maxIterations_ := maxIterations_ r; stacks_ := x;
     configSpace_ := configSpace_ r; dimension_ := dimension_ r;
     reducedDimension_ := reducedDimension_ r;
     lastIsOptional_ := lastIsOptional_ r;
     solveLevelByLevel_ := solveLevelByLevel_ r;
     freeVariables_ := freeVariables_ r; constraints_ := constraints_ r;
     iq_ := iq_ r; iv_ := iv_ r; priority_ := priority_ r;
     sigma_ := sigma_ r; dq_ := dq_ r; dqSmall_ := dqSmall_ r;
     squaredNorm_ := squaredNorm_ r; datas_ := datas_ r |}.

Definition set_lastIsOptional_ (x : bool) (r : HierarchicalIterative)
  : HierarchicalIterative :=
  {| squaredErrorThreshold_ := squaredErrorThreshold_ r;
     inequalityThreshold_ := inequalityThreshold_ r;
     maxIterations_ := maxIterations_ r; stacks_ := stacks_ r;
     configSpace_ := configSpace_ r; dimension_ := dimension_ r;
     reducedDimension_ := reducedDimension_ r; lastIsOptional_ := x;
     solveLevelByLevel_ := solveLevelByLevel_ r;
     freeVariables_ := freeVariables_ r; constraints_ := constraints_ r;
     iq_ := iq_ r; iv_ := iv_ r; priority_ := priority_ r;
     sigma_ := sigma_ r; dq_ := dq_ r; dqSmall_ := dqSmall_ r;
     squaredNorm_ := squaredNorm_ r; datas_ := datas_ r |}.

Definition set_solveLevelByLevel_ (x : bool) (r : HierarchicalIterative)
  : HierarchicalIterative :=
  {| squaredErrorThreshold_ := squaredErrorThreshold_ r;
     inequalityThreshold_ := inequalityThreshold_ r;
     maxIterations_ := maxIterations_ r; stacks_ := stacks_ r;
     configSpace_ := configSpace_ r; dimension_ := dimension_ r;
     reducedDimension_ := reducedDimension_ r;
     lastIsOptional_ := lastIsOptional_ r; solveLevelByLevel_ := x;
     freeVariables_ := freeVariables_ r; constraints_ := constraints_ r;
     iq_ := iq_ r; iv_ := iv_ r; priority_ := priority_ r;
     sigma_ := sigma_ r; dq_ := dq_ r; dqSmall_ := dqSmall_ r;
     squaredNorm_ := squaredNorm_ r; datas_ := datas_ r |}.

Definition set_freeVariables_ (x : segments_t) (r : HierarchicalIterative)
  : HierarchicalIterative :=
  {| squaredErrorThreshold_ := squaredErrorThreshold_ r;
     inequalityThreshold_ := inequalityThreshold_ r;
     maxIterations_ := maxIterations_ r; stacks_ := stacks_ r;
     configSpace_ := configSpace_ r; dimension_ := dimension_ r;
     reducedDimension_ := reducedDimension_ r;
     lastIsOptional_ := lastIsOptional_ r;
     solveLevelByLevel_ := solveLevelByLevel_ r; freeVariables_ := x;
     constraints_ := constraints_ r; iq_ := iq_ r; iv_ := iv_ r;
     priority_ := priority_ r; sigma_ := sigma_ r; dq_ := dq_ r;
     dqSmall_ := dqSmall_ r; squaredNorm_ := squaredNorm_ r;
     datas_ := datas_ r |}.

Definition set_constraints_ (x : list ImplicitPtr_t) (r : HierarchicalIterative)
  : HierarchicalIterative :=
  {| squaredErrorThreshold_ := squaredErrorThreshold_ r;
     inequalityThreshold_ := inequalityThreshold_ r;
     maxIterations_ := maxIterations_ r; stacks_ := stacks_ r;
     configSpace_ := configSpace_ r; dimension_ := dimension_ r;
     reducedDimension_ := reducedDimension_ r;
     lastIsOptional_ := lastIsOptional_ r;
     solveLevelByLevel_ := solveLevelByLevel_ r;
     freeVariables_ := freeVariables_ r; constraints_ := x; iq_ := iq_ r;
     iv_ := iv_ r; priority_ := priority_ r; sigma_ := sigma_ r;
     dq_ := dq_ r; dqSmall_ := dqSmall_ r;
     squaredNorm_ := squaredNorm_ r; datas_ := datas_ r |}.

Definition set_iq_ (x : list (DifferentiableFunctionPtr_t * Z)) (r : HierarchicalIterative)
  : HierarchicalIterative :=
  {| squaredErrorThreshold_ := squaredErrorThreshold_ r;
     inequalityThreshold_ := inequalityThreshold_ r;
     maxIterations_ := maxIterations_ r; stacks_ := stacks_ r;
     configSpace_ := configSpace_ r; dimension_ := dimension_ r;
     reducedDimension_ := reducedDimension_ r;
     lastIsOptional_ := lastIsOptional_ r;
     solveLevelByLevel_ := solveLevelByLevel_ r;
     freeVariables_ := freeVariables_ r; constraints_ := constraints_ r;
     iq_ := x; iv_ := iv_ r; priority_ := priority_ r;
     sigma_ := sigma_ r; dq_ := dq_ r; dqSmall_ := dqSmall_ r;
     squaredNorm_ := squaredNorm_ r; datas_ := datas_ r |}.

Definition set_iv_ (x : list (DifferentiableFunctionPtr_t * Z)) (r : HierarchicalIterative)
  : HierarchicalIterative :=
  {| squaredErrorThreshold_ := squaredErrorThreshold_ r;
     inequalityThreshold_ := inequalityThreshold_ r;
     maxIterations_ := maxIterations_ r; stacks_ := stacks_ r;
     configSpace_ := configSpace_ r; dimension_ := dimension_ r;
     reducedDimension_ := reducedDimension_ r;
     lastIsOptional_ := lastIsOptional_ r;
     solveLevelByLevel_ := solveLevelByLevel_ r;
     freeVariables_ := freeVariables_ r; constraints_ := constraints_ r;
     iq_ := iq_ r; iv_ := x; priority_ := priority_ r;
     sigma_ := sigma_ r; dq_ := dq_ r; dqSmall_ := dqSmall_ r;
     squaredNorm_ := squaredNorm_ r; datas_ := datas_ r |}.

Definition set_priority_ (x : list (DifferentiableFunctionPtr_t * nat)) (r : HierarchicalIterative)
  : HierarchicalIterative :=
  {| squaredErrorThreshold_ := squaredErrorThreshold_ r;
     inequalityThreshold_ := inequalityThreshold_ r;
     maxIterations_ := maxIterations_ r; stacks_ := stacks_ r;
     configSpace_ := configSpace_ r; dimension_ := dimension_ r;
     reducedDimension_ := reducedDimension_ r;
     lastIsOptional_ := lastIsOptional_ r;
     solveLevelByLevel_ := solveLevelByLevel_ r;
     freeVariables_ := freeVariables_ r; constraints_ := constraints_ r;
     iq_ := iq_ r; iv_ := iv_ r; priority_ := x; sigma_ := sigma_ r;
     dq_ := dq_ r; dqSmall_ := dqSmall_ r;
     squaredNorm_ := squaredNorm_ r; datas_ := datas_ r |}.

Definition set_sigma_ (x : Q) (r : HierarchicalIterative)
  : HierarchicalIterative :=
  {| squaredErrorThreshold_ := squaredErrorThreshold_ r;
     inequalityThreshold_ := inequalityThreshold_ r;
     maxIterations_ := maxIterations_ r; stacks_ := stacks_ r;
     configSpace_ := configSpace_ r; dimension_ := dimension_ r;
     reducedDimension_ := reducedDimension_ r;
     lastIsOptional_ := lastIsOptional_ r;
     solveLevelByLevel_ := solveLevelByLevel_ r;
     freeVariables_ := freeVariables_ r; constraints_ := constraints_ r;
     iq_ := iq_ r; iv_ := iv_ r; priority_ := priority_ r; sigma_ := x;
     dq_ := dq_ r; dqSmall_ := dqSmall_ r;
     squaredNorm_ := squaredNorm_ r; datas_ := datas_ r |}.

Definition set_dq_ (x : vector_t) (r : HierarchicalIterative)
  : HierarchicalIterative :=
  {| squaredErrorThreshold_ := squaredErrorThreshold_ r;
     inequalityThreshold_ := inequalityThreshold_ r;
     maxIterations_ := maxIterations_ r; stacks_ := stacks_ r;
     configSpace_ := configSpace_ r; dimension_ := dimension_ r;
     reducedDimension_ := reducedDimension_ r;
     lastIsOptional_ := lastIsOptional_ r;
     solveLevelByLevel_ := solveLevelByLevel_ r;
     freeVariables_ := freeVariables_ r; constraints_ := constraints_ r;
     iq_ := iq_ r; iv_ := iv_ r; priority_ := priority_ r;
     sigma_ := sigma_ r; dq_ := x; dqSmall_ := dqSmall_ r;
     squaredNorm_ := squaredNorm_ r; datas_ := datas_ r |}.

Definition set_dqSmall_ (x : vector_t) (r : HierarchicalIterative)
  : HierarchicalIterative :=
  {| squaredErrorThreshold_ := squaredErrorThreshold_ r;
     inequalityThreshold_ := inequalityThreshold_ r;
     maxIterations_ := maxIterations_ r; stacks_ := stacks_ r;
     configSpace_ := configSpace_ r; dimension_ := dimension_ r;
     reducedDimension_ := reducedDimension_ r;
     lastIsOptional_ := lastIsOptional_ r;
     solveLevelByLevel_ := solveLevelByLevel_ r;
     freeVariables_ := freeVariables_ r; constraints_ := constraints_ r;
     iq_ := iq_ r; iv_ := iv_ r; priority_ := priority_ r;
     sigma_ := sigma_ r; dq_ := dq_ r; dqSmall_ := x;
     squaredNorm_ := squaredNorm_ r; datas_ := datas_ r |}.

Definition set_squaredNorm_ (x : Q) (r : HierarchicalIterative)
  : HierarchicalIterative :=
  {| squaredErrorThreshold_ := squaredErrorThreshold_ r;
     inequalityThreshold_ := inequalityThreshold_ r;
     maxIterations_ := maxIterations_ r; stacks_ := stacks_ r;
     configSpace_ := configSpace_ r; dimension_ := dimension_ r;
     reducedDimension_ := reducedDimension_ r;
     lastIsOptional_ := lastIsOptional_ r;
     solveLevelByLevel_ := solveLevelByLevel_ r;
     freeVariables_ := freeVariables_ r; constraints_ := constraints_ r;
     iq_ := iq_ r; iv_ := iv_ r; priority_ := priority_ r;
     sigma_ := sigma_ r; dq_ := dq_ r; dqSmall_ := dqSmall_ r;
     squaredNorm_ := x; datas_ := datas_ r |}.

Definition set_datas_ (x : list Data) (r : HierarchicalIterative)
  : HierarchicalIterative :=
  {| squaredErrorThreshold_ := squaredErrorThreshold_ r;
     inequalityThreshold_ := inequalityThreshold_ r;
     maxIterations_ := maxIterations_ r; stacks_ := stacks_ r;
     configSpace_ := configSpace_ r; dimension_ := dimension_ r;
     reducedDimension_ := reducedDimension_ r;
     lastIsOptional_ := lastIsOptional_ r;
     solveLevelByLevel_ := solveLevelByLevel_ r;
     freeVariables_ := freeVariables_ r; constraints_ := constraints_ r;
     iq_ := iq_ r; iv_ := iv_ r; priority_ := priority_ r;
     sigma_ := sigma_ r; dq_ := dq_ r; dqSmall_ := dqSmall_ r;
     squaredNorm_ := squaredNorm_ r; datas_ := x |}.

(** The constructor [HierarchicalIterative (configSpace)]. *)
Definition HierarchicalIterative_new (nq nv : Z) : HierarchicalIterative :=
  {| squaredErrorThreshold_ := 0%Q; inequalityThreshold_ := 0%Q;
     maxIterations_ := 0; stacks_ := []; configSpace_ := (nq, nv);
     dimension_ := 0; reducedDimension_ := 0;
     lastIsOptional_ := false; solveLevelByLevel_ := false;
     freeVariables_ := [ (0, nv) ];
     constraints_ := []; iq_ := []; iv_ := []; priority_ := [];
     sigma_ := 0%Q; dq_ := []; dqSmall_ := [];
     squaredNorm_ := 0%Q; datas_ := [] |}.

(** ** State and exceptions

    A method that can throw is a function from the state of the solver to
    the state it leaves and either its result or the exception thrown; the
    state at a [throw] is the state reached so far. *)
Definition M (A : Type) : Type :=
  HierarchicalIterative -> (exception + A) * HierarchicalIterative.

Definition ret {A : Type} (a : A) : M A := fun s => (inr a, s).

Definition bind {A B : Type} (m : M A) (k : A -> M B) : M B :=
  fun s => match m s with
           | (inl e, s') => (inl e, s')
           | (inr a, s') => k a s'
           end.

Definition throw {A : Type} (e : exception) : M A := fun s => (inl e, s).
Definition get : M HierarchicalIterative := fun s => (inr s, s).
Definition modify (g : HierarchicalIterative -> HierarchicalIterative)
  : M unit := fun s => (inr tt, g s).

Notation "x <- m ;; k" := (bind m (fun x => k))
  (at level 61, m at next level, right associativity).
Notation "m ;; k" := (bind m (fun _ => k))
  (at level 61, right associativity).

(** ** [update] *)

(** [computeActiveRowsOfJ (iStack)]: the rows of the selector, before
    [updateRows]. *)
Fixpoint activeRows_loop (freeVariables : segments_t)
         (constraints : ImplicitConstraintSet) (offset : Z) : segments_t :=
  match constraints with
  | [] => []
  | c :: constraints' =>
      let f := pointee (functionPtr c) in
      let adp := MatrixBlocks.rview false freeVariables
                                    (activeDerivativeParameters f) in
      (if existsb (fun b => b) adp
       then map (fun s => (first s + offset, second s)) (activeRows c)
       else [])
      ++ activeRows_loop freeVariables constraints'
                         (offset + outputDerivativeSize f)
  end.

Definition computeActiveRowsOfJ (freeVariables : segments_t)
           (constraints : ImplicitConstraintSet) (d : Data) : Data :=
  {| output_nq := output_nq d; output_nv := output_nv d; error := error d;
     inequalityIndices := inequalityIndices d;
     equalityIndices := equalityIndices d; comparison := comparison d;
     activeRowsOfJ :=
       (MatrixBlocks.updateRows (activeRows_loop freeVariables constraints 0),
        freeVariables);
     reducedJ := reducedJ d; svd_ThinV := svd_ThinV d; svd := svd d;
     PK := PK d; maxRank := maxRank d |}.

(** Body of the loop of [update] for level [i] of [n]. *)
Definition update_level (freeVariables : segments_t) (n i : nat)
           (constraints : ImplicitConstraintSet) (d0 : Data) : Data :=
  let reducedSize := MatrixBlocks.nbIndices freeVariables in
  let d := computeActiveRowsOfJ freeVariables constraints d0 in
  let nbRows := MatrixBlocks.nbIndices (fst (activeRowsOfJ d)) in
  {| output_nq := stack_outputSize constraints;
     output_nv := stack_outputDerivativeSize constraints;
     error := resize (stack_outputDerivativeSize constraints) (error d);
     inequalityIndices := inequalityIndices d;
     equalityIndices := equalityIndices d; comparison := comparison d;
     activeRowsOfJ := activeRowsOfJ d;
     reducedJ := resize_matrix nbRows reducedSize (reducedJ d);
     svd_ThinV := Nat.eqb i (n - 1);
     svd := None;
     PK := resize_matrix reducedSize reducedSize (PK d);
     maxRank := 0 |}.

Fixpoint update_levels (freeVariables : segments_t) (n i : nat)
         (stacks : list ImplicitConstraintSet) (datas : list Data)
  : list Data :=
  match stacks, datas with
  | cs :: stacks', d :: datas' =>
      update_level freeVariables n i cs d
      :: update_levels freeVariables n (S i) stacks' datas'
  | _, _ => datas
  end.

(** [HierarchicalIterative::update] *)
Definition update (s : HierarchicalIterative) : HierarchicalIterative :=
  let reducedSize := MatrixBlocks.nbIndices (freeVariables_ s) in
  let datas := update_levels (freeVariables_ s) (length (stacks_ s)) 0
                             (stacks_ s) (datas_ s) in
  {| squaredErrorThreshold_ := squaredErrorThreshold_ s;
     inequalityThreshold_ := inequalityThreshold_ s;
     maxIterations_ := maxIterations_ s;
     stacks_ := stacks_ s;
     configSpace_ := configSpace_ s;
     dimension_ :=
       fold_left (fun n cs => n + stack_outputDerivativeSize cs) (stacks_ s) 0;
     reducedDimension_ :=
       fold_left (fun n d => n + MatrixBlocks.nbIndices (fst (activeRowsOfJ d)))
                 (firstn (length (stacks_ s)) datas) 0;
     lastIsOptional_ := lastIsOptional_ s;
     solveLevelByLevel_ := solveLevelByLevel_ s;
     freeVariables_ := freeVariables_ s;
     constraints_ := constraints_ s;
     iq_ := iq_ s; iv_ := iv_ s; priority_ := priority_ s;
     sigma_ := sigma_ s;
     dq_ := Dense.Zero (snd (configSpace_ s));
     dqSmall_ := resize reducedSize (dqSmall_ s);
     squaredNorm_ := squaredNorm_ s;
     datas_ := datas |}.

(** The setter [freeVariables (intervals)] of the header: it stores the
    intervals, puts them in canonical form and calls [update]. *)
Definition freeVariables (intervals : segments_t) (s : HierarchicalIterative)
  : HierarchicalIterative :=
  update (set_freeVariables_ (MatrixBlocks.updateRows intervals) s).

(** ** [add] *)

(** The loop of [add] over the comparison types of the new constraint. *)
Definition add_comparison (d : Data) (c : ComparisonType) : Data :=
  let size := length (comparison d) in
  let d1 :=
    match c with
    | Superior | Inferior =>
        set_inequalityIndices (inequalityIndices d ++ [ size ]) d
    | Equality =>
        set_equalityIndices (equalityIndices d ++ [ (Z.of_nat size, 1) ]) d
    | EqualToZero => d
    end in
  set_comparison (comparison d1 ++ [ c ]) d1.

(** [HierarchicalIterative::add] *)
Definition add (constraint : ImplicitPtr_t) (priority : nat) : M bool :=
  let f := functionPtr constraint in
  s0 <- get ;;
  if existsb (fun arg => function_eq (pointee (fst arg)) (pointee f))
             (priority_ s0)
  then
    throw (logic_error (already_in_solver f))
  else
    modify (fun s => set_priority_ (map_set f priority (priority_ s)) s) ;;
    let comp := comparisonType constraint in
    let minSize := (priority + 1)%nat in
    modify (fun s =>
              if Nat.ltb (length (stacks_ s)) minSize
              then set_datas_ (vector_grow minSize Data_default (datas_ s))
                     (set_stacks_ (vector_grow minSize [] (stacks_ s)) s)
              else s) ;;
    modify (fun s =>
              set_iq_ (map_set f (output_nq (nth priority (datas_ s)
                                                 Data_default)) (iq_ s)) s) ;;
    modify (fun s =>
              set_iv_ (map_set f (output_nv (nth priority (datas_ s)
                                                 Data_default)) (iv_ s)) s) ;;
    modify (fun s =>
              set_stacks_ (at_index priority (fun cs => cs ++ [ constraint ])
                                    (stacks_ s)) s) ;;
    modify (fun s =>
              set_datas_ (at_index priority
                            (fun d => fold_left add_comparison comp d)
                            (datas_ s)) s) ;;
    modify (fun s =>
              set_datas_ (at_index priority
                            (fun d => set_equalityIndices
                                        (MatrixBlocks.updateRows
                                           (equalityIndices d)) d)
                            (datas_ s)) s) ;;
    modify (fun s => set_constraints_ (constraints_ s ++ [ constraint ]) s) ;;
    modify update ;;
    ret true.

(** [HierarchicalIterative::definesSubmanifoldOf]: every constraint of
    [solver] has a function equal to the function of a constraint of this
    solver. *)
Definition definesSubmanifoldOf (this solver : HierarchicalIterative) : bool :=
  forallb (fun it =>
             existsb (fun arg => function_eq (pointee (functionPtr arg))
                                             (pointee (functionPtr it)))
                     (constraints_ this))
          (constraints_ solver).

(** The inequality indices of a level list, once each, the rows of its
    comparison vector that are [Superior] or [Inferior], and no other. *)
Definition inequalityIndices_exact (d : Data) : Prop :=
  NoDup (inequalityIndices d) /\
  forall j, In j (inequalityIndices d) <->
            nth_error (comparison d) j = Some Superior \/
            nth_error (comparison d) j = Some Inferior.

(** ** [computeError] *)

(** Inner loop of [computeError] over the constraints of one level. *)
Fixpoint computeError_level (constraints : ImplicitConstraintSet) (d : Data)
         (iv : Z) (squaredNorm : Q) : Q :=
  match constraints with
  | [] => squaredNorm
  | c :: constraints' =>
      let nv := outputDerivativeSize (pointee (functionPtr c)) in
      computeError_level constraints' d (iv + nv)
        (Qmax squaredNorm
              (Dense.squaredNorm (Dense.segment iv nv (error d))))
  end.

(** Outer loop of [computeError]: [i] is the loop counter, the two lists are
    [stacks_] and [datas_] from index [i] on.  The loop reads [stacks_[i]]
    and [datas_[i]] as long as [i < end]. *)
Fixpoint computeError_loop (end_ i : Z)
         (stacks : list ImplicitConstraintSet) (datas : list Data)
         (squaredNorm : Q) : access Q :=
  match stacks, datas with
  | cs :: stacks', d :: datas' =>
      if i <? end_
      then computeError_loop end_ (i + 1) stacks' datas'
                             (computeError_level cs d 0 squaredNorm)
      else Done squaredNorm
  | _, _ =>
      if i <? end_ then OutOfRange i else Done squaredNorm
  end.

(** [HierarchicalIterative::computeError] *)
Definition computeError (s : HierarchicalIterative)
  : access HierarchicalIterative :=
  let size := Z.of_nat (length (stacks_ s)) in
  let end_ := if lastIsOptional_ s then size_t_sub size 1 else size in
  match computeError_loop end_ 0 (stacks_ s) (datas_ s) 0%Q with
  | Done squaredNorm => Done (set_squaredNorm_ squaredNorm s)
  | OutOfRange i => OutOfRange i
  end.

(** ** [residualError] and [getReducedJacobian] *)

(** [HierarchicalIterative::residualError]: returns the vector [error] the
    caller passed, with the errors of the levels written into it. *)
Fixpoint residualError_loop (datas : list Data) (row : Z) (error_ : vector_t)
  : vector_t :=
  match datas with
  | [] => error_
  | d :: datas' =>
      residualError_loop datas' (row + Z.of_nat (length (error d)))
                         (Dense.set_segment row (error d) error_)
  end.

Definition residualError (s : HierarchicalIterative) (error_ : vector_t)
  : vector_t :=
  residualError_loop (datas_ s) 0 error_.

(** Loop of [HierarchicalIterative::getReducedJacobian]: the matrix and
    the value of [row] at the end. *)
Fixpoint getReducedJacobian_loop (datas : list Data) (row : Z) (J : matrix_t)
  : matrix_t * Z :=
  match datas with
  | [] => (J, row)
  | d :: datas' =>
      getReducedJacobian_loop datas' (row + Dense.rows (reducedJ d))
                              (Dense.set_segment row (reducedJ d) J)
  end.

(** [HierarchicalIterative::getReducedJacobian]: returns the matrix [J] the
    caller passed, with the reduced Jacobians of the levels written into
    it; [assert (J.rows () == row)] aborts the call when it fails and
    [NDEBUG] is not defined. *)
Definition getReducedJacobian (NDEBUG : bool) (s : HierarchicalIterative)
           (J : matrix_t) : outcome matrix_t :=
  let '(J', row) := getReducedJacobian_loop (datas_ s) 0 J in
  if negb NDEBUG && negb (Dense.rows J' =? row) then AssertionFailure
  else Returns J'.

(** ** [computeSaturation] *)

(** [tmpSat_] for one level: coordinate [j] tells whether the saturation
    sign of free variable [j] and coordinate [j] of [Jr^T * error] have a
    negative product. *)
Definition tmpSat (reducedSaturation : list Z) (d : Data) : list bool :=
  let error_ := MatrixBlocks.rview 0%Q (fst (activeRowsOfJ d)) (error d) in
  map (fun x => Qltb x 0)
      (Dense.cwiseProduct (map inject_Z reducedSaturation)
                          (Dense.tmat_vec (reducedJ d) error_)).

(** Loop of [computeSaturation] over the columns of one level. *)
Definition zero_columns (flags : list bool) (m : matrix_t) : matrix_t :=
  fold_left (fun m j => if nth j flags false then Dense.setZero_col j m
                        else m)
            (seq 0 (length flags)) m.

(** Body of the loop of [computeSaturation] for one level. *)
Definition computeSaturation_level (reducedSaturation : list Z) (d : Data)
  : Data :=
  set_reducedJ (zero_columns (tmpSat reducedSaturation d) (reducedJ d)) d.

(** [HierarchicalIterative::computeSaturation].  The saturation policy
    [saturate_] is a virtual object; what its call returns, the flag and
    the vector of signs it leaves in [saturation_], are arguments. *)
Definition computeSaturation (applySaturate : bool) (saturation : list Z)
           (s : HierarchicalIterative) : HierarchicalIterative :=
  if negb applySaturate then s
  else
    let reducedSaturation :=
      MatrixBlocks.rview 0 (freeVariables_ s) saturation in
    let n := length (stacks_ s) in
    set_datas_ (map (computeSaturation_level reducedSaturation)
                    (firstn n (datas_ s))
                ++ skipn n (datas_ s)) s.

(** ** [computeDescentDirection] *)

(** [HierarchicalIterative::expandDqSmall] *)
Definition expandDqSmall (s : HierarchicalIterative) : HierarchicalIterative :=
  set_dq_ (MatrixBlocks.assign (freeVariables_ s) (dqSmall_ s) (dq_ s)) s.

(** Modelled from the spec: [getV2<SVD_t> (svd, rank)] is defined in a
    header; the spec gives it as "the last [ncols - rank] columns of the V
    factor (the right nullspace basis)". *)
Definition getV2 (svd : SVD_t) (rank : Z) : matrix_t :=
  Dense.rightCols (Dense.cols (svd_matrixV svd) - rank) (svd_matrixV svd).

(** The update of [sigma_] after a level has been factored:
    [if (d.maxRank > 0)
       sigma_ = std::min (sigma_, d.svd.singularValues ()[d.maxRank - 1])].
    The coefficient is read without a check; [maxRank] is the largest rank
    the level has had since the last [update], and when the decomposition
    of this call has fewer singular values the read is past their end. *)
Definition update_sigma (sigma : Q) (maxRank : Z) (svd : SVD_t) : access Q :=
  if maxRank >? 0 then
    match nth_error (svd_singularValues svd) (Z.to_nat (maxRank - 1)) with
    | Some x => Done (Qmin sigma x)
    | None => OutOfRange (maxRank - 1)
    end
  else Done sigma.

(** [err = d.activeRowsOfJ.keepRows ().rview (-d.error)] *)
Definition active_error (d : Data) : vector_t :=
  MatrixBlocks.rview 0%Q (fst (activeRowsOfJ d)) (Dense.vopp (error d)).

(** The members and locals the loop over the levels carries from one level
    to the next.  [projector] points to the member [PK] of the last level
    that stored one; no later level writes that member, so the pointer is
    modelled by the matrix it points to. *)
Record Loop : Type := {
  l_dqSmall : vector_t;
  l_sigma : Q;
  l_projector : option matrix_t
}.

(** First part of the body of the loop for level [i]: the error, the
    decomposition and the new [dqSmall_]. *)
Definition level_factor (i : nat) (d : Data) (dqSmall : vector_t)
           (projector : option matrix_t) : vector_t * SVD_t * vector_t :=
  let first := Nat.eqb i 0 in
  if first then
    let err := active_error d in
    let svd' := svd_compute (svd_ThinV d) (reducedJ d) in
    (err, svd', svd_solve svd' err)
  else
    let err := Dense.vsub (active_error d)
                          (Dense.mat_vec (reducedJ d) dqSmall) in
    match projector with
    | None =>
        let svd' := svd_compute (svd_ThinV d) (reducedJ d) in
        (err, svd', Dense.vadd dqSmall (svd_solve svd' err))
    | Some projector =>
        let svd' := svd_compute (svd_ThinV d)
                                (Dense.mat_mul (reducedJ d) projector) in
        (err, svd',
         Dense.vadd dqSmall (Dense.mat_vec projector (svd_solve svd' err)))
    end.

(** Last part of the body, after [sigma_] has been updated: the three
    [break]s and the projector for the next level.  The flag tells whether
    the loop is left by [break]. *)
Definition level_next (solveLevelByLevel : bool) (squaredErrorThreshold : Q)
           (n i : nat) (err : vector_t) (svd' : SVD_t) (d1 : Data)
           (projector : option matrix_t) : Data * option matrix_t * bool :=
  let last := Nat.eqb i (n - 1) in
  let rank := svd_rank svd' in
  if solveLevelByLevel && Qltb squaredErrorThreshold (Dense.squaredNorm err)
  then (d1, projector, true)
  else if last then (d1, projector, true)
  else if Dense.cols (svd_matrixV svd') =? rank then (d1, projector, true)
  else
    let PK' := match projector with
               | None => getV2 svd' rank
               | Some projector => Dense.mat_mul projector (getV2 svd' rank)
               end in
    (set_PK PK' d1, Some PK', false).

(** Body of the loop for level [i] of [n] when [d.reducedJ.rows () != 0]. *)
Definition level_body (solveLevelByLevel : bool) (squaredErrorThreshold : Q)
           (n i : nat) (d : Data) (st : Loop) : access (Data * Loop * bool) :=
  let '(err, svd', dqSmall) :=
    level_factor i d (l_dqSmall st) (l_projector st) in
  let rank := svd_rank svd' in
  let maxRank' := Z.max (maxRank d) rank in
  let d1 := set_maxRank maxRank' (set_svd (Some svd') d) in
  match update_sigma (l_sigma st) maxRank' svd' with
  | Done sigma =>
      let '(d', projector', stop) :=
        level_next solveLevelByLevel squaredErrorThreshold n i err svd' d1
                   (l_projector st) in
      Done (d',
            {| l_dqSmall := dqSmall; l_sigma := sigma;
               l_projector := projector' |},
            stop)
  | OutOfRange k => OutOfRange k
  end.

(** The loop over the levels, from level [i] on; [datas] is what [datas_]
    holds from index [i] on.  [datas_[i]] is read without a check: when
    [datas_] ends before the [n] levels do, the read is past its end. *)
Fixpoint levels_loop (solveLevelByLevel : bool) (squaredErrorThreshold : Q)
         (n i : nat) (datas : list Data) (st : Loop)
  : access (list Data * Loop) :=
  match datas with
  | [] => if (i <? n)%nat then OutOfRange (Z.of_nat i) else Done ([], st)
  | d :: datas' =>
      if Dense.rows (reducedJ d) =? 0 then
        match levels_loop solveLevelByLevel squaredErrorThreshold
                          n (S i) datas' st with
        | Done (ds, st') => Done (d :: ds, st')
        | OutOfRange k => OutOfRange k
        end
      else
        match level_body solveLevelByLevel squaredErrorThreshold n i d st with
        | Done (d', st1, stop) =>
            if stop then Done (d' :: datas', st1)
            else
              match levels_loop solveLevelByLevel squaredErrorThreshold
                                n (S i) datas' st1 with
              | Done (ds, st') => Done (d' :: ds, st')
              | OutOfRange k => OutOfRange k
              end
        | OutOfRange k => OutOfRange k
        end
  end.

(** The branch [stacks_.size () == 1]. *)
Definition one_level (d : Data) (sigma : Q) : access (Data * vector_t * Q) :=
  let svd' := svd_compute (svd_ThinV d) (reducedJ d) in
  let err := active_error d in
  let dqSmall := svd_solve svd' err in
  let maxRank' := Z.max (maxRank d) (svd_rank svd') in
  match update_sigma sigma maxRank' svd' with
  | Done sigma' =>
      Done (set_maxRank maxRank' (set_svd (Some svd') d), dqSmall, sigma')
  | OutOfRange k => OutOfRange k
  end.

(** [HierarchicalIterative::computeDescentDirection]: the solver the call
    leaves, or the index of the first read past the end of [datas_] or of
    the singular values of a level. *)
Definition computeDescentDirection (s : HierarchicalIterative)
  : access HierarchicalIterative :=
  let s0 := set_sigma_ value_max s in
  match stacks_ s0 with
  | [] => Done (set_dq_ (Dense.setZero (dq_ s0)) s0)
  | [ _ ] =>
      match datas_ s0 with
      | d :: datas' =>
          match one_level d (sigma_ s0) with
          | Done (d', dqSmall, sigma) =>
              Done (expandDqSmall
                      (set_sigma_ sigma
                         (set_dqSmall_ dqSmall
                            (set_datas_ (d' :: datas') s0))))
          | OutOfRange k => OutOfRange k
          end
      | [] => OutOfRange 0
      end
  | _ =>
      let n := length (stacks_ s0) in
      match levels_loop (solveLevelByLevel_ s0) (squaredErrorThreshold_ s0)
                        n 0 (firstn n (datas_ s0))
                        {| l_dqSmall := dqSmall_ s0; l_sigma := sigma_ s0;
                           l_projector := None |} with
      | Done (ds, st) =>
          Done (expandDqSmall
                  (set_sigma_ (l_sigma st)
                     (set_dqSmall_ (l_dqSmall st)
                        (set_datas_ (ds ++ skipn n (datas_ s0)) s0))))
      | OutOfRange k => OutOfRange k
      end
  end.

(** ** The levels a call factors

    The definitions below are not in the source: they name what the
    statements about [sigma_] and [maxRank] speak of. *)

(** A turn of the loop without the read of a singular value: what the
    level, [dqSmall_] and the projector become. *)
Definition level_turn (solveLevelByLevel : bool) (squaredErrorThreshold : Q)
           (n i : nat) (d : Data) (dqSmall : vector_t)
           (projector : option matrix_t)
  : Data * vector_t * option matrix_t * bool :=
  let '(err, svd', dqSmall') := level_factor i d dqSmall projector in
  let d1 := set_maxRank (Z.max (maxRank d) (svd_rank svd'))
                        (set_svd (Some svd') d) in
  let '(d', projector', stop) :=
    level_next solveLevelByLevel squaredErrorThreshold n i err svd' d1
               projector in
  (d', dqSmall', projector', stop).

(** The levels the loop factors when no read fails, from level [i] on: the
    index of each with the data it is left with at the end of its turn, in
    order.  The function follows the control flow of [levels_loop]. *)
Fixpoint factored_loop (solveLevelByLevel : bool) (squaredErrorThreshold : Q)
         (n i : nat) (datas : list Data) (dqSmall : vector_t)
         (projector : option matrix_t) : list (nat * Data) :=
  match datas with
  | [] => []
  | d :: datas' =>
      if Dense.rows (reducedJ d) =? 0 then
        factored_loop solveLevelByLevel squaredErrorThreshold n (S i) datas'
                      dqSmall projector
      else
        let '(d', dqSmall', projector', stop) :=
          level_turn solveLevelByLevel squaredErrorThreshold n i d
                     dqSmall projector in
        (i, d')
        :: (if stop then []
            else factored_loop solveLevelByLevel squaredErrorThreshold
                               n (S i) datas' dqSmall' projector')
  end.

(** The levels a call of [computeDescentDirection] factors. *)
Definition factored (s : HierarchicalIterative) : list (nat * Data) :=
  match stacks_ s with
  | [] => []
  | [ _ ] =>
      match datas_ s with
      | d :: _ =>
          let svd' := svd_compute (svd_ThinV d) (reducedJ d) in
          [ (0%nat, set_maxRank (Z.max (maxRank d) (svd_rank svd'))
                                (set_svd (Some svd') d)) ]
      | [] => []
      end
  | _ =>
      let n := length (stacks_ s) in
      factored_loop (solveLevelByLevel_ s) (squaredErrorThreshold_ s) n 0
                    (firstn n (datas_ s)) (dqSmall_ s) None
  end.

(** What a factored level contributes to [sigma_]: nothing when its
    [maxRank] is 0, else the singular value of index [maxRank - 1] of its
    decomposition, when there is one. *)
Definition level_sigma (d : Data) : access (option Q) :=
  match svd d with
  | Some r =>
      if maxRank d >? 0 then
        match nth_error (svd_singularValues r) (Z.to_nat (maxRank d - 1)) with
        | Some x => Done (Some x)
        | None => OutOfRange (maxRank d - 1)
        end
      else Done None
  | None => Done None
  end.

(** The minimum of a value and the values a list of levels contributes, in
    the order of the list; the first level whose singular value does not
    exist decides. *)
Fixpoint min_sigma (sigma : Q) (levels : list (nat * Data)) : access Q :=
  match levels with
  | [] => Done sigma
  | (_, d) :: levels' =>
      match level_sigma d with
      | Done (Some x) => min_sigma (Qmin sigma x) levels'
      | Done None => min_sigma sigma levels'
      | OutOfRange k => OutOfRange k
      end
  end.

(** How a call relates the data of a level before and after: either the
    level is left alone, or its reduced Jacobian [J], or the product of [J]
    and a projector, has been factored in this call and [maxRank] raised to
    the rank found. *)
Definition level_rel (d d' : Data) : Prop :=
  d' = d \/
  exists M,
    (M = reducedJ d \/ exists P, M = Dense.mat_mul (reducedJ d) P) /\
    svd d' = Some (svd_compute (svd_ThinV d) M) /\
    maxRank d' = Z.max (maxRank d) (svd_rank (svd_compute (svd_ThinV d) M)).

(** The rank of the decomposition a level holds is at most its [maxRank]. *)
Definition rank_bounded (d : Data) : Prop :=
  match svd d with
  | Some r => svd_rank r <= maxRank d
  | None => True
  end.

(** The level [d'] is the level [d] but for its decomposition, its
    [maxRank] and its projector [PK]. *)
Definition factorisation_only (d d' : Data) : Prop :=
  set_PK (PK d) (set_maxRank (maxRank d) (set_svd (svd d) d')) = d.

(** How a call relates a level before and after: [level_rel], and nothing
    else is written in the level. *)
Definition turn_rel (d d' : Data) : Prop :=
  level_rel d d' /\ factorisation_only d d'.

(** ** Between two calls of [computeDescentDirection]

    In [solve], [computeValue<true>], [computeError] and [computeSaturation]
    run between two calls.  Of the members modelled here they write the
    error and the reduced Jacobian of every level and [squaredNorm_]; the
    values stored come from the constraint functions, which this file does
    not define, so they are arguments. *)
Fixpoint store_levels (values : list (vector_t * matrix_t))
         (datas : list Data) : list Data :=
  match values, datas with
  | (e, j) :: values', d :: datas' =>
      set_reducedJ j (set_error e d) :: store_levels values' datas'
  | _, _ => datas
  end.

Definition evaluate (values : list (vector_t * matrix_t)) (squaredNorm : Q)
           (s : HierarchicalIterative) : HierarchicalIterative :=
  set_squaredNorm_ squaredNorm (set_datas_ (store_levels values (datas_ s)) s).

(** The states reached from [s] by iterations of [solve]: each one
    evaluates the constraints and computes a descent direction. *)
Inductive iterations (s : HierarchicalIterative)
  : HierarchicalIterative -> Prop :=
| iterations_start : iterations s s
| iterations_step (s' s'' : HierarchicalIterative)
    (values : list (vector_t * matrix_t)) (squaredNorm : Q) :
    iterations s s' ->
    computeDescentDirection (evaluate values squaredNorm s') = Done s'' ->
    iterations s s''.

End Engine.

End solver.

(* ================================================================== *)
(** * Scalar problems

    The exact decomposition of a 1x1 matrix [[x]]: one singular value
    [|x|], rank 1 unless [x] is 0, [V = [[1]]], and the least-squares
    solution [b / x] (0 when [x] is 0).  It lets the solver run on problems
    with one constraint row and one free variable; it is meant for no other
    shape. *)
(* ================================================================== *)

Module Scalar.

Definition entry (m : matrix_t) : Q := nth 0 (nth 0 m []) 0%Q.

Definition svd (garbage : Q) : JacobiSVD :=
  {| SVD_t := Q;
     svd_compute := fun _ m => entry m;
     svd_solve := fun x b => if Qeq_bool x 0 then [ 0%Q ]
                             else [ (nth 0 b 0 / x)%Q ];
     svd_rank := fun x => if Qeq_bool x 0 then 0 else 1;
     svd_singularValues := fun x => [ Qabs x ];
     svd_matrixV := fun _ => [ [ 1%Q ] ];
     uninitialized := garbage |}.

(** Functions are compared by name. *)
Definition same_name (f g : solver.DifferentiableFunction) : bool :=
  String.eqb (solver.name f) (solver.name g).

(** An equality constraint with one output row that depends on every one
    of [nv] variables, stored at [address]. *)
Definition constraint (address : nat) (name : String.string) (nv : nat)
  : solver.Implicit :=
  {| solver.functionPtr :=
       {| solver.address := address;
          solver.pointee :=
            {| solver.name := name;
               solver.outputSize := 1;
               solver.outputDerivativeSize := 1;
               solver.activeDerivativeParameters := repeat true nv |} |};
     solver.comparisonType := [ Equality ];
     solver.activeRows := [ (0, 1) ] |}.

(** A solver on one variable with the constraint ["f"] at priority 0. *)
Definition problem (garbage : Q)
  : solver.HierarchicalIterative (Eigen := svd garbage) :=
  snd (solver.add same_name (constraint 1 "f"%string 1) 0
                  (solver.HierarchicalIterative_new 1 1)).

(** A solver on two variables, of which only the second is free, with the
    constraint ["f"] at priority 0. *)
Definition restricted_problem (garbage : Q)
  : solver.HierarchicalIterative (Eigen := svd garbage) :=
  snd (solver.add same_name (constraint 1 "f"%string 2) 0
                  (solver.freeVariables [ (1, 1) ]
                     (solver.HierarchicalIterative_new 2 2))).

(** A solver on one variable with the constraint ["f"] at priority 0 and
    the constraint ["g"] at priority 1. *)
Definition two_levels (garbage : Q)
  : solver.HierarchicalIterative (Eigen := svd garbage) :=
  snd (solver.add same_name (constraint 2 "g"%string 1) 1 (problem garbage)).

(** The inequality constraint [h (q) >= 0] with one output row on one
    variable. *)
Definition inequality (address : nat) (name : String.string)
  : solver.Implicit :=
  {| solver.functionPtr :=
       {| solver.address := address;
          solver.pointee :=
            {| solver.name := name;
               solver.outputSize := 1;
               solver.outputDerivativeSize := 1;
               solver.activeDerivativeParameters := [ true ] |} |};
     solver.comparisonType := [ Superior ];
     solver.activeRows := [ (0, 1) ] |}.

(** The solver a call of [computeDescentDirection] leaves when it
    completes, and the solver it was called on otherwise. *)
Definition step {garbage : Q}
           (s : solver.HierarchicalIterative (Eigen := svd garbage))
  : solver.HierarchicalIterative (Eigen := svd garbage) :=
  match solver.computeDescentDirection s with
  | solver.Done s' => s'
  | solver.OutOfRange _ => s
  end.

End Scalar.
Ltac unfold_seg :=
  unfold overlap, sum, sum_ordered, difference, wf, mem, first, second in *;
  simpl fst in *; simpl snd in *.

Ltac zbool :=
  repeat match goal with
  | |- context [?x =? ?y] => destruct (Z.eqb_spec x y)
  | |- context [?x <=? ?y] => destruct (Z.leb_spec x y)
  | |- context [?x <? ?y] => destruct (Z.ltb_spec x y)
  | |- context [?x >=? ?y] => rewrite (Z.geb_leb x y)
  | |- context [?x >? ?y] => rewrite (Z.gtb_ltb x y)
  end; simpl.

(** Closes an equation between one-segment lists whose components are
    equal by linear arithmetic. *)
Ltac seg_eq :=
  match goal with
  | |- [ (?s, ?x) ] = [ (?t, ?y) ] =>
      replace x with y by lia; replace s with t by lia; reflexivity
  end.

(** Exact characterisation of [overlap]: it answers [true] exactly when the
    two ranges are non-empty and the start of [b] or the end of [b] falls in
    the range of [a]. *)
Lemma overlap_true_iff (a b : segment_t) :
  overlap a b = true <->
  second a <> 0 /\ second b <> 0 /\
  ((first a <= first b < first a + second a) \/
   (first a < first b + second b <= first a + second a)).
Proof.
  destruct a as [a1 a2], b as [b1 b2]. unfold_seg. zbool; intuition (try lia; try discriminate).
Qed.

(** C3: [overlap] misses the case where the second range strictly contains
    the first one: the ranges [[2,3)] and [[0,10)] share the index 2 and both
    have positive length, yet [overlap (2,1) (0,10)] is [false] (while the
    swapped call answers [true]). *)
Theorem overlap_misses_strict_containment :
  overlap (2, 1) (0, 10) = false /\
  overlap (0, 10) (2, 1) = true /\
  0 < second (2, 1) /\ 0 < second (0, 10) /\
  intersects (2, 1) (0, 10).
Proof.
  repeat split; try reflexivity.
  exists 2. unfold_seg. lia.
Qed.

(** C4 (as stated) fails: the union of the empty interval [(0,0)] with
    [(5,3)] keeps the empty interval in its result, and the difference of two
    empty intervals is the empty list, not the list holding the first one. *)
Lemma zero_length_kept_by_sum :
  second (0, 0) = 0 /\
  sum (0, 0) (5, 3) = [ (0, 0) ; (5, 3) ] /\
  sum (0, 0) (5, 3) <> [ (5, 3) ] /\
  sum (5, 3) (0, 0) <> [ (5, 3) ] /\
  difference (5, 0) (0, 0) <> [ (5, 0) ].
Proof.
  repeat split; try reflexivity; vm_compute; discriminate.
Qed.

(** C4 (amended): for [a] of length 0 and any interval [b], [overlap] is
    false in both argument orders, [difference a b] is empty,
    [difference b a] is [[b]] when [b] is non-empty (and empty when [b] has
    length 0 as well), and [sum a b = sum b a = [b]] whenever the start of
    [a] lies in the closed range [[b.start, b.start + b.length]]. *)
Theorem zero_length_absorbed (a b : segment_t) :
  second a = 0 -> 0 <= second b ->
  overlap a b = false /\
  overlap b a = false /\
  difference a b = [] /\
  difference b a = (if second b =? 0 then [] else [ b ]) /\
  (first b <= first a <= first b + second b ->
   sum a b = [ b ] /\ sum b a = [ b ]).
Proof.
  destruct a as [a1 a2], b as [b1 b2]. unfold_seg. intros -> Hb.
  repeat match goal with |- _ /\ _ => split end; [ | | | | intros Hin; split ];
    zbool; try reflexivity; try lia.
  all: seg_eq.
Qed.

Lemma zero_length_absorbed_witness :
  overlap (6, 0) (5, 3) = false /\
  overlap (5, 3) (6, 0) = false /\
  difference (6, 0) (5, 3) = [] /\
  difference (5, 3) (6, 0) = (if second (5, 3) =? 0 then [] else [ (5, 3) ]) /\
  (first (5, 3) <= first (6, 0) <= first (5, 3) + second (5, 3) ->
   sum (6, 0) (5, 3) = [ (5, 3) ] /\ sum (5, 3) (6, 0) = [ (5, 3) ]).
Proof.
  apply (zero_length_absorbed (6, 0) (5, 3)); [reflexivity | simpl; lia].
Defined.

(** C10: on intervals (non-negative lengths), the two-interval union does
    not depend on the order of its arguments. *)
Theorem sum_comm (a b : segment_t) :
  0 <= second a -> 0 <= second b -> sum a b = sum b a.
Proof.
  destruct a as [a1 a2], b as [b1 b2]. unfold_seg. intros Ha Hb.
  zbool; try lia; try reflexivity.
  assert (a1 = b1) by lia. subst. seg_eq.
Qed.

Lemma sum_comm_witness : sum (0, 5) (3, 4) = sum (3, 4) (0, 5).
Proof.
  apply (sum_comm (0, 5) (3, 4)); simpl; lia.
Defined.

(* ================================================================== *)
(** * Comparison of inequality rows                                    *)
(* ================================================================== *)

Lemma Qltb_lt (x y : Q) : Qltb x y = true <-> (x < y)%Q.
Proof.
  unfold Qltb. rewrite negb_true_iff.
  split; intros H.
  - apply Qnot_le_lt. intros Hle. apply Qle_bool_iff in Hle. congruence.
  - destruct (Qle_bool y x) eqn:E; [ | reflexivity ].
    apply Qle_bool_iff in E. exfalso. exact (Qlt_not_le _ _ H E).
Qed.

Lemma Qltb_nlt (x y : Q) : Qltb x y = false <-> ~ (x < y)%Q.
Proof.
  rewrite <- Qltb_lt. destruct (Qltb x y); intuition congruence.
Qed.

Section Upd.

Context {A : Type}.

Lemma upd_length (i : nat) (x : A) (l : list A) :
  length (Dense.upd i x l) = length l.
Proof.
  revert i; induction l as [ | y l IH ]; intros [ | i ]; simpl; auto.
Qed.

Lemma nth_upd_eq (i : nat) (x d : A) (l : list A) :
  (i < length l)%nat -> nth i (Dense.upd i x l) d = x.
Proof.
  revert i; induction l as [ | y l IH ]; intros [ | i ]; simpl; intros H;
    try lia; auto. apply IH; lia.
Qed.

Lemma nth_upd_neq (i j : nat) (x d : A) (l : list A) :
  i <> j -> nth j (Dense.upd i x l) d = nth j l d.
Proof.
  revert i j; induction l as [ | y l IH ]; intros [ | i ] [ | j ]; simpl;
    intros H; try congruence; auto.
Qed.

End Upd.

Lemma applyComparison_step_length cj comparison thr st j :
  length (fst (applyComparison_step cj comparison thr st j)) = length (fst st)
  /\ length (snd (applyComparison_step cj comparison thr st j))
     = length (snd st).
Proof.
  destruct st as [value jacobian]. unfold applyComparison_step.
  destruct (nth_error comparison j) as [ [ | | | ] | ]; simpl; auto;
    match goal with |- context [compare ?a ?b ?c ?d ?e] =>
      destruct (compare a b c d e) end;
    simpl; rewrite !upd_length; auto.
Qed.

Lemma applyComparison_step_other cj comparison thr st i j :
  i <> j ->
  nth j (fst (applyComparison_step cj comparison thr st i)) 0%Q
  = nth j (fst st) 0%Q
  /\ nth j (snd (applyComparison_step cj comparison thr st i)) []
     = nth j (snd st) [].
Proof.
  intros Hij. destruct st as [value jacobian]. unfold applyComparison_step.
  destruct (nth_error comparison i) as [ [ | | | ] | ]; simpl; auto;
    match goal with |- context [compare ?a ?b ?c ?d ?e] =>
      destruct (compare a b c d e) end;
    simpl; rewrite !nth_upd_neq by exact Hij; auto.
Qed.

(** Rows whose index is not in the list are left as they are. *)
Lemma applyComparison_other cj comparison thr indices :
  forall st j, ~ In j indices ->
  nth j (fst (fold_left (applyComparison_step cj comparison thr) indices st))
      0%Q = nth j (fst st) 0%Q
  /\ nth j (snd (fold_left (applyComparison_step cj comparison thr)
                           indices st)) [] = nth j (snd st) [].
Proof.
  induction indices as [ | i indices IH ]; intros st j Hj; simpl; auto.
  destruct (IH (applyComparison_step cj comparison thr st i) j) as [H1 H2].
  { intros H. apply Hj. right. exact H. }
  destruct (applyComparison_step_other cj comparison thr st i j) as [H3 H4].
  { intros ->. apply Hj. left. reflexivity. }
  split; congruence.
Qed.

(** C2 (as stated) fails: with threshold [1/2], the [Inferior] row of value
    [1] satisfies [-thr < v]; the source adds the threshold to the value and
    keeps the Jacobian row, it does not zero them. *)
Lemma applyComparison_Inferior_above_keeps_row :
  (- (1 # 2) < 1)%Q /\
  applyComparison true [ Inferior ] [ 0%nat ] [ 1%Q ] [ [ 1%Q ] ] (1 # 2)
  = ([ (1 + (1 # 2))%Q ], [ [ 1%Q ] ]) /\
  ~ (nth 0 (fst (applyComparison true [ Inferior ] [ 0%nat ] [ 1%Q ]
                                 [ [ 1%Q ] ] (1 # 2))) 0 == 0)%Q /\
  nth 0 (snd (applyComparison true [ Inferior ] [ 0%nat ] [ 1%Q ]
                              [ [ 1%Q ] ] (1 # 2))) [] <> [ 0%Q ].
Proof.
  repeat split.
  - vm_compute. discriminate.
  - vm_compute. discriminate.
Qed.

(** The loop of [applyComparison] at a row of the index list whose
    comparison type is [Inferior], from any intermediate state. *)
Lemma applyComparison_loop_Inferior cj comparison thr indices :
  forall st j,
  NoDup indices -> In j indices ->
  nth_error comparison j = Some Inferior ->
  (j < length (fst st))%nat -> (j < length (snd st))%nat ->
  let v := nth j (fst st) 0%Q in
  let r := fold_left (applyComparison_step cj comparison thr) indices st in
  ((- thr < v)%Q ->
   nth j (fst r) 0%Q = (v + thr)%Q /\ nth j (snd r) [] = nth j (snd st) [])
  /\
  (~ (- thr < v)%Q ->
   nth j (fst r) 0%Q = 0%Q /\
   nth j (snd r) [] = if cj then Dense.setZero (nth j (snd st) [])
                      else nth j (snd st) []).
Proof.
  induction indices as [ | i indices IH ]; intros st j Hnd Hin Hcmp Hv Hj;
    [ destruct Hin | ].
  apply NoDup_cons_iff in Hnd. destruct Hnd as [Hni Hnd]. simpl fold_left.
  destruct (Nat.eq_dec i j) as [-> | Hij].
  - (* the row is compared now and never again *)
    destruct (applyComparison_other cj comparison thr indices
                (applyComparison_step cj comparison thr st j) j Hni)
      as [E1 E2].
    cbv zeta. rewrite E1, E2. clear E1 E2 IH.
    destruct st as [value jacobian]. simpl fst in *. simpl snd in *.
    unfold applyComparison_step. rewrite Hcmp. unfold compare. simpl.
    destruct (Qltb (- thr) (nth j value 0%Q)) eqn:E; simpl;
      rewrite !nth_upd_eq by assumption.
    + apply Qltb_lt in E. split; [ auto | intros H; contradiction ].
    + apply Qltb_nlt in E. split; [ intros H; contradiction | auto ].
  - destruct Hin as [-> | Hin]; [ congruence | ].
    destruct (applyComparison_step_other cj comparison thr st i j Hij)
      as [E1 E2].
    destruct (applyComparison_step_length cj comparison thr st i)
      as [L1 L2].
    specialize (IH (applyComparison_step cj comparison thr st i) j
                   Hnd Hin Hcmp).
    rewrite L1, L2 in IH. specialize (IH Hv Hj). cbv zeta in IH |- *.
    rewrite E1, E2 in IH. exact IH.
Qed.

(** C2 (amended): for every row [j] of the index list whose comparison type
    is [Inferior]: if [-thr < v], the value becomes [v + thr] and the
    Jacobian row is kept; otherwise the value is set to 0 and the Jacobian
    row is zeroed (when the Jacobian is computed). *)
Theorem applyComparison_Inferior cj comparison indices value jacobian thr j :
  NoDup indices -> In j indices ->
  nth_error comparison j = Some Inferior ->
  (j < length value)%nat -> (j < length jacobian)%nat ->
  let v := nth j value 0%Q in
  let r := applyComparison cj comparison indices value jacobian thr in
  ((- thr < v)%Q ->
   nth j (fst r) 0%Q = (v + thr)%Q /\ nth j (snd r) [] = nth j jacobian [])
  /\
  (~ (- thr < v)%Q ->
   nth j (fst r) 0%Q = 0%Q /\
   nth j (snd r) [] = if cj then Dense.setZero (nth j jacobian [])
                      else nth j jacobian []).
Proof.
  intros Hnd Hin Hcmp Hv Hj.
  exact (applyComparison_loop_Inferior cj comparison thr indices
           (value, jacobian) j Hnd Hin Hcmp Hv Hj).
Qed.

Lemma applyComparison_Inferior_witness :
  let r := applyComparison true [ Equality ; Inferior ] [ 1%nat ]
                           [ 3%Q ; 1%Q ] [ [ 1%Q ] ; [ 2%Q ] ] (1 # 2) in
  ((- (1 # 2) < 1)%Q ->
   nth 1 (fst r) 0%Q = (1 + (1 # 2))%Q /\ nth 1 (snd r) [] = [ 2%Q ])
  /\
  (~ (- (1 # 2) < 1)%Q ->
   nth 1 (fst r) 0%Q = 0%Q /\ nth 1 (snd r) [] = Dense.setZero [ 2%Q ]).
Proof.
  apply (applyComparison_Inferior true [ Equality ; Inferior ] [ 1%nat ]
           [ 3%Q ; 1%Q ] [ [ 1%Q ] ; [ 2%Q ] ] (1 # 2) 1%nat).
  - repeat constructor. simpl. tauto.
  - simpl. tauto.
  - reflexivity.
  - simpl. lia.
  - simpl. lia.
Defined.

(* ================================================================== *)
(** * Saturation                                                       *)
(* ================================================================== *)

Import saturation.

(** What [clamp] returns, by cases on the position of [v]. *)
Lemma clamp_cases (l u v : Q) :
  ((v <= l)%Q /\ clamp l u v = (true, l, -1)) \/
  ((l < v)%Q /\ (u <= v)%Q /\ clamp l u v = (true, u, 1)) \/
  ((l < v)%Q /\ (v < u)%Q /\ clamp l u v = (false, v, 0)).
Proof.
  unfold clamp.
  destruct (Qle_bool v l) eqn:E1.
  - left. apply Qle_bool_iff in E1. auto.
  - assert (l < v)%Q as Hl.
    { apply Qnot_le_lt. intros H. apply Qle_bool_iff in H. congruence. }
    destruct (Qle_bool u v) eqn:E2.
    + right; left. apply Qle_bool_iff in E2. auto.
    + right; right. repeat split; auto.
      apply Qnot_le_lt. intros H. apply Qle_bool_iff in H. congruence.
Qed.

(** The flag of [clamp] is raised exactly when the sign is not 0. *)
Lemma clamp_flag_sign (l u v : Q) :
  fst (fst (clamp l u v)) = true <-> snd (clamp l u v) <> 0.
Proof.
  destruct (clamp_cases l u v) as [ [_ ->] | [ [_ [_ ->] ] | [_ [_ ->] ] ] ];
    simpl; split; intros H; try discriminate; try reflexivity; congruence.
Qed.

Ltac q_contra :=
  exfalso;
  match goal with
  | H1 : (?a < ?b)%Q, H2 : (?b <= ?a)%Q |- _ => exact (Qlt_not_le _ _ H1 H2)
  end.

(** [clamp] between ordered bounds. *)
Lemma clamp_spec (l u v : Q) :
  (l <= u)%Q ->
  (l <= snd (fst (clamp l u v)) <= u)%Q /\
  (snd (clamp l u v) = 0 <-> (l < v < u)%Q) /\
  ((v <= l)%Q -> snd (clamp l u v) = -1 /\ snd (fst (clamp l u v)) = l) /\
  ((l < v)%Q -> (u <= v)%Q ->
   snd (clamp l u v) = 1 /\ snd (fst (clamp l u v)) = u) /\
  ((l < v < u)%Q -> snd (fst (clamp l u v)) = v).
Proof.
  intros Hlu.
  destruct (clamp_cases l u v)
    as [ [H1 ->] | [ [H1 [H2 ->] ] | [H1 [H2 ->] ] ] ]; simpl;
    intuition (try discriminate; try q_contra;
               auto using Qle_refl, Qlt_le_weak).
Qed.

(** State of the loop of [Bounds::saturate] after the coordinates below [k]. *)
Lemma saturate_prefix (b : Bounds) (q qSat : list Q) (saturation : list Z) :
  forall k, (k <= length q)%nat ->
  (length q <= length qSat)%nat -> (length q <= length saturation)%nat ->
  let r := fold_left (saturate_step b q) (seq 0 k) (false, qSat, saturation) in
  length (snd (fst r)) = length qSat /\
  length (snd r) = length saturation /\
  fst (fst r)
  = existsb (fun i => fst (fst (clamp (nth i (lb b) 0%Q) (nth i (ub b) 0%Q)
                                      (nth i q 0%Q)))) (seq 0 k) /\
  (forall i, (i < k)%nat ->
     nth i (snd (fst r)) 0%Q
     = snd (fst (clamp (nth i (lb b) 0%Q) (nth i (ub b) 0%Q) (nth i q 0%Q)))
     /\ nth i (snd r) 0
        = snd (clamp (nth i (lb b) 0%Q) (nth i (ub b) 0%Q) (nth i q 0%Q))).
Proof.
  induction k as [ | k IH ]; intros Hk Hq Hs.
  - simpl. split; [ | split; [ | split ] ]; auto. intros i Hi; lia.
  - rewrite seq_S, fold_left_app. simpl Nat.add. cbv zeta.
    specialize (IH ltac:(lia) Hq Hs). cbv zeta in IH.
    destruct (fold_left (saturate_step b q) (seq 0 k)
                        (false, qSat, saturation)) as [ [sat qS] sg ].
    simpl fst in IH; simpl snd in IH.
    destruct IH as (L1 & L2 & Hsat & Hnth).
    simpl fold_left.
    destruct (clamp (nth k (lb b) 0%Q) (nth k (ub b) 0%Q) (nth k q 0%Q))
      as [ [r vsat] s ] eqn:Ec.
    simpl fst; simpl snd. rewrite !upd_length.
    split; [ | split; [ | split ] ]; auto.
    + rewrite existsb_app. simpl. rewrite Ec. simpl.
      rewrite <- Hsat. destruct r, sat; reflexivity.
    + intros i Hi. destruct (Nat.eq_dec i k) as [-> | Hik].
      * rewrite Ec. simpl. split; apply nth_upd_eq; lia.
      * rewrite !nth_upd_neq by congruence. apply Hnth. lia.
Qed.

(** C6: with [lb <= ub] coordinatewise, [Bounds::saturate] leaves every
    coordinate of [qSat] within its bounds, sets the sign of a coordinate to
    0 exactly when [lb < q < ub] there, to -1 when it clamps at the lower
    bound and to +1 when it clamps at the upper bound, and returns [true]
    exactly when some sign is not 0. *)
Theorem Bounds_saturate_spec (b : Bounds) (q qSat : list Q)
        (saturation : list Z) :
  (length q <= length qSat)%nat -> (length q <= length saturation)%nat ->
  (forall i, (i < length q)%nat -> (nth i (lb b) 0 <= nth i (ub b) 0)%Q) ->
  let r := Bounds_saturate b q qSat saturation in
  let sat := fst (fst r) in
  let qSat' := snd (fst r) in
  let sign := snd r in
  (forall i, (i < length q)%nat ->
     let l := nth i (lb b) 0%Q in
     let u := nth i (ub b) 0%Q in
     let v := nth i q 0%Q in
     (l <= nth i qSat' 0 <= u)%Q /\
     (nth i sign 0 = 0 <-> (l < v < u)%Q) /\
     ((v <= l)%Q -> nth i sign 0 = -1 /\ nth i qSat' 0%Q = l) /\
     ((l < v)%Q -> (u <= v)%Q -> nth i sign 0 = 1 /\ nth i qSat' 0%Q = u) /\
     ((l < v < u)%Q -> nth i qSat' 0%Q = v)) /\
  (sat = true <-> exists i, (i < length q)%nat /\ nth i sign 0 <> 0).
Proof.
  intros Hq Hs Hb. unfold Bounds_saturate. cbv zeta.
  destruct (saturate_prefix b q qSat saturation (length q) (le_n _) Hq Hs)
    as (_ & _ & Hsat & Hnth).
  split.
  - intros i Hi. destruct (Hnth i Hi) as [E1 E2]. cbv zeta. rewrite E1, E2.
    apply clamp_spec. apply Hb. exact Hi.
  - rewrite Hsat, existsb_exists. split.
    + intros (i & Hin & Hf). apply in_seq in Hin. exists i. split; [ lia | ].
      destruct (Hnth i ltac:(lia)) as [_ E2]. rewrite E2.
      apply clamp_flag_sign. exact Hf.
    + intros (i & Hi & Hne). exists i. split; [ apply in_seq; lia | ].
      destruct (Hnth i Hi) as [_ E2]. rewrite E2 in Hne.
      apply clamp_flag_sign. exact Hne.
Qed.

Lemma Bounds_saturate_spec_witness :
  let b := {| lb := [ 0 ; 0 ; 0 ]%Q; ub := [ 2 ; 2 ; 2 ]%Q |} in
  let q := [ - (1) ; 1 ; 5 ]%Q in
  let r := Bounds_saturate b q q [ 7 ; 7 ; 7 ] in
  let sat := fst (fst r) in
  let qSat' := snd (fst r) in
  let sign := snd r in
  (forall i, (i < length q)%nat ->
     let l := nth i (lb b) 0%Q in
     let u := nth i (ub b) 0%Q in
     let v := nth i q 0%Q in
     (l <= nth i qSat' 0 <= u)%Q /\
     (nth i sign 0 = 0 <-> (l < v < u)%Q) /\
     ((v <= l)%Q -> nth i sign 0 = -1 /\ nth i qSat' 0%Q = l) /\
     ((l < v)%Q -> (u <= v)%Q -> nth i sign 0 = 1 /\ nth i qSat' 0%Q = u) /\
     ((l < v < u)%Q -> nth i qSat' 0%Q = v)) /\
  (sat = true <-> exists i, (i < length q)%nat /\ nth i sign 0 <> 0).
Proof.
  apply (Bounds_saturate_spec
           {| lb := [ 0 ; 0 ; 0 ]%Q; ub := [ 2 ; 2 ; 2 ]%Q |}
           [ - (1) ; 1 ; 5 ]%Q [ - (1) ; 1 ; 5 ]%Q [ 7 ; 7 ; 7 ]).
  - simpl. lia.
  - simpl. lia.
  - intros i Hi. simpl in Hi.
    do 3 (destruct i as [ | i ]; [ vm_compute; discriminate | ]). lia.
Defined.

(** The run of [Bounds::saturate] on the configuration [(-1, 1, 5)] with
    bounds [[0, 2]] on every coordinate. *)
Example Bounds_saturate_run :
  Bounds_saturate {| lb := [ 0 ; 0 ; 0 ]%Q; ub := [ 2 ; 2 ; 2 ]%Q |}
                  [ - (1) ; 1 ; 5 ]%Q [ - (1) ; 1 ; 5 ]%Q [ 7 ; 7 ; 7 ]
  = (true, [ 0 ; 1 ; 2 ]%Q, [ -1 ; 0 ; 1 ]).
Proof. reflexivity. Qed.

(* ================================================================== *)
(** * The solver                                                       *)
(* ================================================================== *)

Import solver.

Section SolverFacts.

Context {Eigen : JacobiSVD}.
Variable function_eq : DifferentiableFunction -> DifferentiableFunction -> bool.

(** ** [add] *)

(** [m[f] = v] leaves the key [f] in the map. *)
Lemma map_set_In {T : Type} (f : DifferentiableFunctionPtr_t) (v : T) m :
  exists g, In (g, v) (map_set f v m) /\ address g = address f.
Proof.
  induction m as [ | [g w] m IH ]; simpl.
  - exists f. auto.
  - destruct (Nat.ltb (address f) (address g)); [ exists f; simpl; auto | ].
    destruct (Nat.eqb_spec (address f) (address g)) as [E | _].
    + exists g. simpl. auto.
    + destruct IH as (h & Hh & Ea). exists h. simpl. auto.
Qed.

(** C5: when the function of the constraint compares equal to a function
    recorded in the priority map (at whatever priority), [add] throws a
    logic error and leaves the solver as it was. *)
Theorem add_duplicate_throws (constraint : Implicit) (priority : nat)
        (s : HierarchicalIterative) :
  (exists g p, In (g, p) (priority_ s) /\
               function_eq (pointee g) (pointee (functionPtr constraint))
               = true) ->
  add function_eq constraint priority s
  = (inl (logic_error (already_in_solver (functionPtr constraint))), s).
Proof.
  intros (g & p & Hin & Heq).
  unfold add, bind, get, throw.
  assert (existsb (fun arg => function_eq (pointee (fst arg))
                                (pointee (functionPtr constraint)))
                  (priority_ s) = true) as ->.
  { apply existsb_exists. exists (g, p). auto. }
  reflexivity.
Qed.

(** ** [computeError] *)

(** When [end] is the number of levels, the loop stays within range. *)
Lemma computeError_loop_in_range stacks datas :
  forall i sq, length datas = length stacks ->
  exists sq', computeError_loop (i + Z.of_nat (length stacks)) i
                                stacks datas sq = Done sq'.
Proof.
  revert datas. induction stacks as [ | cs stacks IH ];
    intros [ | d datas ] i sq Hlen; simpl in Hlen; try discriminate.
  - simpl. rewrite Z.add_0_r, Z.ltb_irrefl. eauto.
  - cbn [computeError_loop length].
    replace (i + Z.of_nat (S (length stacks)))
      with ((i + 1) + Z.of_nat (length stacks)) by lia.
    destruct (Z.ltb_spec i (i + 1 + Z.of_nat (length stacks))); [ | lia ].
    apply IH. lia.
Qed.

(** Without the optional last level, [computeError] reads no level past
    the end. *)
Lemma computeError_in_range (s : HierarchicalIterative) :
  lastIsOptional_ s = false -> length (datas_ s) = length (stacks_ s) ->
  exists sq, computeError s = Done (set_squaredNorm_ sq s).
Proof.
  intros Hopt Hlen. unfold computeError. rewrite Hopt.
  destruct (computeError_loop_in_range (stacks_ s) (datas_ s) 0 0%Q Hlen)
    as (sq & E).
  simpl Z.add in E. rewrite E. eauto.
Qed.

(** C9: on a solver without any constraint whose last level has been
    declared optional, the bound [stacks_.size () - 1] wraps around to
    [2^64 - 1] and the loop of [computeError] reads level 0, which does not
    exist. *)
Theorem computeError_optional_without_level (nq nv : Z) :
  let s := set_lastIsOptional_ true (HierarchicalIterative_new nq nv) in
  length (stacks_ s) = 0%nat /\
  size_t_sub (Z.of_nat (length (stacks_ s))) 1 = 2 ^ 64 - 1 /\
  computeError s = OutOfRange 0.
Proof.
  repeat split.
Qed.

(** ** [computeDescentDirection]: what a call does to the levels *)

Lemma factorisation_only_refl (d : Data) : factorisation_only d d.
Proof. destruct d. reflexivity. Qed.

Lemma Forall2_diag {A : Type} (R : A -> A -> Prop) (l : list A) :
  (forall x, R x x) -> Forall2 R l l.
Proof. intros HR. induction l; constructor; auto. Qed.

(** The matrix a turn of the loop factors: the reduced Jacobian of the
    level, or its product with the projector; the former at level 0. *)
Lemma level_factor_matrix i d dqSmall projector err svd' dqSmall' :
  level_factor i d dqSmall projector = (err, svd', dqSmall') ->
  exists M,
    (M = reducedJ d \/ exists P, M = Dense.mat_mul (reducedJ d) P) /\
    (i = 0%nat -> M = reducedJ d) /\
    svd' = svd_compute (svd_ThinV d) M.
Proof.
  unfold level_factor. destruct (Nat.eqb_spec i 0) as [-> | Hi].
  - intros E. inversion E; subst. exists (reducedJ d). auto.
  - destruct projector as [ P | ]; intros E; inversion E; subst.
    + exists (Dense.mat_mul (reducedJ d) P).
      split; [ right; eauto | split; [ intros; contradiction | reflexivity ] ].
    + exists (reducedJ d). auto.
Qed.

(** The end of a turn writes the projector [PK] of the level at most. *)
Lemma level_next_data sbl thr n i err svd' d1 projector d' projector' stop :
  level_next sbl thr n i err svd' d1 projector = (d', projector', stop) ->
  d' = d1 \/ exists PK', d' = set_PK PK' d1.
Proof.
  unfold level_next.
  destruct (sbl && Qltb thr (Dense.squaredNorm err));
    [ | destruct (Nat.eqb i (n - 1));
        [ | destruct (Dense.cols (svd_matrixV svd') =? svd_rank svd') ] ];
    intros E; inversion E; subst; eauto.
Qed.

(** What a turn of the loop leaves in the level. *)
Lemma level_turn_spec sbl thr n i d dqSmall projector d' dqSmall' projector'
      stop :
  level_turn sbl thr n i d dqSmall projector
  = (d', dqSmall', projector', stop) ->
  factorisation_only d d' /\
  exists M,
    (M = reducedJ d \/ exists P, M = Dense.mat_mul (reducedJ d) P) /\
    (i = 0%nat -> M = reducedJ d) /\
    svd d' = Some (svd_compute (svd_ThinV d) M) /\
    maxRank d' = Z.max (maxRank d) (svd_rank (svd_compute (svd_ThinV d) M)).
Proof.
  unfold level_turn.
  destruct (level_factor i d dqSmall projector) as [ [err svd'] dq1 ] eqn:EF.
  destruct (level_next _ _ _ _ _ _ _ _) as [ [d1 p1] stop1 ] eqn:EN.
  intros E. inversion E; subst. clear E.
  apply level_next_data in EN.
  apply level_factor_matrix in EF. destruct EF as (M & HM & H0 & ->).
  split.
  - destruct EN as [-> | (PK' & ->) ]; destruct d; reflexivity.
  - exists M. split; [ exact HM | split; [ exact H0 | ] ].
    destruct EN as [-> | (PK' & ->) ]; split; reflexivity.
Qed.

(** The update of [sigma_] in terms of what the level contributes. *)
Lemma update_sigma_level_sigma sigma d r :
  svd d = Some r ->
  update_sigma sigma (maxRank d) r
  = match level_sigma d with
    | Done (Some x) => Done (Qmin sigma x)
    | Done None => Done sigma
    | OutOfRange k => OutOfRange k
    end.
Proof.
  intros E. unfold update_sigma, level_sigma. rewrite E.
  destruct (maxRank d >? 0); [ | reflexivity ].
  destruct (nth_error _ _); reflexivity.
Qed.

(** The body of the loop is the turn of the level and the read of its
    singular value. *)
Lemma level_body_turn sbl thr n i d st :
  level_body sbl thr n i d st
  = let '(d', dqSmall', projector', stop) :=
      level_turn sbl thr n i d (l_dqSmall st) (l_projector st) in
    match level_sigma d' with
    | Done c =>
        Done (d',
              {| l_dqSmall := dqSmall';
                 l_sigma := match c with
                            | Some x => Qmin (l_sigma st) x
                            | None => l_sigma st
                            end;
                 l_projector := projector' |},
              stop)
    | OutOfRange k => OutOfRange k
    end.
Proof.
  unfold level_body, level_turn.
  destruct (level_factor i d (l_dqSmall st) (l_projector st))
    as [ [err svd'] dq1 ].
  destruct (level_next _ _ _ _ _ _ _ _) as [ [d1 p1] stop1 ] eqn:EN.
  apply level_next_data in EN.
  assert (svd d1 = Some svd' /\
          maxRank d1 = Z.max (maxRank d) (svd_rank svd')) as [Es Em]
    by (destruct EN as [-> | (PK' & ->) ]; split; reflexivity).
  rewrite <- Em, (update_sigma_level_sigma _ _ _ Es).
  destruct (level_sigma d1) as [ [ x | ] | k ]; reflexivity.
Qed.

Lemma levels_loop_rel sbl thr n datas :
  forall i st ds st',
  levels_loop sbl thr n i datas st = Done (ds, st') ->
  Forall2 (fun d d' => turn_rel d d' /\
                       (Dense.rows (reducedJ d) = 0 -> d' = d)) datas ds.
Proof.
  assert (forall d, turn_rel d d) as Hrefl
    by (intros d; split; [ left; reflexivity | apply factorisation_only_refl ]).
  induction datas as [ | d datas IH ]; intros i st ds st' H; simpl in H.
  - destruct (i <? n)%nat; inversion H. constructor.
  - destruct (Z.eqb_spec (Dense.rows (reducedJ d)) 0) as [Hz | Hnz].
    + destruct (levels_loop sbl thr n (S i) datas st) as [ [ds0 st0] | k ]
        eqn:E; inversion H; subst.
      constructor; [ auto | eapply IH; eassumption ].
    + rewrite level_body_turn in H.
      destruct (level_turn _ _ _ _ _ _ _) as [ [ [d' dq'] p' ] stop ] eqn:ET.
      destruct (level_sigma d') as [ c | k ]; [ | discriminate ].
      apply level_turn_spec in ET.
      destruct ET as (Hf & M & HM & _ & Hs & Hm).
      assert (turn_rel d d' /\ (Dense.rows (reducedJ d) = 0 -> d' = d)) as Hd.
      { split; [ split; [ right; exists M; auto | exact Hf ] | ].
        intros; contradiction. }
      destruct stop.
      * inversion H; subst. constructor; [ exact Hd | ].
        apply Forall2_diag. auto.
      * destruct (levels_loop sbl thr n (S i) datas _) as [ [ds0 st0] | k ]
          eqn:E; inversion H; subst.
        constructor; [ exact Hd | eapply IH; eassumption ].
Qed.

(** What a call that completes leaves: the levels related one by one, and
    the other members. *)
Lemma computeDescentDirection_Done (s s' : HierarchicalIterative) :
  computeDescentDirection s = Done s' ->
  exists ds dqSmall sigma dq,
    s' = set_dq_ dq
           (set_sigma_ sigma (set_dqSmall_ dqSmall (set_datas_ ds s))) /\
    Forall2 turn_rel (datas_ s) ds /\
    (stacks_ s = [] -> dq = Dense.setZero (dq_ s) /\ dqSmall = dqSmall_ s) /\
    (stacks_ s <> [] ->
     dq = MatrixBlocks.assign (freeVariables_ s) dqSmall (dq_ s)) /\
    ((1 < length (stacks_ s))%nat ->
     Forall2 (fun d d' => Dense.rows (reducedJ d) = 0 -> d' = d)
             (datas_ s) ds).
Proof.
  assert (forall d, turn_rel d d) as Hrefl
    by (intros d; split; [ left; reflexivity | apply factorisation_only_refl ]).
  destruct s as [ ? ? ? stacks ? ? ? ? ? ? ? ? ? ? ? ? ? ? datas ].
  unfold computeDescentDirection. simpl.
  destruct stacks as [ | cs [ | cs' stacks ] ].
  - intros E. inversion E; subst. clear E.
    eexists datas, _, _, _. split; [ reflexivity | ].
    split; [ apply Forall2_diag; auto | ].
    split; [ auto | split; [ intros C; contradiction | simpl; lia ] ].
  - destruct datas as [ | d datas ]; [ discriminate | ].
    unfold one_level.
    set (svd' := svd_compute (svd_ThinV d) (reducedJ d)).
    destruct (update_sigma _ _ _) as [ sigma | k ]; [ | discriminate ].
    intros E. inversion E; subst. clear E.
    eexists (_ :: datas), _, _, _. split; [ reflexivity | ].
    split; [ | split; [ discriminate | split; [ reflexivity | simpl; lia ] ] ].
    constructor; [ | apply Forall2_diag; auto ].
    split; [ | destruct d; reflexivity ].
    right. exists (reducedJ d). auto.
  - set (n := S (S (length stacks))).
    destruct (levels_loop _ _ _ _ _ _) as [ [ds st] | k ] eqn:EL;
      [ | discriminate ].
    intros E. inversion E; subst. clear E.
    apply levels_loop_rel in EL.
    eexists (ds ++ skipn n datas), _, _, _. split; [ reflexivity | ].
    assert (Forall2 (fun d d' => turn_rel d d' /\
                                 (Dense.rows (reducedJ d) = 0 -> d' = d))
                    datas (ds ++ skipn n datas)) as HF.
    { rewrite <- (firstn_skipn n datas) at 1.
      apply Forall2_app; [ exact EL | apply Forall2_diag; auto ]. }
    split; [ | split; [ discriminate | split; [ reflexivity | ] ] ].
    + eapply Forall2_impl; [ | exact HF ]. simpl. tauto.
    + intros _. eapply Forall2_impl; [ | exact HF ]. simpl. tauto.
Qed.

Lemma computeDescentDirection_stacks (s s' : HierarchicalIterative) :
  computeDescentDirection s = Done s' ->
  stacks_ s' = stacks_ s /\ length (datas_ s') = length (datas_ s) /\
  freeVariables_ s' = freeVariables_ s.
Proof.
  intros H. apply computeDescentDirection_Done in H.
  destruct H as (ds & dqSmall & sigma & dq & -> & HF & _).
  apply Forall2_length in HF. simpl. auto.
Qed.
(** ** [maxRank] across the iterations of a solve *)

Lemma level_rel_rank_bounded (d d' : Data) :
  rank_bounded d -> level_rel d d' -> rank_bounded d'.
Proof.
  intros Hd [-> | (M & _ & E1 & E2) ]; [ exact Hd | ].
  unfold rank_bounded. rewrite E1, E2. lia.
Qed.

Lemma Forall2_turn_rel_rank_bounded (l l' : list Data) :
  Forall2 turn_rel l l' -> Forall rank_bounded l -> Forall rank_bounded l'.
Proof.
  induction 1 as [ | d d' l l' [Hr _] _ IH ]; intros Hl; constructor;
    inversion Hl; subst; eauto using level_rel_rank_bounded.
Qed.

Lemma Forall2_nth_error {A B : Type} (R : A -> B -> Prop) (l : list A)
      (l' : list B) :
  Forall2 R l l' ->
  forall k x, nth_error l k = Some x ->
  exists y, nth_error l' k = Some y /\ R x y.
Proof.
  induction 1 as [ | a b l l' Hab _ IH ]; intros [ | k ] x Hk; simpl in Hk;
    try discriminate.
  - inversion Hk; subst. exists b. auto.
  - apply IH. exact Hk.
Qed.

(** Storing new values keeps the decomposition and [maxRank] of a level. *)
Lemma store_levels_same values :
  forall datas,
  Forall2 (fun d d1 => svd d1 = svd d /\ maxRank d1 = maxRank d)
          datas (store_levels values datas).
Proof.
  assert (forall l : list Data,
            Forall2 (fun d d1 => svd d1 = svd d /\ maxRank d1 = maxRank d) l l)
    as Hrefl by (induction l; constructor; auto).
  induction values as [ | [e j] values IH ]; intros [ | d datas ]; simpl;
    auto.
Qed.

Lemma store_levels_rank_bounded (l l1 : list Data) :
  Forall2 (fun d d1 => svd d1 = svd d /\ maxRank d1 = maxRank d) l l1 ->
  Forall rank_bounded l -> Forall rank_bounded l1.
Proof.
  induction 1 as [ | d d1 l l1 [E1 E2] _ IH ]; intros F; constructor;
    inversion F; subst; auto.
  unfold rank_bounded in *. rewrite E1, E2. assumption.
Qed.

Lemma update_levels_fresh freeVariables n stacks :
  forall i datas, length datas = length stacks ->
  length (update_levels freeVariables n i stacks datas) = length stacks /\
  Forall (fun d => svd d = None /\ maxRank d = 0)
         (update_levels freeVariables n i stacks datas).
Proof.
  induction stacks as [ | cs stacks IH ]; intros i [ | d datas ] Hlen;
    simpl in Hlen; try discriminate; simpl.
  - auto.
  - destruct (IH (S i) datas ltac:(lia)) as [L F].
    split; [ lia | constructor; auto ].
Qed.

(** The invariant of the iterations that follow an [update]. *)
Lemma iterations_invariant (s0 s : HierarchicalIterative) :
  length (datas_ s0) = length (stacks_ s0) ->
  iterations (update s0) s ->
  length (datas_ s) = length (stacks_ s) /\ Forall rank_bounded (datas_ s).
Proof.
  intros Hlen It. induction It as [ | s' s'' values sq It [L F] HD ].
  - destruct (update_levels_fresh (freeVariables_ s0) (length (stacks_ s0))
                (stacks_ s0) 0 (datas_ s0) Hlen) as [L F].
    simpl. split; [ exact L | ].
    eapply Forall_impl; [ | exact F ].
    intros d [E _]. unfold rank_bounded. rewrite E. exact I.
  - pose proof (store_levels_same values (datas_ s')) as S.
    destruct (computeDescentDirection_stacks _ _ HD) as (Es & El & _).
    apply computeDescentDirection_Done in HD.
    destruct HD as (ds & dqSmall & sigma & dq & -> & HF & _).
    simpl in *. split.
    + rewrite El, <- (Forall2_length S). exact L.
    + apply (Forall2_turn_rel_rank_bounded _ _ HF).
      exact (store_levels_rank_bounded _ _ S F).
Qed.

(** The first level is factored by every call on a solver with one level,
    and by every call on a solver with several when its reduced Jacobian
    has rows: the matrix factored is the reduced Jacobian itself. *)
Lemma computeDescentDirection_first_level (s s' : HierarchicalIterative)
      (d : Data) :
  computeDescentDirection s = Done s' ->
  nth_error (datas_ s) 0 = Some d ->
  length (stacks_ s) = 1%nat
  \/ (1 < length (stacks_ s))%nat /\ Dense.rows (reducedJ d) <> 0 ->
  exists d',
    nth_error (datas_ s') 0 = Some d' /\
    svd d' = Some (svd_compute (svd_ThinV d) (reducedJ d)) /\
    maxRank d'
    = Z.max (maxRank d) (svd_rank (svd_compute (svd_ThinV d) (reducedJ d))).
Proof.
  destruct s as [ ? ? ? stacks ? ? ? ? ? ? ? ? ? ? ? ? ? ? datas ].
  unfold computeDescentDirection. simpl.
  intros HD Hd Hc.
  destruct datas as [ | d0 datas ]; [ discriminate | ].
  simpl in Hd. inversion Hd; subst d0. clear Hd.
  destruct stacks as [ | cs [ | cs' stacks ] ].
  - simpl in Hc. lia.
  - unfold one_level in HD.
    destruct (update_sigma _ _ _) as [ sigma | k ]; [ | discriminate ].
    inversion HD; subst. simpl. eexists. split; [ reflexivity | ]. auto.
  - destruct Hc as [Hc | [_ Hnz] ]; [ simpl in Hc; lia | ].
    cbn [length firstn levels_loop] in HD.
    destruct (Z.eqb_spec (Dense.rows (reducedJ d)) 0) as [E | _];
      [ contradiction | ].
    rewrite level_body_turn in HD.
    destruct (level_turn _ _ _ _ _ _ _) as [ [ [d' dq'] p' ] stop ] eqn:ET.
    destruct (level_sigma d') as [ c | k ]; [ | discriminate ].
    apply level_turn_spec in ET.
    destruct ET as (_ & M & _ & H0 & Hs & Hm).
    rewrite (H0 eq_refl) in Hs, Hm.
    destruct stop.
    + inversion HD; subst. simpl. eexists. split; [ reflexivity | ]. auto.
    + destruct (levels_loop _ _ _ _ _ _) as [ [ds0 st0] | k ];
        [ | discriminate ].
      inversion HD; subst. simpl. eexists. split; [ reflexivity | ]. auto.
Qed.

(** C7: in the iterations that follow an [update], a call of
    [computeDescentDirection] that completes never lowers the [maxRank] of
    a level.  A level is either left as it is, or it is factored in this
    call (its reduced Jacobian, or the product of its reduced Jacobian and
    a projector) and its [maxRank] becomes the maximum of its value before
    the call and of the rank found; in both cases [maxRank] is the maximum
    of its previous value and of the rank of the decomposition the level
    holds.  The first level is factored in every call (when the solver has
    several levels, provided its reduced Jacobian has rows), and with
    several levels a level whose reduced Jacobian has no row is left as it
    is. *)
Theorem maxRank_non_decreasing (s0 s s' : HierarchicalIterative)
        (values : list (list Q * list (list Q))) (squaredNorm : Q)
        (k : nat) (d : Data) :
  length (datas_ s0) = length (stacks_ s0) ->
  iterations (update s0) s ->
  computeDescentDirection (evaluate values squaredNorm s) = Done s' ->
  nth_error (datas_ (evaluate values squaredNorm s)) k = Some d ->
  exists d',
    nth_error (datas_ s') k = Some d' /\
    maxRank d <= maxRank d' /\
    level_rel d d' /\
    match svd d' with
    | Some r => maxRank d' = Z.max (maxRank d) (svd_rank r)
    | None => maxRank d' = maxRank d
    end /\
    ((1 < length (stacks_ s))%nat -> Dense.rows (reducedJ d) = 0 ->
     d' = d) /\
    (k = 0%nat ->
     length (stacks_ s) = 1%nat
     \/ (1 < length (stacks_ s))%nat /\ Dense.rows (reducedJ d) <> 0 ->
     svd d' = Some (svd_compute (svd_ThinV d) (reducedJ d)) /\
     maxRank d'
     = Z.max (maxRank d)
             (svd_rank (svd_compute (svd_ThinV d) (reducedJ d)))).
Proof.
  intros Hlen It HD Hk.
  destruct (iterations_invariant s0 s Hlen It) as [_ F].
  pose proof (store_levels_same values (datas_ s)) as S.
  assert (rank_bounded d) as Hd.
  { pose proof (store_levels_rank_bounded _ _ S F) as F1.
    rewrite Forall_forall in F1. apply F1.
    eapply nth_error_In. exact Hk. }
  pose proof (computeDescentDirection_first_level _ _ d HD) as Hfirst.
  apply computeDescentDirection_Done in HD.
  destruct HD as (ds & dqSmall & sigma & dq & -> & HF & _ & _ & Hskip).
  destruct (Forall2_nth_error _ _ _ HF k d Hk) as (d' & Hk' & [Hr _]).
  exists d'. simpl datas_. split; [ exact Hk' | ].
  assert (match svd d' with
          | Some r => maxRank d' = Z.max (maxRank d) (svd_rank r)
          | None => maxRank d' = maxRank d
          end) as Hmax.
  { unfold rank_bounded in Hd.
    destruct Hr as [-> | (M & _ & H1 & H2) ].
    - destruct (svd d); lia.
    - rewrite H1. exact H2. }
  split; [ destruct (svd d'); lia | ].
  split; [ exact Hr | split; [ exact Hmax | split ] ].
  - intros Hn Hz. specialize (Hskip Hn).
    destruct (Forall2_nth_error _ _ _ Hskip k d Hk) as (d2 & Hk2 & Hd2).
    rewrite Hk' in Hk2. inversion Hk2; subst d2. auto.
  - intros -> Hc. destruct (Hfirst Hk Hc) as (d2 & Hk2 & Hd2).
    simpl datas_ in Hk2. rewrite Hk' in Hk2. inversion Hk2; subst d2.
    exact Hd2.
Qed.
(** ** [sigma_] *)

(** The loop over the levels completes exactly when every singular value
    it reads exists, and then leaves in [sigma_] the minimum of the values
    read. *)
Lemma levels_loop_sigma sbl thr n datas :
  forall i st, (n <= i + length datas)%nat ->
  match min_sigma (l_sigma st)
                  (factored_loop sbl thr n i datas (l_dqSmall st)
                                 (l_projector st)) with
  | Done x =>
      exists ds st',
        levels_loop sbl thr n i datas st = Done (ds, st') /\
        l_sigma st' = x /\
        forall k d',
          In (k, d') (factored_loop sbl thr n i datas (l_dqSmall st)
                                    (l_projector st)) ->
          (i <= k)%nat /\ nth_error ds (k - i) = Some d'
  | OutOfRange k => levels_loop sbl thr n i datas st = OutOfRange k
  end.
Proof.
  induction datas as [ | d datas IH ]; intros i st Hn; simpl.
  - simpl in Hn. destruct (Nat.ltb_spec i n); [ lia | ].
    exists [], st. split; [ reflexivity | split; [ reflexivity | ] ].
    intros k d' [].
  - simpl in Hn. destruct (Dense.rows (reducedJ d) =? 0).
    + specialize (IH (S i) st ltac:(lia)).
      destruct (min_sigma _ _) as [ x | k ].
      * destruct IH as (ds & st' & E & Hs & Hin). rewrite E.
        exists (d :: ds), st'. split; [ reflexivity | split; [ exact Hs | ] ].
        intros k d' Hk. destruct (Hin k d' Hk) as [Hle Hnth].
        split; [ lia | ].
        replace (k - i)%nat with (S (k - S i)) by lia. exact Hnth.
      * rewrite IH. reflexivity.
    + rewrite level_body_turn.
      destruct (level_turn _ _ _ _ _ _ _) as [ [ [d' dq'] p' ] stop ].
      simpl min_sigma.
      destruct (level_sigma d') as [ c | k ]; [ | reflexivity ].
      set (st1 := {| l_dqSmall := dq';
                     l_sigma := match c with
                                | Some x => Qmin (l_sigma st) x
                                | None => l_sigma st
                                end;
                     l_projector := p' |}).
      assert (forall levels,
                match c with
                | Some x => min_sigma (Qmin (l_sigma st) x) levels
                | None => min_sigma (l_sigma st) levels
                end = min_sigma (l_sigma st1) levels) as ->
        by (intros levels; destruct c; reflexivity).
      destruct stop.
      * simpl. exists (d' :: datas), st1.
        split; [ reflexivity | split; [ reflexivity | ] ].
        intros k d'' [Hk | [] ]. inversion Hk; subst.
        rewrite Nat.sub_diag. auto.
      * specialize (IH (S i) st1 ltac:(lia)). simpl in IH.
        destruct (min_sigma _ _) as [ x | k ].
        -- destruct IH as (ds & st' & E & Hs & Hin). rewrite E.
           exists (d' :: ds), st'.
           split; [ reflexivity | split; [ exact Hs | ] ].
           intros k d'' [Hk | Hk].
           ++ inversion Hk; subst. rewrite Nat.sub_diag. auto.
           ++ destruct (Hin k d'' Hk) as [Hle Hnth]. split; [ lia | ].
              replace (k - i)%nat with (S (k - S i)) by lia. exact Hnth.
        -- rewrite IH. reflexivity.
Qed.

Lemma min_sigma_le (levels : list (nat * Data)) :
  forall sigma m,
  min_sigma sigma levels = Done m ->
  (m <= sigma)%Q /\
  forall k d x, In (k, d) levels -> level_sigma d = Done (Some x) ->
                (m <= x)%Q.
Proof.
  induction levels as [ | [k0 d0] levels IH ]; intros sigma m H; simpl in H.
  - inversion H; subst. split; [ apply Qle_refl | intros k d x [] ].
  - destruct (level_sigma d0) as [ [ x0 | ] | ] eqn:E0; [ | | discriminate ].
    + destruct (IH _ _ H) as [Hle Hin]. split.
      * eapply Qle_trans; [ exact Hle | apply Q.le_min_l ].
      * intros k d x [Hk | Hk] Hx.
        -- inversion Hk; subst. rewrite E0 in Hx. inversion Hx; subst.
           eapply Qle_trans; [ exact Hle | apply Q.le_min_r ].
        -- eapply Hin; eassumption.
    + destruct (IH _ _ H) as [Hle Hin]. split; [ exact Hle | ].
      intros k d x [Hk | Hk] Hx.
      * inversion Hk; subst. rewrite E0 in Hx. discriminate.
      * eapply Hin; eassumption.
Qed.

(** The call in terms of the levels it factors. *)
Lemma computeDescentDirection_sigma (s : HierarchicalIterative) :
  (length (stacks_ s) <= length (datas_ s))%nat ->
  match min_sigma value_max (factored s) with
  | Done x =>
      exists s',
        computeDescentDirection s = Done s' /\ sigma_ s' = x /\
        forall k d', In (k, d') (factored s) ->
                     nth_error (datas_ s') k = Some d'
  | OutOfRange k => computeDescentDirection s = OutOfRange k
  end.
Proof.
  intros Hlen. unfold computeDescentDirection, factored.
  simpl stacks_. simpl datas_. simpl sigma_. simpl dqSmall_.
  simpl solveLevelByLevel_. simpl squaredErrorThreshold_.
  destruct (stacks_ s) as [ | cs [ | cs' stacks ] ] eqn:Es.
  - simpl. eexists. split; [ reflexivity | split; [ reflexivity | ] ].
    intros k d' [].
  - destruct (datas_ s) as [ | d datas ] eqn:Ed; [ simpl in Hlen; lia | ].
    unfold one_level.
    set (d1 := set_maxRank _ (set_svd _ d)).
    change (Z.max (maxRank d)
                  (svd_rank (svd_compute (svd_ThinV d) (reducedJ d))))
      with (maxRank d1).
    rewrite (update_sigma_level_sigma value_max d1 _ eq_refl).
    simpl min_sigma.
    destruct (level_sigma d1) as [ [ x | ] | k ]; [ | | reflexivity ];
      (eexists; split; [ reflexivity | split; [ reflexivity | ] ];
       intros k d' [Hk | [] ]; inversion Hk; subst; reflexivity).
  - set (n := length (cs :: cs' :: stacks)) in *.
    pose proof (levels_loop_sigma (solveLevelByLevel_ s)
                  (squaredErrorThreshold_ s) n (firstn n (datas_ s)) 0
                  {| l_dqSmall := dqSmall_ s; l_sigma := value_max;
                     l_projector := None |}) as H.
    cbn [l_sigma l_dqSmall l_projector] in H.
    rewrite length_firstn in H.
    specialize (H ltac:(lia)).
    destruct (min_sigma _ _) as [ x | k ].
    + destruct H as (ds & st' & E & Hs & Hin). rewrite E.
      eexists. split; [ reflexivity | split; [ exact Hs | ] ].
      intros k d' Hk. simpl datas_. destruct (Hin k d' Hk) as [_ Hnth].
      rewrite Nat.sub_0_r in Hnth.
      rewrite nth_error_app1; [ exact Hnth | ].
      apply nth_error_Some. congruence.
    + rewrite H. reflexivity.
Qed.

(** C1 (amended): [sigma_] is set to the largest double at the start of
    every call of [computeDescentDirection], so the value it held before
    does not enter.  When every singular value the call reads exists, the
    call completes and leaves in [sigma_] the minimum of the largest double
    and, over the levels factored in this call, of the singular value of
    index [maxRank - 1] of the decomposition of the level; the levels
    listed are the levels the solver holds after the call.  When a level
    has fewer singular values than its [maxRank], the read is past their
    end and the call has no defined result. *)
Theorem sigma_min_of_current_call (s : HierarchicalIterative) :
  (length (stacks_ s) <= length (datas_ s))%nat ->
  (forall x, computeDescentDirection (set_sigma_ x s)
             = computeDescentDirection s) /\
  (forall sigma,
     min_sigma value_max (factored s) = Done sigma ->
     exists s',
       computeDescentDirection s = Done s' /\ sigma_ s' = sigma /\
       (forall k d', In (k, d') (factored s) ->
                     nth_error (datas_ s') k = Some d') /\
       (sigma <= value_max)%Q /\
       (forall k d' x, In (k, d') (factored s) ->
                       level_sigma d' = Done (Some x) -> (sigma <= x)%Q)) /\
  (forall k,
     min_sigma value_max (factored s) = OutOfRange k ->
     computeDescentDirection s = OutOfRange k).
Proof.
  intros Hlen. pose proof (computeDescentDirection_sigma s Hlen) as H.
  split; [ intros x; reflexivity | split ].
  - intros sigma E. rewrite E in H. destruct H as (s' & HD & Hs & Hin).
    exists s'. split; [ exact HD | split; [ exact Hs | ] ].
    split; [ exact Hin | ]. exact (min_sigma_le _ _ _ E).
  - intros k E. rewrite E in H. exact H.
Qed.

(** ** The step [dq_] *)

Section Assign.

Context {A : Type}.

Lemma writes_length (l : list (nat * A)) :
  forall dst, length (fold_left MatrixBlocks.write l dst) = length dst.
Proof.
  induction l as [ | [k x] l IH ]; intros dst; simpl; [ reflexivity | ].
  rewrite IH. apply upd_length.
Qed.

Lemma writes_outside (l : list (nat * A)) (dflt : A) :
  forall dst i, ~ In i (map fst l) ->
  nth i (fold_left MatrixBlocks.write l dst) dflt = nth i dst dflt.
Proof.
  induction l as [ | [k x] l IH ]; intros dst i Hi; simpl; [ reflexivity | ].
  simpl in Hi. rewrite IH by tauto. apply nth_upd_neq. tauto.
Qed.

Lemma writes_inside (l : list (nat * A)) (dflt : A) :
  forall dst k x, NoDup (map fst l) -> In (k, x) l ->
  (k < length dst)%nat ->
  nth k (fold_left MatrixBlocks.write l dst) dflt = x.
Proof.
  induction l as [ | [k0 x0] l IH ]; intros dst k x Hnd Hin Hk;
    [ destruct Hin | ].
  simpl in Hnd. apply NoDup_cons_iff in Hnd. destruct Hnd as [Hni Hnd].
  simpl. destruct Hin as [Hhd | Hin].
  - inversion Hhd; subst. rewrite writes_outside by exact Hni.
    apply nth_upd_eq. exact Hk.
  - apply IH; auto. unfold MatrixBlocks.write. simpl. rewrite upd_length. exact Hk.
Qed.

Lemma map_combine_eq (g : nat -> A) :
  forall (idx : list nat) (src : list A),
  length src = length idx ->
  (forall k x, In (k, x) (combine idx src) -> g k = x) ->
  map g idx = src.
Proof.
  induction idx as [ | k idx IH ]; intros [ | x src ] Hlen H;
    simpl in Hlen; try discriminate; [ reflexivity | ].
  simpl. f_equal.
  - apply H. left. reflexivity.
  - apply IH; [ lia | ]. intros k' x' Hin. apply H. right. exact Hin.
Qed.

Lemma map_fst_combine :
  forall (idx : list nat) (src : list A),
  length src = length idx -> map fst (combine idx src) = idx.
Proof.
  induction idx as [ | k idx IH ]; intros [ | x src ] Hlen;
    simpl in Hlen; try discriminate; [ reflexivity | ].
  simpl. f_equal. apply IH. lia.
Qed.

(** Reading a view that has just been assigned gives back the source. *)
Lemma rview_assign (dflt : A) (a : list (Z * Z)) (src dst : list A) :
  NoDup (MatrixBlocks.indices a) ->
  (forall i, In i (MatrixBlocks.indices a) -> (i < length dst)%nat) ->
  length src = length (MatrixBlocks.indices a) ->
  MatrixBlocks.rview dflt a (MatrixBlocks.assign a src dst) = src.
Proof.
  intros Hnd Hin Hlen. unfold MatrixBlocks.rview, MatrixBlocks.assign.
  apply map_combine_eq; [ exact Hlen | ].
  intros k x Hkx. apply (writes_inside _ dflt).
  - rewrite map_fst_combine by exact Hlen. exact Hnd.
  - exact Hkx.
  - apply Hin. eapply in_combine_l. exact Hkx.
Qed.

(** Assigning to a view writes selected coordinates only. *)
Lemma assign_outside (dflt : A) (a : list (Z * Z)) (src dst : list A) i :
  ~ In i (MatrixBlocks.indices a) ->
  nth i (MatrixBlocks.assign a src dst) dflt = nth i dst dflt.
Proof.
  intros Hi. unfold MatrixBlocks.assign. apply writes_outside.
  intros H. apply Hi. apply in_map_iff in H.
  destruct H as ([k x] & <- & Hkx). eapply in_combine_l. exact Hkx.
Qed.

End Assign.

(** [update] leaves a zero step of the size of the tangent space. *)
Lemma update_dq_zero (s : HierarchicalIterative) i :
  nth i (dq_ (update s)) 0%Q = 0%Q.
Proof.
  simpl. unfold Dense.Zero.
  destruct (Nat.lt_ge_cases i (Z.to_nat (snd (configSpace_ s)))).
  - apply nth_repeat_lt. assumption.
  - apply nth_overflow. rewrite repeat_length. assumption.
Qed.

Lemma nth_setZero (v : list Q) (i : nat) : nth i (Dense.setZero v) 0%Q = 0%Q.
Proof.
  unfold Dense.setZero. revert i.
  induction v as [ | x v IH ]; intros [ | i ]; simpl; auto.
Qed.

(** C8: a call of [computeDescentDirection] that completes keeps the size
    of [dq_].  On a solver with a level it leaves in [dq_], at the
    coordinates the free variables select, the coefficients of [dqSmall_],
    and does not write the other coordinates.  On a solver without level it
    sets [dq_] to zero and does not write [dqSmall_].  In both cases the
    coordinates outside the free variables that were 0 before the call,
    as they are after [update], are 0 after it. *)
Theorem computeDescentDirection_expands_dqSmall
        (s s' : HierarchicalIterative) :
  computeDescentDirection s = Done s' ->
  NoDup (MatrixBlocks.indices (freeVariables_ s)) ->
  (forall i, In i (MatrixBlocks.indices (freeVariables_ s)) ->
             (i < length (dq_ s))%nat) ->
  (stacks_ s <> [] ->
   length (dqSmall_ s') = length (MatrixBlocks.indices (freeVariables_ s))) ->
  length (dq_ s') = length (dq_ s) /\
  (stacks_ s <> [] ->
   MatrixBlocks.rview 0%Q (freeVariables_ s) (dq_ s') = dqSmall_ s' /\
   forall i, ~ In i (MatrixBlocks.indices (freeVariables_ s)) ->
             nth i (dq_ s') 0%Q = nth i (dq_ s) 0%Q) /\
  (stacks_ s = [] ->
   dq_ s' = Dense.setZero (dq_ s) /\ dqSmall_ s' = dqSmall_ s) /\
  (forall i, ~ In i (MatrixBlocks.indices (freeVariables_ s)) ->
             nth i (dq_ s) 0%Q = 0%Q -> nth i (dq_ s') 0%Q = 0%Q).
Proof.
  intros HD Hnd Hin Hlen.
  apply computeDescentDirection_Done in HD.
  destruct HD as (ds & dqSmall & sigma & dq & -> & _ & Hnone & Hsome & _).
  simpl dq_. simpl dqSmall_ in *.
  assert (dq_ (set_datas_ ds s) = dq_ s) as Edq by (destruct s; reflexivity).
  repeat rewrite Edq.
  destruct (stacks_ s) as [ | cs stacks ] eqn:Es.
  - destruct (Hnone eq_refl) as [-> ->].
    split; [ apply length_map | ].
    split; [ intros C; contradiction | ].
    split; [ intros _; split; [ reflexivity | destruct s; reflexivity ] | ].
    intros i _ _. apply nth_setZero.
  - rewrite (Hsome ltac:(discriminate)).
    specialize (Hlen ltac:(discriminate)).
    split; [ unfold MatrixBlocks.assign; apply writes_length | ].
    split; [ | split; [ discriminate | ] ].
    + intros _. split.
      * apply rview_assign; assumption.
      * intros i Hi. apply assign_outside. exact Hi.
    + intros i Hi Hz. rewrite assign_outside by exact Hi. exact Hz.
Qed.

End SolverFacts.
(* ================================================================== *)
(** * Runs of the solver on scalar problems                            *)
(* ================================================================== *)

Lemma add_duplicate_throws_witness :
  let s := Scalar.problem 0 in
  add Scalar.same_name (Scalar.constraint 2 "f"%string 1) 3 s
  = (inl (logic_error
            (already_in_solver
               (functionPtr (Scalar.constraint 2 "f"%string 1)))), s).
Proof.
  apply (add_duplicate_throws (Eigen := Scalar.svd 0) Scalar.same_name
           (Scalar.constraint 2 "f"%string 1) 3 (Scalar.problem 0)).
  exists (functionPtr (Scalar.constraint 1 "f"%string 1)), 0%nat.
  split; [ left; reflexivity | reflexivity ].
Defined.

(** C1 (as stated) fails.  Three iterations on a constraint with one row
    and one variable: the error and the Jacobian are [-3/4] and [1], then
    [9/16] and [5/2], then [1] and [0].  The three calls complete.
    [sigma_] is 1 after the first iteration and 5/2 after the second one:
    it has increased.  After the third one it is 0, the singular value of
    index [maxRank - 1 = 0] of a matrix of rank 0: the value reported is
    not a non-zero singular value. *)
Lemma sigma_increases_between_iterations :
  let s0 := Scalar.problem 0 in
  exists s1 s2 s3,
    computeDescentDirection
      (evaluate [ ([ - (3 # 4) ], [ [ 1 ] ]) ]%Q (9 # 16) s0) = Done s1 /\
    computeDescentDirection
      (evaluate [ ([ 9 # 16 ], [ [ 5 # 2 ] ]) ]%Q (81 # 256) s1) = Done s2 /\
    computeDescentDirection
      (evaluate [ ([ 1 ], [ [ 0 ] ]) ]%Q 1 s2) = Done s3 /\
    iterations s0 s3 /\
    sigma_ s1 = 1%Q /\ sigma_ s2 = (5 # 2)%Q /\
    ~ (sigma_ s2 <= sigma_ s1)%Q /\
    sigma_ s3 = 0%Q /\ map maxRank (datas_ s3) = [ 1 ].
Proof.
  intros s0.
  set (s1 := Scalar.step
               (evaluate [ ([ - (3 # 4) ], [ [ 1 ] ]) ]%Q (9 # 16) s0)).
  set (s2 := Scalar.step
               (evaluate [ ([ 9 # 16 ], [ [ 5 # 2 ] ]) ]%Q (81 # 256) s1)).
  set (s3 := Scalar.step (evaluate [ ([ 1 ], [ [ 0 ] ]) ]%Q 1 s2)).
  assert (computeDescentDirection
            (evaluate [ ([ - (3 # 4) ], [ [ 1 ] ]) ]%Q (9 # 16) s0) = Done s1)
    as E1 by (vm_compute; reflexivity).
  assert (computeDescentDirection
            (evaluate [ ([ 9 # 16 ], [ [ 5 # 2 ] ]) ]%Q (81 # 256) s1)
          = Done s2) as E2 by (vm_compute; reflexivity).
  assert (computeDescentDirection
            (evaluate [ ([ 1 ], [ [ 0 ] ]) ]%Q 1 s2) = Done s3)
    as E3 by (vm_compute; reflexivity).
  exists s1, s2, s3.
  split; [ exact E1 | split; [ exact E2 | split; [ exact E3 | ] ] ].
  split; [ | split; [ | split; [ | split; [ | split ] ] ] ].
  - eapply iterations_step; [ | exact E3 ].
    eapply iterations_step; [ | exact E2 ].
    eapply iterations_step; [ apply iterations_start | exact E1 ].
  - vm_compute. reflexivity.
  - vm_compute. reflexivity.
  - vm_compute. intros H. apply H. reflexivity.
  - vm_compute. reflexivity.
  - vm_compute. reflexivity.
Qed.

Lemma sigma_min_of_current_call_witness :
  let s := evaluate [ ([ - (3 # 4) ], [ [ 5 # 2 ] ]) ]%Q (9 # 16)
                    (Scalar.problem 0) in
  (forall x, computeDescentDirection (set_sigma_ x s)
             = computeDescentDirection s) /\
  (forall sigma,
     min_sigma value_max (factored s) = Done sigma ->
     exists s',
       computeDescentDirection s = Done s' /\ sigma_ s' = sigma /\
       (forall k d', In (k, d') (factored s) ->
                     nth_error (datas_ s') k = Some d') /\
       (sigma <= value_max)%Q /\
       (forall k d' x, In (k, d') (factored s) ->
                       level_sigma d' = Done (Some x) -> (sigma <= x)%Q)) /\
  (forall k,
     min_sigma value_max (factored s) = OutOfRange k ->
     computeDescentDirection s = OutOfRange k).
Proof.
  intros s. apply (sigma_min_of_current_call (Eigen := Scalar.svd 0) s).
  vm_compute. apply le_n.
Defined.

(** On that solver the minimum is the singular value 5/2 of the level. *)
Example sigma_of_one_level :
  let s := evaluate [ ([ - (3 # 4) ], [ [ 5 # 2 ] ]) ]%Q (9 # 16)
                    (Scalar.problem 0) in
  min_sigma value_max (factored s) = Done (5 # 2)%Q.
Proof. vm_compute. reflexivity. Qed.

(** The second iteration of a solve whose Jacobian vanishes: the rank
    found is 0 and the level keeps the [maxRank] 1 of the first
    iteration. *)
Lemma maxRank_non_decreasing_witness :
  let s0 := Scalar.problem 0 in
  let s := Scalar.step
             (evaluate [ ([ - (3 # 4) ], [ [ 1 ] ]) ]%Q (9 # 16)
                       (update s0)) in
  let s1 := evaluate [ ([ 1 ], [ [ 0 ] ]) ]%Q 1 s in
  let s' := Scalar.step s1 in
  let d := nth 0 (datas_ s1) Data_default in
  exists d',
    nth_error (datas_ s') 0 = Some d' /\
    maxRank d <= maxRank d' /\
    level_rel (Eigen := Scalar.svd 0) d d' /\
    match svd d' with
    | Some r => maxRank d' = Z.max (maxRank d) (svd_rank r)
    | None => maxRank d' = maxRank d
    end /\
    ((1 < length (stacks_ s))%nat -> Dense.rows (reducedJ d) = 0 ->
     d' = d) /\
    (0%nat = 0%nat ->
     length (stacks_ s) = 1%nat
     \/ (1 < length (stacks_ s))%nat /\ Dense.rows (reducedJ d) <> 0 ->
     let r := @svd_compute (Scalar.svd 0) (svd_ThinV d)
                          (reducedJ d) in
     svd d' = Some r /\ maxRank d' = Z.max (maxRank d) (svd_rank r)).
Proof.
  intros s0 s s1 s' d.
  apply (maxRank_non_decreasing (Eigen := Scalar.svd 0) s0 s s'
           [ ([ 1 ], [ [ 0 ] ]) ]%Q 1 0 d).
  - vm_compute. reflexivity.
  - apply (iterations_step _ (update s0) s
             [ ([ - (3 # 4) ], [ [ 1 ] ]) ]%Q (9 # 16)).
    + apply iterations_start.
    + vm_compute. reflexivity.
  - vm_compute. reflexivity.
  - vm_compute. reflexivity.
Defined.

Example maxRank_kept_on_rank_drop :
  let s := Scalar.step
             (evaluate [ ([ - (3 # 4) ], [ [ 1 ] ]) ]%Q (9 # 16)
                       (Scalar.problem 0)) in
  let s' := Scalar.step (evaluate [ ([ 1 ], [ [ 0 ] ]) ]%Q 1 s) in
  map maxRank (datas_ s) = [ 1 ] /\ map maxRank (datas_ s') = [ 1 ] /\
  option_map svd_rank (svd (nth 0 (datas_ s') Data_default)) = Some 0.
Proof. vm_compute. repeat split. Qed.

Lemma computeDescentDirection_expands_dqSmall_witness :
  let s := evaluate [ ([ - (3 # 4) ], [ [ 1 ] ]) ]%Q (9 # 16)
                    (Scalar.restricted_problem 0) in
  let s' := Scalar.step s in
  length (dq_ s') = length (dq_ s) /\
  (stacks_ s <> [] ->
   MatrixBlocks.rview 0%Q (freeVariables_ s) (dq_ s') = dqSmall_ s' /\
   forall i, ~ In i (MatrixBlocks.indices (freeVariables_ s)) ->
             nth i (dq_ s') 0%Q = nth i (dq_ s) 0%Q) /\
  (stacks_ s = [] ->
   dq_ s' = Dense.setZero (dq_ s) /\ dqSmall_ s' = dqSmall_ s) /\
  (forall i, ~ In i (MatrixBlocks.indices (freeVariables_ s)) ->
             nth i (dq_ s) 0%Q = 0%Q -> nth i (dq_ s') 0%Q = 0%Q).
Proof.
  intros s s'.
  apply (computeDescentDirection_expands_dqSmall (Eigen := Scalar.svd 0)
           s s').
  - vm_compute. reflexivity.
  - vm_compute. repeat constructor. simpl. tauto.
  - vm_compute. intros i [ <- | [ ] ]. apply le_n.
  - intros _. vm_compute. reflexivity.
Defined.

(** The step of the restricted problem: the fixed variable does not move. *)
Example restricted_problem_step :
  dq_ (Scalar.step
         (evaluate [ ([ - (3 # 4) ], [ [ 1 ] ]) ]%Q (9 # 16)
                   (Scalar.restricted_problem 0)))
  = [ 0 ; 3 # 4 ]%Q /\
  stacks_ (Scalar.restricted_problem 0) <> [].
Proof. split; vm_compute; [ reflexivity | discriminate ]. Qed.

(* ================================================================== *)
(** * More of the block-index algebra                                  *)
(* ================================================================== *)

Lemma mem_set_cons x s l : mem_set x (s :: l) <-> mem x s \/ mem_set x l.
Proof. unfold mem_set. apply Exists_cons. Qed.

Lemma mem_set_nil x : mem_set x [] <-> False.
Proof. unfold mem_set. apply Exists_nil. Qed.

Lemma mem_set_app x l1 l2 :
  mem_set x (l1 ++ l2) <-> mem_set x l1 \/ mem_set x l2.
Proof. unfold mem_set. apply Exists_app. Qed.

Ltac mem_simpl :=
  repeat first [ rewrite mem_set_cons | rewrite mem_set_nil ];
  unfold mem, first, second; simpl fst; simpl snd.

(** X1: on intervals, two ranges intersect exactly when [overlap] answers
    [true] in one of the two argument orders. *)
Theorem overlap_either_order (a b : Z * Z) :
  0 <= second a -> 0 <= second b ->
  (overlap a b || overlap b a = true <-> intersects a b).
Proof.
  rewrite orb_true_iff, !overlap_true_iff. unfold intersects, mem.
  destruct a as [a1 a2], b as [b1 b2]. unfold first, second. simpl.
  intros Ha Hb. split.
  - intros [ (H1 & H2 & [H | H]) | (H1 & H2 & [H | H]) ].
    + exists b1. lia.
    + exists (b1 + b2 - 1). lia.
    + exists a1. lia.
    + exists (a1 + a2 - 1). lia.
  - intros (x & H1 & H2).
    destruct (Z_le_gt_dec a1 b1); [ left | right ]; lia.
Qed.

Lemma overlap_either_order_witness :
  overlap (2, 1) (0, 10) || overlap (0, 10) (2, 1) = true
  <-> intersects (2, 1) (0, 10).
Proof.
  apply (overlap_either_order (2, 1) (0, 10)); simpl; lia.
Defined.

(** X2: on intervals, [sum] covers exactly the indices of its two
    arguments, and the intervals it returns are in increasing order with a
    gap between them. *)
Theorem sum_union (a b : Z * Z) :
  0 <= second a -> 0 <= second b ->
  (forall x, mem_set x (sum a b) <-> mem x a \/ mem x b) /\
  Sorted apart (sum a b) /\
  Forall (fun e => 0 <= second e) (sum a b).
Proof.
  destruct a as [a1 a2], b as [b1 b2]. unfold_seg. intros Ha Hb.
  zbool; (split; [ intros x; mem_simpl; lia | split ]);
    repeat constructor; unfold apart, first, second; simpl; lia.
Qed.

Lemma sum_union_witness :
  (forall x, mem_set x (sum (5, 3) (0, 7)) <-> mem x (5, 3) \/ mem x (0, 7)) /\
  Sorted apart (sum (5, 3) (0, 7)) /\
  Forall (fun e => 0 <= second e) (sum (5, 3) (0, 7)).
Proof.
  apply (sum_union (5, 3) (0, 7)); simpl; lia.
Defined.

(** The pieces of [difference (a, b)]. *)
Lemma difference_pieces (a b : Z * Z) :
  0 <= second a -> 0 <= second b ->
  (forall x, mem_set x (difference a b) <-> mem x a /\ ~ mem x b) /\
  Sorted apart (difference a b) /\
  Forall (fun p => 0 < second p /\ first a <= first p /\
                   first p + second p <= first a + second a)
         (difference a b).
Proof.
  destruct a as [a1 a2], b as [b1 b2]. unfold_seg. intros Ha Hb.
  zbool; (split; [ intros x; mem_simpl; lia | split ]);
    repeat constructor; unfold apart, first, second; simpl; lia.
Qed.

(** X3: on intervals, [difference (a, b)] covers exactly the indices of
    [a] that are not in [b]; its pieces have positive length, lie within
    [a], and are in increasing order with a gap between them. *)
Theorem difference_spec (a b : Z * Z) :
  0 <= second a -> 0 <= second b ->
  (forall x, mem_set x (difference a b) <-> mem x a /\ ~ mem x b) /\
  Sorted apart (difference a b) /\
  Forall (fun p => 0 < second p /\ first a <= first p /\
                   first p + second p <= first a + second a)
         (difference a b).
Proof. exact (difference_pieces a b). Qed.

Lemma difference_spec_witness :
  (forall x, mem_set x (difference (0, 10) (3, 4))
             <-> mem x (0, 10) /\ ~ mem x (3, 4)) /\
  Sorted apart (difference (0, 10) (3, 4)) /\
  Forall (fun p => 0 < second p /\ first (0, 10) <= first p /\
                   first p + second p <= first (0, 10) + second (0, 10))
         (difference (0, 10) (3, 4)).
Proof.
  apply (difference_spec (0, 10) (3, 4)); simpl; lia.
Defined.

(** X4: on intervals, the lengths of the pieces of [difference (a, b)] add
    up to the length of [a] minus the number of indices [a] and [b]
    share. *)
Theorem difference_cardinal (a b : Z * Z) :
  0 <= second a -> 0 <= second b ->
  cardinal (difference a b) = second a - common a b.
Proof.
  destruct a as [a1 a2], b as [b1 b2]. unfold common, cardinal. unfold_seg.
  intros Ha Hb. zbool; lia.
Qed.

Lemma difference_cardinal_witness :
  cardinal (difference (0, 10) (3, 4)) = second (0, 10) - common (0, 10) (3, 4).
Proof.
  apply (difference_cardinal (0, 10) (3, 4)); simpl; lia.
Defined.

(** ** [shrink] *)

Lemma shrink_from_head (rest : list (Z * Z)) :
  forall e1, exists len tl, shrink_from e1 rest = (first e1, len) :: tl.
Proof.
  induction rest as [ | e2 rest IH ]; intros e1; simpl.
  - exists (second e1), []. destruct e1; reflexivity.
  - destruct (first e1 + second e1 <? first e2).
    + exists (second e1), (shrink_from e2 rest). destruct e1; reflexivity.
    + destruct (IH (first e1,
                    Z.max (second e1) (first e2 + second e2 - first e1)))
        as (len & tl & E).
      exists len, tl. exact E.
Qed.

Lemma shrink_from_spec (rest : list (Z * Z)) :
  forall e1,
  0 <= second e1 -> Forall (fun e => 0 <= second e) rest ->
  Sorted by_start (e1 :: rest) ->
  (forall x, mem_set x (shrink_from e1 rest) <-> mem x e1 \/ mem_set x rest) /\
  Sorted apart (shrink_from e1 rest) /\
  Forall (fun e => 0 <= second e) (shrink_from e1 rest).
Proof.
  induction rest as [ | e2 rest IH ]; intros e1 H1 Hr Hs; simpl.
  - split; [ intros x; mem_simpl; tauto | ].
    split; repeat constructor; assumption.
  - inversion Hr as [ | ? ? H2 Hr' ]; subst.
    inversion Hs as [ | ? ? Hs' Hhd ]; subst.
    inversion Hhd as [ | ? ? H12 ]; subst. unfold by_start in H12.
    destruct (Z.ltb_spec (first e1 + second e1) (first e2)) as [Hlt | Hge].
    + destruct (IH e2 H2 Hr' Hs') as (Hm & Hso & Hn).
      split; [ | split ].
      * intros x. rewrite mem_set_cons, Hm, mem_set_cons. tauto.
      * constructor; [ exact Hso | ].
        destruct (shrink_from_head rest e2) as (len & tl & ->).
        constructor. unfold apart, first in *. simpl. exact Hlt.
      * constructor; assumption.
    + set (e := (first e1, Z.max (second e1) (first e2 + second e2 - first e1))).
      destruct (IH e) as (Hm & Hso & Hn).
      * unfold e, second in *. simpl. lia.
      * exact Hr'.
      * constructor; [ inversion Hs'; assumption | ].
        inversion Hs' as [ | ? ? _ Hhd2 ]; subst.
        inversion Hhd2 as [ | e3 ? H23 ]; subst; constructor.
        unfold by_start, e, first in *. simpl. lia.
      * split; [ | split; assumption ].
        intros x. rewrite Hm, mem_set_cons.
        assert (mem x e <-> mem x e1 \/ mem x e2) as ->; [ | tauto ].
        unfold mem, e, first, second in *. simpl. lia.
Qed.

(** What [shrink] returns on intervals sorted by start. *)
Lemma shrink_sound (a : list (Z * Z)) :
  Sorted by_start a -> Forall (fun e => 0 <= second e) a ->
  (forall x, mem_set x (shrink a) <-> mem_set x a) /\
  Sorted apart (shrink a) /\
  Forall (fun e => 0 <= second e) (shrink a).
Proof.
  intros Hs Hn. destruct a as [ | e1 rest ]; simpl.
  - split; [ tauto | split; constructor ].
  - inversion Hn; subst.
    destruct (shrink_from_spec rest e1) as (Hm & Hso & Hnn); auto.
    split; [ | split; assumption ].
    intros x. rewrite Hm, mem_set_cons. tauto.
Qed.

(** X5: on intervals sorted by start, [shrink] keeps the set of indices
    covered and returns intervals in increasing order with a gap between
    any two neighbours. *)
Theorem shrink_spec (a : list (Z * Z)) :
  Sorted by_start a -> Forall (fun e => 0 <= second e) a ->
  (forall x, mem_set x (shrink a) <-> mem_set x a) /\
  Sorted apart (shrink a) /\
  Forall (fun e => 0 <= second e) (shrink a).
Proof. exact (shrink_sound a). Qed.

Lemma shrink_spec_witness :
  (forall x, mem_set x (shrink [ (0, 3) ; (2, 4) ; (6, 1) ; (9, 2) ])
             <-> mem_set x [ (0, 3) ; (2, 4) ; (6, 1) ; (9, 2) ]) /\
  Sorted apart (shrink [ (0, 3) ; (2, 4) ; (6, 1) ; (9, 2) ]) /\
  Forall (fun e => 0 <= second e)
         (shrink [ (0, 3) ; (2, 4) ; (6, 1) ; (9, 2) ]).
Proof.
  apply (shrink_spec [ (0, 3) ; (2, 4) ; (6, 1) ; (9, 2) ]).
  - repeat constructor; unfold by_start; simpl; lia.
  - repeat constructor; simpl; lia.
Defined.

Example shrink_run :
  shrink [ (0, 3) ; (2, 4) ; (6, 1) ; (9, 2) ] = [ (0, 7) ; (9, 2) ].
Proof. reflexivity. Qed.

Lemma shrink_from_apart (rest : list (Z * Z)) :
  forall e1, Sorted apart (e1 :: rest) -> shrink_from e1 rest = e1 :: rest.
Proof.
  induction rest as [ | e2 rest IH ]; intros e1 Hs; simpl; [ reflexivity | ].
  inversion Hs as [ | ? ? Hs' Hhd ]; subst.
  inversion Hhd as [ | ? ? H12 ]; subst. unfold apart in H12.
  destruct (Z.ltb_spec (first e1 + second e1) (first e2)); [ | lia ].
  rewrite IH by exact Hs'. reflexivity.
Qed.

(** X6: [shrink] changes nothing in a sequence whose neighbours are
    already separated by a gap; hence shrinking twice is shrinking once. *)
Theorem shrink_idempotent (a : list (Z * Z)) :
  Sorted by_start a -> Forall (fun e => 0 <= second e) a ->
  (forall l, Sorted apart l -> shrink l = l) /\
  shrink (shrink a) = shrink a.
Proof.
  intros Hs Hn.
  assert (forall l, Sorted apart l -> shrink l = l) as Hfix.
  { intros [ | e1 rest ] Hl; [ reflexivity | ].
    simpl. apply shrink_from_apart. exact Hl. }
  split; [ exact Hfix | ].
  apply Hfix. apply shrink_sound; assumption.
Qed.

Lemma shrink_idempotent_witness :
  (forall l, Sorted apart l -> shrink l = l) /\
  shrink (shrink [ (0, 3) ; (2, 4) ; (6, 1) ; (9, 2) ])
  = shrink [ (0, 3) ; (2, 4) ; (6, 1) ; (9, 2) ].
Proof.
  apply (shrink_idempotent [ (0, 3) ; (2, 4) ; (6, 1) ; (9, 2) ]).
  - repeat constructor; unfold by_start; simpl; lia.
  - repeat constructor; simpl; lia.
Defined.

(** ** Differences of sequences of intervals *)

Lemma StronglySorted_app {A : Type} (R : A -> A -> Prop) (l1 l2 : list A) :
  StronglySorted R (l1 ++ l2) <->
  StronglySorted R l1 /\ StronglySorted R l2 /\
  (forall x y, In x l1 -> In y l2 -> R x y).
Proof.
  induction l1 as [ | a l1 IH ]; simpl.
  - split.
    + intros H. repeat split; [ constructor | exact H | intros x y [] ].
    + intros (_ & H & _). exact H.
  - split.
    + intros H. apply StronglySorted_inv in H. destruct H as [Hs Hf].
      apply IH in Hs. destruct Hs as (H1 & H2 & H12).
      rewrite Forall_app in Hf. destruct Hf as [Hf1 Hf2].
      repeat split; [ constructor; assumption | assumption | ].
      intros x y [<- | Hx] Hy.
      * rewrite Forall_forall in Hf2. auto.
      * auto.
    + intros (H1 & H2 & H12).
      apply StronglySorted_inv in H1. destruct H1 as [H1 Hf1].
      constructor.
      * apply IH. repeat split; auto.
      * rewrite Forall_app. split; [ exact Hf1 | ].
        rewrite Forall_forall. intros y Hy. apply H12; auto.
Qed.

Lemma ordered_app (l1 l2 : list (Z * Z)) :
  ordered (l1 ++ l2) <->
  ordered l1 /\ ordered l2 /\
  (forall x y, In x l1 -> In y l2 -> before x y).
Proof.
  unfold ordered. rewrite StronglySorted_app, Forall_app. tauto.
Qed.

(** Neighbours separated by gaps, with non-negative lengths, are pairwise
    in order. *)
Lemma apart_ordered (l : list (Z * Z)) :
  Sorted apart l -> Forall (fun e => 0 <= second e) l -> ordered l.
Proof.
  unfold ordered. induction 1 as [ | e l Hs IH Hhd ]; intros Hn.
  - split; constructor.
  - inversion Hn as [ | ? ? He Hn' ]; subst.
    destruct (IH Hn') as [Hss _]. split; [ | exact Hn ].
    constructor; [ exact Hss | ].
    destruct l as [ | e2 l ]; constructor.
    + inversion Hhd; subst. unfold apart, before in *. lia.
    + inversion Hhd as [ | ? ? H12 ]; subst.
      apply StronglySorted_inv in Hss. destruct Hss as [_ Hf].
      inversion Hn' as [ | ? ? He2 _ ]; subst.
      eapply Forall_impl; [ | exact Hf ].
      intros e3 H23. unfold apart, before in *. lia.
Qed.

Lemma ordered_by_start (l : list (Z * Z)) :
  ordered l -> StronglySorted by_start l.
Proof.
  intros [Hs Hn]. induction Hs as [ | e l Hs IH Hf ]; [ constructor | ].
  inversion Hn as [ | ? ? He Hn' ]; subst.
  constructor; [ auto | ].
  eapply Forall_impl; [ | exact Hf ].
  intros e2 H. unfold before, by_start in *. lia.
Qed.

Lemma split_at_two (a : list (Z * Z)) (i j : nat) :
  (i <= j)%nat ->
  a = firstn i a ++ firstn (j - i) (skipn i a) ++ skipn j a.
Proof.
  intros Hij. rewrite <- (firstn_skipn i a) at 1. f_equal.
  rewrite <- (firstn_skipn (j - i) (skipn i a)) at 1. f_equal.
  rewrite skipn_skipn. f_equal. lia.
Qed.

(** The elements before the position [upper_bound] returns fail the test. *)
Lemma upper_bound_prefix comp v (a : list (Z * Z)) :
  Forall (fun e => comp v e = false) (firstn (upper_bound comp v a) a).
Proof.
  induction a as [ | e a IH ]; simpl; [ constructor | ].
  destruct (comp v e) eqn:E; simpl; constructor; assumption.
Qed.

(** In a sequence sorted by start, all the elements from [last] on start
    after the end of [b]. *)
Lemma upper_bound_suffix (b : Z * Z) (a : list (Z * Z)) :
  StronglySorted by_start a ->
  Forall (fun e => first b + second b < first e)
         (skipn (upper_bound (BlockIndexComp false true) b a) a).
Proof.
  induction 1 as [ | e a Hs IH Hf ]; simpl; [ constructor | ].
  unfold BlockIndexComp at 1.
  destruct (Z.ltb_spec (first b + second b) (first e)) as [Hlt | Hge]; simpl.
  - constructor; [ exact Hlt | ].
    eapply Forall_impl; [ | exact Hf ].
    intros e2 H. unfold by_start in H. lia.
  - exact IH.
Qed.

(** [first] is never after [last]. *)
Lemma upper_bound_first_last (b : Z * Z) (a : list (Z * Z)) :
  0 <= second b -> Forall (fun e => 0 <= second e) a ->
  (upper_bound (BlockIndexComp true false) b a
   <= upper_bound (BlockIndexComp false true) b a)%nat.
Proof.
  intros Hb. induction 1 as [ | e a He Hn IH ]; simpl; [ lia | ].
  unfold BlockIndexComp at 1 3.
  destruct (Z.ltb_spec (first b) (first e + second e)); [ lia | ].
  destruct (Z.ltb_spec (first b + second b) (first e)); lia.
Qed.

(** The differences of the elements of an ordered sequence, put end to end
    between what comes before and what comes after, are ordered. *)
Lemma ordered_refine (b : Z * Z) (P M S : list (Z * Z)) :
  0 <= second b -> ordered (P ++ M ++ S) ->
  ordered (P ++ flat_map (fun e => difference e b) M ++ S) /\
  Forall (fun p => exists e, In e M /\ within e p)
         (flat_map (fun e => difference e b) M).
Proof.
  intros Hb Ho.
  apply ordered_app in Ho. destruct Ho as (HP & HMS & HPMS).
  apply ordered_app in HMS. destruct HMS as (HM & HS & HMS).
  assert (Forall (fun p => exists e, In e M /\ within e p /\ 0 <= second p)
                 (flat_map (fun e => difference e b) M)) as Hin.
  { rewrite Forall_forall. intros p Hp. apply in_flat_map in Hp.
    destruct Hp as (e & He & Hp). exists e. split; [ exact He | ].
    destruct HM as [_ HMn]. rewrite Forall_forall in HMn.
    destruct (difference_pieces e b (HMn e He) Hb) as (_ & _ & Hw).
    rewrite Forall_forall in Hw. specialize (Hw p Hp).
    unfold within. lia. }
  split.
  - apply ordered_app. split; [ exact HP | split ].
    + apply ordered_app. split; [ | split; [ exact HS | ] ].
      * clear HPMS HMS Hin. destruct HM as [HMs HMn].
        induction HMs as [ | e M HMs IH Hf ]; simpl.
        { split; constructor. }
        inversion HMn as [ | ? ? He HMn' ]; subst.
        apply ordered_app. split; [ | split; [ apply IH; exact HMn' | ] ].
        { destruct (difference_pieces e b He Hb) as (_ & Hso & Hw).
          apply apart_ordered; [ exact Hso | ].
          eapply Forall_impl; [ | exact Hw ]. simpl. intros; lia. }
        intros p q Hp Hq. apply in_flat_map in Hq.
        destruct Hq as (e' & He' & Hq).
        rewrite Forall_forall in Hf. specialize (Hf e' He').
        rewrite Forall_forall in HMn'.
        destruct (difference_pieces e b He Hb) as (_ & _ & Hw).
        destruct (difference_pieces e' b (HMn' e' He') Hb) as (_ & _ & Hw').
        rewrite Forall_forall in Hw, Hw'.
        specialize (Hw p Hp). specialize (Hw' q Hq).
        unfold before in *. lia.
      * intros p y Hp Hy. rewrite Forall_forall in Hin.
        destruct (Hin p Hp) as (e & He & Hw & _).
        specialize (HMS e y He Hy). unfold before, within in *. lia.
    + intros x y Hx Hy. apply in_app_or in Hy. destruct Hy as [Hy | Hy].
      * rewrite Forall_forall in Hin.
        destruct (Hin y Hy) as (e & He & Hw & _).
        assert (before x e) as Hxe by (apply HPMS; auto using in_or_app).
        unfold before, within in *. lia.
      * apply HPMS; auto using in_or_app.
  - eapply Forall_impl; [ | exact Hin ].
    intros p (e & He & Hw & _). eauto.
Qed.

(** What the binary-search difference returns on an ordered sequence when
    the [assert] is compiled out. *)
Lemma difference_set_seg_sound (a : list (Z * Z)) (b : Z * Z) :
  ordered a -> 0 <= second b ->
  exists r,
    difference_set_seg true a b = Returns r /\
    (forall x, mem_set x r <-> mem_set x a /\ ~ mem x b) /\
    ordered r /\
    Forall (fun p => exists e, In e a /\ within e p) r.
Proof.
  intros Ho Hb. unfold difference_set_seg. cbn [negb andb].
  set (i := upper_bound (BlockIndexComp true false) b a).
  set (j := upper_bound (BlockIndexComp false true) b a).
  assert (i <= j)%nat as Hij
    by (apply upper_bound_first_last; [ exact Hb | apply Ho ]).
  destruct (Nat.leb_spec i j) as [_ | Hlt]; [ | lia ].
  eexists. split; [ reflexivity | ].
  pose proof (split_at_two a i j Hij) as Ea.
  set (P := firstn i a) in *. set (M := firstn (j - i) (skipn i a)) in *.
  set (S := skipn j a) in *.
  assert (Forall (fun e => first e + second e <= first b) P) as HP.
  { eapply Forall_impl; [ | apply upper_bound_prefix ].
    unfold BlockIndexComp. intros e He. apply Z.ltb_ge in He. exact He. }
  assert (Forall (fun e => first b + second b < first e) S) as HS
    by (apply upper_bound_suffix, ordered_by_start, Ho).
  assert (Forall (fun e => 0 <= second e) a) as Hn by apply Ho.
  rewrite Ea in Ho, Hn. rewrite !Forall_app in Hn.
  destruct Hn as (HnP & HnM & HnS).
  destruct (ordered_refine b P M S Hb Ho) as [Hor Hw].
  split; [ | split; [ exact Hor | ] ].
  - intros x. rewrite Ea at 1. rewrite !mem_set_app.
    assert (mem_set x (flat_map (fun e => difference e b) M)
            <-> mem_set x M /\ ~ mem x b) as ->.
    { unfold mem_set. rewrite Exists_flat_map, !Exists_exists. split.
      - intros (e & He & Hx). rewrite Forall_forall in HnM.
        apply (difference_pieces e b (HnM e He) Hb) in Hx. split; [ | tauto ].
        exists e. tauto.
      - intros ((e & He & Hx) & Hnb). exists e. split; [ exact He | ].
        rewrite Forall_forall in HnM.
        apply (difference_pieces e b (HnM e He) Hb). tauto. }
    assert (mem_set x P -> ~ mem x b) as HxP.
    { unfold mem_set. rewrite Exists_exists. intros (e & He & Hx).
      rewrite Forall_forall in HP. specialize (HP e He).
      unfold mem in *. lia. }
    assert (mem_set x S -> ~ mem x b) as HxS.
    { unfold mem_set. rewrite Exists_exists. intros (e & He & Hx).
      rewrite Forall_forall in HS. specialize (HS e He).
      unfold mem in *. lia. }
    tauto.
  - rewrite !Forall_app. split; [ | split ].
    + rewrite Forall_forall. intros p Hp. exists p. split.
      * rewrite Ea. auto using in_or_app.
      * unfold within. lia.
    + eapply Forall_impl; [ | exact Hw ].
      intros p (e & He & Hpe). exists e. split; [ | exact Hpe ].
      rewrite Ea. auto using in_or_app.
    + rewrite Forall_forall. intros p Hp. exists p. split.
      * rewrite Ea. auto using in_or_app.
      * unfold within. lia.
Qed.

(** With assertions, the call aborts when the condition fails and does
    what the build without assertions does when it holds. *)
Lemma difference_set_seg_checked (a : list (Z * Z)) (b : Z * Z) :
  difference_set_seg false a b
  = if difference_assert a (upper_bound (BlockIndexComp true false) b a)
                         (upper_bound (BlockIndexComp false true) b a)
    then difference_set_seg true a b
    else AssertionFailure.
Proof.
  unfold difference_set_seg. cbn [negb andb].
  destruct (difference_assert a _ _); reflexivity.
Qed.

Lemma difference_set_seg_any (NDEBUG : bool) (a : list (Z * Z)) (b : Z * Z) :
  NDEBUG = true
  \/ difference_assert a (upper_bound (BlockIndexComp true false) b a)
                       (upper_bound (BlockIndexComp false true) b a) = true ->
  difference_set_seg NDEBUG a b = difference_set_seg true a b.
Proof.
  intros [-> | H]; [ reflexivity | ].
  destruct NDEBUG; [ reflexivity | ].
  rewrite difference_set_seg_checked, H. reflexivity.
Qed.

(** The condition of the [assert] holds when no interval of [a] starts
    after the end of [b]: [last] is then the end of [a]. *)
Lemma difference_assert_no_later_start (a : list (Z * Z)) (b : Z * Z) :
  Forall (fun e => first e <= first b + second b) a ->
  difference_assert a (upper_bound (BlockIndexComp true false) b a)
                      (upper_bound (BlockIndexComp false true) b a) = true.
Proof.
  intros H.
  assert (upper_bound (BlockIndexComp false true) b a = length a) as ->.
  { induction H as [ | e a He _ IH ]; simpl; [ reflexivity | ].
    unfold BlockIndexComp at 1.
    destruct (Z.ltb_spec (first b + second b) (first e)); [ lia | ].
    rewrite IH. reflexivity. }
  unfold difference_assert. rewrite Nat.eqb_refl, orb_true_r. reflexivity.
Qed.

(** X7: on an ordered sequence of intervals [a] and an interval [b], in a
    build without assertions, or when the condition of the [assert] of the
    function holds, the binary-search difference returns (its iterator does
    not run past the end), covers exactly the indices of [a] that are not
    in [b], and gives an ordered sequence whose intervals each lie within
    an interval of [a]. *)
Theorem difference_set_seg_spec (NDEBUG : bool) (a : list (Z * Z))
        (b : Z * Z) :
  ordered a -> 0 <= second b ->
  NDEBUG = true
  \/ difference_assert a (upper_bound (BlockIndexComp true false) b a)
                       (upper_bound (BlockIndexComp false true) b a) = true ->
  exists r,
    difference_set_seg NDEBUG a b = Returns r /\
    (forall x, mem_set x r <-> mem_set x a /\ ~ mem x b) /\
    ordered r /\
    Forall (fun p => exists e, In e a /\ within e p) r.
Proof.
  intros Ho Hb Hc. rewrite (difference_set_seg_any NDEBUG a b Hc).
  exact (difference_set_seg_sound a b Ho Hb).
Qed.

Lemma difference_set_seg_spec_witness :
  exists r,
    difference_set_seg false [ (0, 3) ; (7, 3) ; (12, 2) ] (2, 11) = Returns r /\
    (forall x, mem_set x r
               <-> mem_set x [ (0, 3) ; (7, 3) ; (12, 2) ] /\ ~ mem x (2, 11)) /\
    ordered r /\
    Forall (fun p => exists e, In e [ (0, 3) ; (7, 3) ; (12, 2) ] /\ within e p)
           r.
Proof.
  apply (difference_set_seg_spec false [ (0, 3) ; (7, 3) ; (12, 2) ] (2, 11)).
  - split; repeat constructor; unfold before; simpl; lia.
  - simpl. lia.
  - right. reflexivity.
Defined.

Example difference_set_seg_run :
  difference_set_seg false [ (0, 3) ; (7, 3) ; (12, 2) ] (2, 11)
  = Returns [ (0, 2) ; (13, 1) ].
Proof. reflexivity. Qed.

(** When an interval that [b] does not reach follows the ones it cuts, the
    condition of the [assert] fails: the build with assertions aborts
    where the build without them returns the difference. *)
Example difference_set_seg_aborts :
  difference_set_seg false [ (0, 3) ; (7, 3) ; (20, 1) ] (2, 6)
  = AssertionFailure /\
  difference_set_seg true [ (0, 3) ; (7, 3) ; (20, 1) ] (2, 6)
  = Returns [ (0, 2) ; (8, 2) ; (20, 1) ].
Proof. split; reflexivity. Qed.

(** An interval of negative length makes [last] come before [first]: the
    loop would then walk past the end of the sequence. *)
Example difference_set_seg_crossing :
  difference_set_seg true [ (0, 3) ] (5, -10) = Undefined.
Proof. reflexivity. Qed.

Lemma flat_map_unchanged {A : Type} (f : A -> list A) (l : list A) :
  Forall (fun e => f e = [ e ]) l -> flat_map f l = l.
Proof.
  induction 1 as [ | e l He _ IH ]; simpl; [ reflexivity | ].
  rewrite He, IH. reflexivity.
Qed.

(** X8: on an ordered sequence of intervals of positive length, in a build
    without assertions or when the condition of the [assert] holds, the
    binary-search difference is the difference taken interval by interval:
    the intervals it copies without looking are left whole by
    [difference]. *)
Theorem difference_set_seg_elementwise (NDEBUG : bool) (a : list (Z * Z))
        (b : Z * Z) :
  ordered a -> Forall (fun e => 0 < second e) a -> 0 <= second b ->
  NDEBUG = true
  \/ difference_assert a (upper_bound (BlockIndexComp true false) b a)
                       (upper_bound (BlockIndexComp false true) b a) = true ->
  difference_set_seg NDEBUG a b
  = Returns (flat_map (fun e => difference e b) a).
Proof.
  intros Ho Hpos Hb Hc. rewrite (difference_set_seg_any NDEBUG a b Hc).
  unfold difference_set_seg. cbn [negb andb].
  set (i := upper_bound (BlockIndexComp true false) b a).
  set (j := upper_bound (BlockIndexComp false true) b a).
  assert (i <= j)%nat as Hij
    by (apply upper_bound_first_last; [ exact Hb | apply Ho ]).
  destruct (Nat.leb_spec i j) as [_ | Hlt]; [ | lia ].
  f_equal.
  pose proof (split_at_two a i j Hij) as Ea.
  set (P := firstn i a) in *. set (M := firstn (j - i) (skipn i a)) in *.
  set (S := skipn j a) in *.
  assert (Forall (fun e => first e + second e <= first b) P) as HP.
  { eapply Forall_impl; [ | apply upper_bound_prefix ].
    unfold BlockIndexComp. intros e He. apply Z.ltb_ge in He. exact He. }
  assert (Forall (fun e => first b + second b < first e) S) as HS
    by (apply upper_bound_suffix, ordered_by_start, Ho).
  rewrite Ea in Hpos. rewrite !Forall_app in Hpos.
  destruct Hpos as (HpP & _ & HpS).
  rewrite Ea at 1. rewrite !flat_map_app.
  rewrite (flat_map_unchanged _ P), (flat_map_unchanged _ S);
    [ reflexivity | | ].
  - rewrite Forall_forall in *. intros [e1 e2] He.
    specialize (HS _ He). specialize (HpS _ He).
    destruct b as [b1 b2]. unfold_seg. zbool; try lia; seg_eq.
  - rewrite Forall_forall in *. intros [e1 e2] He.
    specialize (HP _ He). specialize (HpP _ He).
    destruct b as [b1 b2]. unfold_seg. zbool; try lia; seg_eq.
Qed.

Lemma difference_set_seg_elementwise_witness :
  difference_set_seg false [ (0, 3) ; (7, 3) ; (12, 2) ] (2, 11)
  = Returns (flat_map (fun e => difference e (2, 11))
                      [ (0, 3) ; (7, 3) ; (12, 2) ]).
Proof.
  apply (difference_set_seg_elementwise false
           [ (0, 3) ; (7, 3) ; (12, 2) ] (2, 11)).
  - split; repeat constructor; unfold before; simpl; lia.
  - repeat constructor.
  - simpl. lia.
  - right. reflexivity.
Defined.

(** ** The difference of an interval and a sequence *)

Lemma difference_fold_spec (a0 : Z * Z) (bs : list (Z * Z)) :
  forall d,
  ordered d -> Forall (within a0) d -> Forall (fun e => 0 <= second e) bs ->
  exists r,
    fold_left (difference_seg_set_step true) bs (Returns d) = Returns r /\
    (forall x, mem_set x r <-> mem_set x d /\ ~ mem_set x bs) /\
    ordered r /\ Forall (within a0) r.
Proof.
  induction bs as [ | b bs IH ]; intros d Ho Hw Hn; simpl.
  - exists d. split; [ reflexivity | split; [ | auto ] ].
    intros x. rewrite mem_set_nil. tauto.
  - inversion Hn as [ | ? ? Hb Hn' ]; subst.
    destruct (difference_set_seg_sound d b Ho Hb)
      as (r1 & E1 & Hm1 & Ho1 & Hw1).
    rewrite E1.
    destruct (IH r1 Ho1) as (r & E & Hm & Hor & Hwr); [ | exact Hn' | ].
    + rewrite Forall_forall in *. intros p Hp.
      destruct (Hw1 p Hp) as (e & He & Hpe). specialize (Hw e He).
      unfold within in *. lia.
    + exists r. split; [ exact E | split; [ | auto ] ].
      intros x. rewrite Hm, Hm1, mem_set_cons. tauto.
Qed.

(** What the difference of an interval and a sequence returns when the
    [assert] is compiled out. *)
Lemma difference_seg_set_sound (a : Z * Z) (bs : list (Z * Z)) :
  0 <= second a -> Forall (fun e => 0 <= second e) bs ->
  exists r,
    difference_seg_set true a bs = Returns r /\
    (forall x, mem_set x r <-> mem x a /\ ~ mem_set x bs) /\
    ordered r /\ Forall (within a) r.
Proof.
  intros Ha Hn. unfold difference_seg_set.
  destruct (difference_fold_spec a bs [ a ]) as (r & E & Hm & Ho & Hw).
  - split; repeat constructor. exact Ha.
  - repeat constructor; unfold within; lia.
  - exact Hn.
  - exists r. split; [ exact E | split; [ | auto ] ].
    intros x. rewrite Hm, mem_set_cons, mem_set_nil. tauto.
Qed.

(** *** Intervals removed in increasing order

    When the intervals removed come in increasing order, every piece left
    but the last one ends before the next interval starts, and the
    condition of the [assert] holds at every step. *)

Lemma upper_bound_app comp v (l t : list (Z * Z)) :
  Forall (fun e => comp v e = false) l ->
  upper_bound comp v (l ++ t) = (length l + upper_bound comp v t)%nat.
Proof.
  induction 1 as [ | e l He _ IH ]; simpl; [ reflexivity | ].
  rewrite He, IH. reflexivity.
Qed.

(** The pieces of [difference (e, b)]: those that end before [b] starts,
    then at most one more. *)
Lemma difference_front (e b : Z * Z) :
  exists d1 d2,
    difference e b = d1 ++ d2 /\ (length d2 <= 1)%nat /\
    Forall (fun p => first p + second p <= first b) d1.
Proof.
  destruct e as [e1 e2], b as [b1 b2].
  unfold difference, first, second. simpl fst. simpl snd.
  destruct (e2 =? 0); [ exists [], []; simpl; auto | ].
  destruct (b2 =? 0); [ exists [], [ (e1, e2) ]; simpl; auto | ].
  cbv zeta.
  exists (if e1 <? b1 then [ (e1, Z.min (e1 + e2) b1 - e1) ] else []),
         (if b1 + b2 <? e1 + e2
          then [ (Z.max e1 (b1 + b2), e1 + e2 - Z.max e1 (b1 + b2)) ]
          else []).
  split; [ reflexivity | split ].
  - destruct (_ <? _); simpl; lia.
  - destruct (Z.ltb_spec e1 b1); constructor; [ simpl; lia | constructor ].
Qed.

Lemma same_position_unchanged (f : Z * Z -> list (Z * Z)) (a : list (Z * Z))
      (i : nat) :
  firstn i a ++ flat_map f (firstn (i - i) (skipn i a)) ++ skipn i a = a.
Proof. rewrite Nat.sub_diag. simpl. apply firstn_skipn. Qed.

Lemma difference_front_step (l t : list (Z * Z)) (f : Z) (b : Z * Z) :
  ordered (l ++ t) -> (length t <= 1)%nat ->
  Forall (fun e => first e + second e <= f) l ->
  f <= first b -> 0 <= second b ->
  difference_assert (l ++ t)
    (upper_bound (BlockIndexComp true false) b (l ++ t))
    (upper_bound (BlockIndexComp false true) b (l ++ t)) = true /\
  exists l' t',
    difference_set_seg true (l ++ t) b = Returns (l' ++ t') /\
    (length t' <= 1)%nat /\
    Forall (fun e => first e + second e <= first b + second b) l'.
Proof.
  intros Ho Ht Hl Hf Hb.
  assert (Forall (fun e => 0 <= second e) l) as Hnl.
  { destruct Ho as [_ Hn]. apply Forall_app in Hn. apply Hn. }
  assert (Forall (fun e => first e + second e <= first b + second b) l)
    as Hl'.
  { eapply Forall_impl; [ | exact Hl ]. simpl. intros; lia. }
  unfold difference_set_seg. cbn [negb andb].
  rewrite !upper_bound_app.
  2:{ rewrite Forall_forall in *. intros e He. unfold BlockIndexComp.
      specialize (Hl e He). specialize (Hnl e He). apply Z.ltb_ge. lia. }
  2:{ rewrite Forall_forall in *. intros e He. unfold BlockIndexComp.
      specialize (Hl e He). apply Z.ltb_ge. lia. }
  destruct t as [ | e [ | e' t ] ]; [ | | simpl in Ht; lia ].
  - simpl upper_bound. rewrite Nat.add_0_r, app_nil_r.
    split.
    + unfold difference_assert. rewrite Nat.eqb_refl. reflexivity.
    + exists l, []. rewrite Nat.leb_refl, same_position_unchanged, app_nil_r.
      auto.
  - assert (0 <= second e) as He.
    { destruct Ho as [_ Hn]. apply Forall_app in Hn. destruct Hn as [_ Hn].
      inversion Hn; assumption. }
    simpl upper_bound. unfold BlockIndexComp.
    destruct (Z.ltb_spec (first b + second b) (first e)) as [H2 | H2].
    + destruct (Z.ltb_spec (first b) (first e + second e)); [ | lia ].
      rewrite Nat.add_0_r. split.
      * unfold difference_assert. rewrite Nat.eqb_refl. reflexivity.
      * exists l, [ e ].
        rewrite Nat.leb_refl, same_position_unchanged. auto.
    + destruct (Z.ltb_spec (first b) (first e + second e)) as [H1 | H1].
      * rewrite Nat.add_0_r. split.
        -- unfold difference_assert. rewrite length_app. simpl.
           rewrite (Nat.eqb_refl (length l + 1)), orb_true_r. reflexivity.
        -- destruct (difference_front e b) as (d1 & d2 & Ed & Hd2 & Hd1).
           exists (l ++ d1), d2.
           destruct (Nat.leb_spec (length l) (length l + 1)); [ | lia ].
           replace (length l + 1 - length l)%nat with 1%nat by lia.
           rewrite firstn_app, firstn_all, Nat.sub_diag. simpl firstn.
           rewrite skipn_app, skipn_all, Nat.sub_diag. simpl skipn.
           rewrite (skipn_all2 (l ++ [ e ]))
             by (rewrite length_app; simpl; lia).
           simpl flat_map. rewrite !app_nil_r, Ed, app_assoc.
           split; [ reflexivity | split; [ exact Hd2 | ] ].
           apply Forall_app. split; [ exact Hl' | ].
           eapply Forall_impl; [ | exact Hd1 ]. simpl. intros; lia.
      * split.
        -- unfold difference_assert. rewrite Nat.eqb_refl. reflexivity.
        -- exists l, [ e ].
           rewrite Nat.leb_refl, same_position_unchanged. auto.
Qed.

Lemma difference_fold_checked (bs : list (Z * Z)) :
  forall l t f,
  ordered bs -> ordered (l ++ t) -> (length t <= 1)%nat ->
  Forall (fun e => first e + second e <= f) l ->
  Forall (fun b => f <= first b) bs ->
  fold_left (difference_seg_set_step false) bs (Returns (l ++ t))
  = fold_left (difference_seg_set_step true) bs (Returns (l ++ t)).
Proof.
  induction bs as [ | b bs IH ]; intros l t f Hbs Ho Ht Hl Hf; simpl;
    [ reflexivity | ].
  apply (ordered_app [ b ] bs) in Hbs. destruct Hbs as (Hb & Hbs & Hbbs).
  assert (0 <= second b) as Hnb
    by (destruct Hb as [_ Hn]; inversion Hn; assumption).
  inversion Hf as [ | ? ? Hfb Hf' ]; subst.
  destruct (difference_front_step l t f b Ho Ht Hl Hfb Hnb)
    as (Hc & l' & t' & E & Ht' & Hl').
  rewrite difference_set_seg_checked, Hc, E.
  destruct (difference_set_seg_sound (l ++ t) b Ho Hnb)
    as (r & Er & _ & Hor & _).
  rewrite E in Er. injection Er as <-.
  apply (IH l' t' (first b + second b)); auto.
  rewrite Forall_forall. intros b' Hb'.
  apply (Hbbs b b' (or_introl eq_refl) Hb').
Qed.

Lemma difference_seg_set_any (NDEBUG : bool) (a : Z * Z)
      (bs : list (Z * Z)) :
  0 <= second a -> NDEBUG = true \/ ordered bs ->
  difference_seg_set NDEBUG a bs = difference_seg_set true a bs.
Proof.
  intros Ha [-> | Hbs]; [ reflexivity | ].
  destruct NDEBUG; [ reflexivity | ].
  unfold difference_seg_set.
  destruct bs as [ | b bs ]; [ reflexivity | ].
  apply (difference_fold_checked (b :: bs) [] [ a ] (first b)).
  - exact Hbs.
  - split; repeat constructor. exact Ha.
  - simpl. lia.
  - constructor.
  - constructor; [ lia | ].
    apply (ordered_app [ b ] bs) in Hbs. destruct Hbs as (Hb & _ & Hbbs).
    destruct Hb as [_ Hn]. inversion Hn as [ | ? ? Hnb _ ]; subst.
    rewrite Forall_forall. intros b' Hb'.
    specialize (Hbbs b b' (or_introl eq_refl) Hb').
    unfold before in Hbbs. lia.
Qed.

(** X9: the difference of an interval and a sequence of intervals returns,
    covers exactly the indices of the interval that are in none of the
    others, and is an ordered sequence of intervals within the first one:
    for every sequence (in any order, overlapping or not) in a build
    without assertions, and for an ordered sequence in a build with
    assertions. *)
Theorem difference_seg_set_spec (NDEBUG : bool) (a : Z * Z)
        (bs : list (Z * Z)) :
  0 <= second a -> Forall (fun e => 0 <= second e) bs ->
  NDEBUG = true \/ ordered bs ->
  exists r,
    difference_seg_set NDEBUG a bs = Returns r /\
    (forall x, mem_set x r <-> mem x a /\ ~ mem_set x bs) /\
    ordered r /\ Forall (within a) r.
Proof.
  intros Ha Hn Hc. rewrite (difference_seg_set_any NDEBUG a bs Ha Hc).
  exact (difference_seg_set_sound a bs Ha Hn).
Qed.

Lemma difference_seg_set_spec_witness :
  exists r,
    difference_seg_set false (0, 10) [ (1, 2) ; (3, 2) ; (6, 2) ] = Returns r /\
    (forall x, mem_set x r
               <-> mem x (0, 10) /\ ~ mem_set x [ (1, 2) ; (3, 2) ; (6, 2) ]) /\
    ordered r /\ Forall (within (0, 10)) r.
Proof.
  apply (difference_seg_set_spec false (0, 10) [ (1, 2) ; (3, 2) ; (6, 2) ]).
  - simpl. lia.
  - repeat constructor; simpl; lia.
  - right. split; repeat constructor; unfold before; simpl; lia.
Defined.

Example difference_seg_set_run :
  difference_seg_set false (0, 10) [ (1, 2) ; (3, 2) ; (6, 2) ]
  = Returns [ (0, 1) ; (5, 1) ; (8, 2) ] /\
  difference_seg_set true (0, 10) [ (6, 2) ; (1, 2) ; (2, 3) ]
  = Returns [ (0, 1) ; (5, 1) ; (8, 2) ] /\
  difference_seg_set false (0, 10) [ (6, 2) ; (1, 2) ; (2, 3) ]
  = AssertionFailure.
Proof. repeat split. Qed.

(** ** The difference of two sequences *)

Lemma difference_set_fold_spec (bs : list (Z * Z)) :
  Forall (fun e => 0 <= second e) bs ->
  forall a acc, Forall (fun e => 0 <= second e) a ->
  exists r,
    fold_left (difference_set_set_step true bs) a (Returns acc) = Returns r /\
    (forall x, mem_set x r
               <-> mem_set x acc \/ (mem_set x a /\ ~ mem_set x bs)) /\
    (ordered a -> ordered acc ->
     (forall p e, In p acc -> In e a -> before p e) -> ordered r).
Proof.
  intros Hb. induction a as [ | e a IH ]; intros acc Hn; simpl.
  - exists acc. split; [ reflexivity | split; [ | auto ] ].
    intros x. rewrite mem_set_nil. tauto.
  - inversion Hn as [ | ? ? He Hn' ]; subst.
    destruct (difference_seg_set_sound e bs He Hb) as (d & E & Hm & Ho & Hw).
    rewrite E.
    destruct (IH (acc ++ d) Hn') as (r & Er & Hmr & Hor).
    exists r. split; [ exact Er | split ].
    + intros x. rewrite Hmr, mem_set_app, Hm, mem_set_cons. tauto.
    + intros Hoa Hoacc Hcross.
      apply (ordered_app [ e ] a) in Hoa. destruct Hoa as (_ & Hoa' & Hea).
      apply Hor; [ exact Hoa' | | ].
      * apply ordered_app. split; [ exact Hoacc | split; [ exact Ho | ] ].
        intros p q Hp Hq. rewrite Forall_forall in Hw.
        specialize (Hw q Hq). specialize (Hcross p e Hp (or_introl eq_refl)).
        unfold before, within in *. lia.
      * intros p e' Hp He'. apply in_app_or in Hp. destruct Hp as [Hp | Hp].
        -- apply Hcross; [ exact Hp | right; exact He' ].
        -- rewrite Forall_forall in Hw. specialize (Hw p Hp).
           specialize (Hea e e' (or_introl eq_refl) He').
           unfold before, within in *. lia.
Qed.

Lemma difference_set_set_any (NDEBUG : bool) (a bs : list (Z * Z)) :
  Forall (fun e => 0 <= second e) a -> NDEBUG = true \/ ordered bs ->
  difference_set_set NDEBUG a bs = difference_set_set true a bs.
Proof.
  intros Ha Hc. unfold difference_set_set. generalize (@nil (Z * Z)).
  induction Ha as [ | e a He _ IH ]; intros acc; simpl; [ reflexivity | ].
  rewrite (difference_seg_set_any NDEBUG e bs He Hc).
  destruct (difference_seg_set true e bs) as [ d | | ].
  - apply IH.
  - clear. induction a; simpl; auto.
  - clear. induction a; simpl; auto.
Qed.

(** X10: the difference of two sequences of intervals returns and covers
    exactly the indices of the first that the second does not cover, and
    is ordered when the first sequence is: for every second sequence in a
    build without assertions, and for an ordered one in a build with
    assertions. *)
Theorem difference_set_set_spec (NDEBUG : bool) (a bs : list (Z * Z)) :
  Forall (fun e => 0 <= second e) a -> Forall (fun e => 0 <= second e) bs ->
  NDEBUG = true \/ ordered bs ->
  exists r,
    difference_set_set NDEBUG a bs = Returns r /\
    (forall x, mem_set x r <-> mem_set x a /\ ~ mem_set x bs) /\
    (ordered a -> ordered r).
Proof.
  intros Ha Hb Hc. rewrite (difference_set_set_any NDEBUG a bs Ha Hc).
  unfold difference_set_set.
  destruct (difference_set_fold_spec bs Hb a [] Ha) as (r & E & Hm & Ho).
  exists r. split; [ exact E | split ].
  - intros x. rewrite Hm, mem_set_nil. tauto.
  - intros Hoa. apply Ho; [ exact Hoa | split; constructor | intros p e [] ].
Qed.

Lemma difference_set_set_spec_witness :
  exists r,
    difference_set_set false [ (0, 5) ; (7, 3) ] [ (3, 5) ; (9, 4) ]
    = Returns r /\
    (forall x, mem_set x r
               <-> mem_set x [ (0, 5) ; (7, 3) ]
                   /\ ~ mem_set x [ (3, 5) ; (9, 4) ]) /\
    (ordered [ (0, 5) ; (7, 3) ] -> ordered r).
Proof.
  apply (difference_set_set_spec false [ (0, 5) ; (7, 3) ]
           [ (3, 5) ; (9, 4) ]).
  - repeat constructor; simpl; lia.
  - repeat constructor; simpl; lia.
  - right. split; repeat constructor; unfold before; simpl; lia.
Defined.

Example difference_set_set_run :
  difference_set_set false [ (0, 5) ; (7, 3) ] [ (3, 5) ; (9, 4) ]
  = Returns [ (0, 3) ; (8, 1) ] /\
  difference_set_set true [ (0, 5) ; (7, 3) ] [ (8, 1) ; (3, 5) ]
  = Returns [ (0, 3) ; (9, 1) ].
Proof. split; reflexivity. Qed.

(* ================================================================== *)
(** * More on comparison and saturation                                *)
(* ================================================================== *)

(** The loop of [applyComparison] at a row of the index list whose
    comparison type is [Superior], from any intermediate state. *)
Lemma applyComparison_loop_Superior cj comparison thr indices :
  forall st j,
  NoDup indices -> In j indices ->
  nth_error comparison j = Some Superior ->
  (j < length (fst st))%nat -> (j < length (snd st))%nat ->
  let v := nth j (fst st) 0%Q in
  let r := fold_left (applyComparison_step cj comparison thr) indices st in
  ((v < thr)%Q ->
   nth j (fst r) 0%Q = (v - thr)%Q /\ nth j (snd r) [] = nth j (snd st) [])
  /\
  (~ (v < thr)%Q ->
   nth j (fst r) 0%Q = 0%Q /\
   nth j (snd r) [] = if cj then Dense.setZero (nth j (snd st) [])
                      else nth j (snd st) []).
Proof.
  induction indices as [ | i indices IH ]; intros st j Hnd Hin Hcmp Hv Hj;
    [ destruct Hin | ].
  apply NoDup_cons_iff in Hnd. destruct Hnd as [Hni Hnd]. simpl fold_left.
  destruct (Nat.eq_dec i j) as [-> | Hij].
  - destruct (applyComparison_other cj comparison thr indices
                (applyComparison_step cj comparison thr st j) j Hni)
      as [E1 E2].
    cbv zeta. rewrite E1, E2. clear E1 E2 IH.
    destruct st as [value jacobian]. simpl fst in *. simpl snd in *.
    unfold applyComparison_step. rewrite Hcmp. unfold compare. simpl.
    destruct (Qltb (nth j value 0%Q) thr) eqn:E; simpl;
      rewrite !nth_upd_eq by assumption.
    + apply Qltb_lt in E. split; [ auto | intros H; contradiction ].
    + apply Qltb_nlt in E. split; [ intros H; contradiction | auto ].
  - destruct Hin as [-> | Hin]; [ congruence | ].
    destruct (applyComparison_step_other cj comparison thr st i j Hij)
      as [E1 E2].
    destruct (applyComparison_step_length cj comparison thr st i)
      as [L1 L2].
    specialize (IH (applyComparison_step cj comparison thr st i) j
                   Hnd Hin Hcmp).
    rewrite L1, L2 in IH. specialize (IH Hv Hj). cbv zeta in IH |- *.
    rewrite E1, E2 in IH. exact IH.
Qed.

(** X11: for every row of the index list whose comparison type is
    [Superior]: if [v < thr] the value becomes [v - thr] and the Jacobian
    row is kept; otherwise the value is set to 0 and the Jacobian row is
    zeroed (when the Jacobian is computed). *)
Theorem applyComparison_Superior cj comparison indices value jacobian thr j :
  NoDup indices -> In j indices ->
  nth_error comparison j = Some Superior ->
  (j < length value)%nat -> (j < length jacobian)%nat ->
  let v := nth j value 0%Q in
  let r := applyComparison cj comparison indices value jacobian thr in
  ((v < thr)%Q ->
   nth j (fst r) 0%Q = (v - thr)%Q /\ nth j (snd r) [] = nth j jacobian [])
  /\
  (~ (v < thr)%Q ->
   nth j (fst r) 0%Q = 0%Q /\
   nth j (snd r) [] = if cj then Dense.setZero (nth j jacobian [])
                      else nth j jacobian []).
Proof.
  intros Hnd Hin Hcmp Hv Hj.
  exact (applyComparison_loop_Superior cj comparison thr indices
           (value, jacobian) j Hnd Hin Hcmp Hv Hj).
Qed.

Lemma applyComparison_Superior_witness :
  let r := applyComparison true [ Superior ; Equality ] [ 0%nat ]
                           [ 4%Q ; 1%Q ] [ [ 1%Q ] ; [ 2%Q ] ] (1 # 100) in
  ((4 < 1 # 100)%Q ->
   nth 0 (fst r) 0%Q = (4 - (1 # 100))%Q /\ nth 0 (snd r) [] = [ 1%Q ])
  /\
  (~ (4 < 1 # 100)%Q ->
   nth 0 (fst r) 0%Q = 0%Q /\ nth 0 (snd r) [] = Dense.setZero [ 1%Q ]).
Proof.
  apply (applyComparison_Superior true [ Superior ; Equality ] [ 0%nat ]
           [ 4%Q ; 1%Q ] [ [ 1%Q ] ; [ 2%Q ] ] (1 # 100) 0%nat).
  - repeat constructor. simpl. tauto.
  - simpl. tauto.
  - reflexivity.
  - simpl. lia.
  - simpl. lia.
Defined.

Lemma upd_nth_same {A : Type} (j : nat) (d : A) (l : list A) :
  Dense.upd j (nth j l d) l = l.
Proof.
  revert j; induction l as [ | x l IH ]; intros [ | j ]; simpl; auto.
  rewrite IH. reflexivity.
Qed.

Lemma applyComparison_step_keeps cj comparison thr st i j :
  i <> j \/ nth_error comparison j = Some Equality
  \/ nth_error comparison j = Some EqualToZero
  \/ nth_error comparison j = None ->
  nth j (fst (applyComparison_step cj comparison thr st i)) 0%Q
  = nth j (fst st) 0%Q
  /\ nth j (snd (applyComparison_step cj comparison thr st i)) []
     = nth j (snd st) [].
Proof.
  intros [Hij | H].
  - apply applyComparison_step_other. exact Hij.
  - destruct (Nat.eq_dec i j) as [-> | Hij];
      [ | apply applyComparison_step_other; exact Hij ].
    destruct st as [value jacobian]. unfold applyComparison_step.
    destruct H as [-> | [-> | ->] ]; auto.
Qed.

Lemma applyComparison_step_no_jacobian comparison thr st i :
  snd (applyComparison_step false comparison thr st i) = snd st.
Proof.
  destruct st as [value jacobian]. unfold applyComparison_step, compare.
  destruct (nth_error comparison i) as [ [ | | | ] | ]; simpl; auto;
    match goal with |- context [if ?c then _ else _] => destruct c end;
    simpl; apply upd_nth_same.
Qed.

Lemma applyComparison_loop_frame cj comparison thr indices :
  forall st,
  let r := fold_left (applyComparison_step cj comparison thr) indices st in
  length (fst r) = length (fst st) /\
  length (snd r) = length (snd st) /\
  (forall j,
     ~ In j indices \/ nth_error comparison j = Some Equality
     \/ nth_error comparison j = Some EqualToZero ->
     nth j (fst r) 0%Q = nth j (fst st) 0%Q /\
     nth j (snd r) [] = nth j (snd st) []) /\
  (cj = false -> snd r = snd st).
Proof.
  induction indices as [ | i indices IH ]; intros st; simpl fold_left;
    cbv zeta.
  - repeat split; auto.
  - destruct (IH (applyComparison_step cj comparison thr st i))
      as (L1 & L2 & Hk & Hj).
    destruct (applyComparison_step_length cj comparison thr st i) as [S1 S2].
    split; [ congruence | split; [ congruence | split ] ].
    + intros j Hcond.
      destruct (Hk j) as [E1 E2].
      { destruct Hcond as [Hni | Hc]; [ left | right; exact Hc ].
        intros H. apply Hni. right. exact H. }
      destruct (applyComparison_step_keeps cj comparison thr st i j)
        as [E3 E4].
      { destruct Hcond as [Hni | [Hc | Hc] ]; auto.
        left. intros ->. apply Hni. left. reflexivity. }
      split; congruence.
    + intros ->. rewrite Hj by reflexivity.
      apply applyComparison_step_no_jacobian.
Qed.

(** X12: [applyComparison] keeps the sizes of the value and of the
    Jacobian; it leaves alone every row that is not in the index list and
    every row whose comparison type is [Equality] or [EqualToZero], listed
    or not; and without [ComputeJac] it does not change the Jacobian. *)
Theorem applyComparison_frame cj comparison indices value jacobian thr :
  let r := applyComparison cj comparison indices value jacobian thr in
  length (fst r) = length value /\
  length (snd r) = length jacobian /\
  (forall j,
     ~ In j indices \/ nth_error comparison j = Some Equality
     \/ nth_error comparison j = Some EqualToZero ->
     nth j (fst r) 0%Q = nth j value 0%Q /\
     nth j (snd r) [] = nth j jacobian []) /\
  (cj = false -> snd r = jacobian).
Proof.
  exact (applyComparison_loop_frame cj comparison thr indices
           (value, jacobian)).
Qed.

(** X13: when every coordinate of [q] lies strictly between its bounds,
    [Bounds::saturate] copies [q], sets every sign to 0 and returns
    [false]. *)
Theorem Bounds_saturate_inside (b : Bounds) (q qSat : list Q)
        (saturation : list Z) :
  length qSat = length q -> length saturation = length q ->
  (forall i, (i < length q)%nat ->
             (nth i (lb b) 0 < nth i q 0 < nth i (ub b) 0)%Q) ->
  Bounds_saturate b q qSat saturation = (false, q, repeat 0 (length q)).
Proof.
  intros Hq Hs Hin. unfold Bounds_saturate.
  destruct (saturate_prefix b q qSat saturation (length q) (le_n _)
              ltac:(lia) ltac:(lia)) as (L1 & L2 & Hsat & Hnth).
  assert (forall i, (i < length q)%nat ->
            clamp (nth i (lb b) 0%Q) (nth i (ub b) 0%Q) (nth i q 0%Q)
            = (false, nth i q 0%Q, 0)) as Hc.
  { intros i Hi. destruct (Hin i Hi) as [H1 H2].
    destruct (clamp_cases (nth i (lb b) 0%Q) (nth i (ub b) 0%Q)
                          (nth i q 0%Q))
      as [ [H _] | [ (_ & H & _) | (_ & _ & E) ] ];
      [ q_contra | q_contra | exact E ]. }
  destruct (fold_left (saturate_step b q) (seq 0 (length q))
                      (false, qSat, saturation)) as [ [sat qS] sg ].
  simpl in *. f_equal; [ f_equal | ].
  - rewrite Hsat. apply not_true_is_false. intros H.
    apply existsb_exists in H. destruct H as (i & Hi & Hf).
    apply in_seq in Hi. rewrite Hc in Hf by lia. discriminate.
  - apply (nth_ext _ _ 0%Q 0%Q); [ congruence | ].
    intros i Hi. destruct (Hnth i ltac:(lia)) as [E _].
    rewrite E, Hc by lia. reflexivity.
  - apply (nth_ext _ _ 0 0); [ rewrite repeat_length; congruence | ].
    intros i Hi. destruct (Hnth i ltac:(lia)) as [_ E].
    rewrite E, Hc by lia. simpl. rewrite nth_repeat_lt by lia. reflexivity.
Qed.

Lemma Bounds_saturate_inside_witness :
  Bounds_saturate {| lb := [ 0 ; 0 ]%Q; ub := [ 2 ; 2 ]%Q |}
                  [ 1 ; 1 # 2 ]%Q [ 1 ; 1 # 2 ]%Q [ 7 ; 7 ]
  = (false, [ 1 ; 1 # 2 ]%Q, repeat 0 (length [ 1 ; 1 # 2 ]%Q)).
Proof.
  apply (Bounds_saturate_inside {| lb := [ 0 ; 0 ]%Q; ub := [ 2 ; 2 ]%Q |}
           [ 1 ; 1 # 2 ]%Q [ 1 ; 1 # 2 ]%Q [ 7 ; 7 ]).
  - reflexivity.
  - reflexivity.
  - intros i Hi. simpl in Hi.
    do 2 (destruct i as [ | i ]; [ split; vm_compute; reflexivity | ]). lia.
Defined.

(* ================================================================== *)
(** * More on the solver                                               *)
(* ================================================================== *)

Section SolverMore.

Context {Eigen : JacobiSVD}.
Variable function_eq : DifferentiableFunction -> DifferentiableFunction -> bool.

(** ** [add] when it succeeds *)

Lemma at_index_length {A : Type} (i : nat) (g : A -> A) (l : list A) :
  length (at_index i g l) = length l.
Proof.
  revert i; induction l as [ | x l IH ]; intros [ | i ]; simpl; auto.
Qed.

Lemma nth_at_index_eq {A : Type} (i : nat) (g : A -> A) (l : list A) (d : A) :
  (i < length l)%nat -> nth i (at_index i g l) d = g (nth i l d).
Proof.
  revert i; induction l as [ | x l IH ]; intros [ | i ]; simpl; intros H;
    try lia; auto. apply IH. lia.
Qed.

Lemma nth_at_index_neq {A : Type} (i j : nat) (g : A -> A) (l : list A)
      (d : A) :
  i <> j -> nth j (at_index i g l) d = nth j l d.
Proof.
  revert i j; induction l as [ | x l IH ]; intros [ | i ] [ | j ]; simpl;
    intros H; try congruence; auto.
Qed.

Lemma at_index_Forall {A : Type} (P : A -> Prop) (i : nat) (g : A -> A)
      (l : list A) :
  (forall x, P x -> P (g x)) -> Forall P l -> Forall P (at_index i g l).
Proof.
  intros Hg. revert i; induction l as [ | x l IH ]; intros [ | i ] Hl;
    simpl; auto; inversion Hl; subst; constructor; auto.
Qed.

Lemma vector_grow_length {A : Type} (n : nat) (x : A) (l : list A) :
  length (vector_grow n x l) = Nat.max (length l) n.
Proof.
  unfold vector_grow. rewrite length_app, repeat_length. lia.
Qed.

Lemma nth_vector_grow {A : Type} (n j : nat) (x : A) (l : list A) :
  nth j (vector_grow n x l) x = nth j l x.
Proof.
  unfold vector_grow. destruct (Nat.lt_ge_cases j (length l)).
  - apply app_nth1. assumption.
  - rewrite app_nth2 by assumption. rewrite (nth_overflow l) by assumption.
    destruct (Nat.lt_ge_cases (j - length l) (n - length l)).
    + apply nth_repeat_lt. assumption.
    + apply nth_overflow. rewrite repeat_length. assumption.
Qed.

Lemma update_levels_length freeVariables n stacks :
  forall i datas,
  length (update_levels freeVariables n i stacks datas) = length datas.
Proof.
  induction stacks as [ | cs stacks IH ]; intros i [ | d datas ]; simpl; auto.
Qed.

(** What [add] does when no recorded function equals the new one. *)
Lemma add_success_state (constraint : Implicit) (priority : nat)
      (s : HierarchicalIterative) :
  existsb (fun arg => function_eq (pointee (fst arg))
                                  (pointee (functionPtr constraint)))
          (priority_ s) = false ->
  exists grown,
    (grown = if Nat.ltb (length (stacks_ s)) (priority + 1)
             then set_datas_ (vector_grow (priority + 1) Data_default
                                          (datas_ s))
                    (set_stacks_ (vector_grow (priority + 1) [] (stacks_ s)) s)
             else s) /\
    fst (add function_eq constraint priority s) = inr true /\
    constraints_ (snd (add function_eq constraint priority s))
    = constraints_ s ++ [ constraint ] /\
    priority_ (snd (add function_eq constraint priority s))
    = map_set (functionPtr constraint) priority (priority_ s) /\
    stacks_ (snd (add function_eq constraint priority s))
    = at_index priority (fun cs => cs ++ [ constraint ]) (stacks_ grown) /\
    length (datas_ (snd (add function_eq constraint priority s)))
    = length (datas_ grown) /\
    freeVariables_ (snd (add function_eq constraint priority s))
    = freeVariables_ s /\
    dq_ (snd (add function_eq constraint priority s))
    = Dense.Zero (snd (configSpace_ s)).
Proof.
  intros Hnew. eexists. split; [ reflexivity | ].
  unfold add, bind, get, modify, ret. rewrite Hnew. simpl.
  destruct (Nat.ltb (length (stacks_ s)) (priority + 1)); simpl;
    rewrite update_levels_length, !at_index_length; repeat split.
Qed.

(** X14: when no recorded function equals the function of the new
    constraint, [add] returns [true], appends the constraint to the list of
    constraints and to its priority level, creates the levels that are
    missing up to that priority, leaves the other levels as they are, and
    keeps one [Data] per level. *)
Theorem add_success (constraint : Implicit) (priority : nat)
        (s : HierarchicalIterative) :
  existsb (fun arg => function_eq (pointee (fst arg))
                                  (pointee (functionPtr constraint)))
          (priority_ s) = false ->
  length (datas_ s) = length (stacks_ s) ->
  let r := add function_eq constraint priority s in
  fst r = inr true /\
  constraints_ (snd r) = constraints_ s ++ [ constraint ] /\
  length (stacks_ (snd r)) = Nat.max (length (stacks_ s)) (priority + 1) /\
  length (datas_ (snd r)) = length (stacks_ (snd r)) /\
  nth priority (stacks_ (snd r)) [] = nth priority (stacks_ s) []
                                      ++ [ constraint ] /\
  (forall i, i <> priority ->
             nth i (stacks_ (snd r)) [] = nth i (stacks_ s) []).
Proof.
  intros Hnew Hlen. cbv zeta.
  destruct (add_success_state constraint priority s Hnew)
    as (grown & Eg & Hr & Hc & _ & Hst & Hd & _).
  rewrite Hr, Hc, Hst, Hd, !at_index_length.
  assert (length (stacks_ grown) = Nat.max (length (stacks_ s)) (priority + 1)
          /\ length (datas_ grown) = length (stacks_ grown)
          /\ forall i, nth i (stacks_ grown) [] = nth i (stacks_ s) [])
    as (L1 & L2 & Hn).
  { subst grown.
    destruct (Nat.ltb_spec (length (stacks_ s)) (priority + 1)); simpl.
    - rewrite !vector_grow_length. repeat split; try lia.
      intros i. apply nth_vector_grow.
    - repeat split; auto; lia. }
  repeat split; auto.
  - rewrite nth_at_index_eq by lia. rewrite Hn. reflexivity.
  - intros i Hi. rewrite nth_at_index_neq by congruence. apply Hn.
Qed.

(** ** The inequality indices *)

Lemma add_comparison_fields (d : Data) (c : ComparisonType) :
  comparison (add_comparison d c) = comparison d ++ [ c ] /\
  inequalityIndices (add_comparison d c)
  = inequalityIndices d
    ++ match c with
       | Superior | Inferior => [ length (comparison d) ]
       | _ => []
       end.
Proof.
  unfold add_comparison. destruct c; simpl; rewrite ?app_nil_r; auto.
Qed.

Lemma add_comparison_exact (d : Data) (c : ComparisonType) :
  inequalityIndices_exact d -> inequalityIndices_exact (add_comparison d c).
Proof.
  intros [Hnd Hin]. destruct (add_comparison_fields d c) as [Ec Ei].
  unfold inequalityIndices_exact. rewrite Ec, Ei.
  assert (~ In (length (comparison d)) (inequalityIndices d)) as Hfresh.
  { intros H. apply Hin in H.
    rewrite (proj2 (nth_error_None (comparison d) _) (le_n _)) in H.
    destruct H; discriminate. }
  assert (forall j, nth_error (comparison d ++ [ c ]) j
                    = if Nat.ltb j (length (comparison d))
                      then nth_error (comparison d) j
                      else if Nat.eqb j (length (comparison d)) then Some c
                           else None) as Hnth.
  { intros j. destruct (Nat.ltb_spec j (length (comparison d))).
    - apply nth_error_app1. assumption.
    - rewrite nth_error_app2 by assumption.
      destruct (Nat.eqb_spec j (length (comparison d))) as [-> | Hne].
      + rewrite Nat.sub_diag. reflexivity.
      + apply nth_error_None. simpl. lia. }
  split.
  - destruct c; rewrite ?app_nil_r; auto;
      apply NoDup_app; repeat split; auto using NoDup_cons, NoDup_nil;
      try (constructor; [ simpl; tauto | constructor ]);
      intros x Hx [<- | [ ] ]; auto.
  - intros j. rewrite in_app_iff, Hin, Hnth.
    destruct (Nat.ltb_spec j (length (comparison d))) as [Hlt | Hge].
    + destruct c; simpl; intuition lia.
    + rewrite (proj2 (nth_error_None (comparison d) j) Hge).
      destruct (Nat.eqb_spec j (length (comparison d))) as [-> | Hne];
        destruct c; simpl; intuition (try discriminate; try lia; auto).
Qed.

Lemma update_levels_exact freeVariables n stacks :
  forall i datas,
  Forall inequalityIndices_exact datas ->
  Forall inequalityIndices_exact (update_levels freeVariables n i stacks datas).
Proof.
  induction stacks as [ | cs stacks IH ]; intros i [ | d datas ] H; simpl;
    auto.
  inversion H; subst. constructor; auto.
Qed.

Lemma fold_add_comparison_exact (comp : list ComparisonType) :
  forall d, inequalityIndices_exact d ->
            inequalityIndices_exact (fold_left add_comparison comp d).
Proof.
  induction comp as [ | c comp IH ]; intros d Hd; simpl; [ exact Hd | ].
  apply IH, add_comparison_exact, Hd.
Qed.

Lemma Data_default_exact : inequalityIndices_exact Data_default.
Proof.
  split; [ constructor | ].
  intros j. simpl. destruct j; simpl;
    (split; [ intros [ ] | intros [H | H]; discriminate ]).
Qed.

(** X15: [add] keeps, in every level, the list of inequality indices
    duplicate-free and equal to the set of rows of the comparison vector
    that are [Superior] or [Inferior]: the rows [applyComparison] is run
    on. *)
Theorem add_keeps_inequalityIndices (constraint : Implicit) (priority : nat)
        (s : HierarchicalIterative) :
  Forall inequalityIndices_exact (datas_ s) ->
  Forall inequalityIndices_exact
         (datas_ (snd (add function_eq constraint priority s))).
Proof.
  intros Hs. unfold add, bind, get, modify, ret, throw.
  destruct (existsb _ (priority_ s)); [ exact Hs | ].
  assert (Forall inequalityIndices_exact
                 (vector_grow (priority + 1) Data_default (datas_ s)))
    as Hgrown.
  { unfold vector_grow. apply Forall_app. split; [ exact Hs | ].
    apply Forall_forall. intros d Hd. apply repeat_spec in Hd. subst d.
    apply Data_default_exact. }
  simpl.
  destruct (Nat.ltb (length (stacks_ s)) (priority + 1)); simpl;
    apply update_levels_exact;
    (apply at_index_Forall; [ intros d Hd; exact Hd | ]);
    (apply at_index_Forall; [ apply fold_add_comparison_exact | ]);
    assumption.
Qed.

(** ** Adding a constraint twice *)

Lemma map_set_key {T : Type} (f : DifferentiableFunctionPtr_t) (v : T) m :
  exists g, In (g, v) (map_set f v m) /\
            (g = f \/ (address g = address f /\ exists w, In (g, w) m)).
Proof.
  induction m as [ | [g w] m IH ]; simpl.
  - exists f. auto.
  - destruct (Nat.ltb (address f) (address g)); [ exists f; simpl; auto | ].
    destruct (Nat.eqb_spec (address f) (address g)) as [E | _].
    + exists g. simpl. split; [ auto | right ]. split; [ auto | eauto ].
    + destruct IH as (h & Hh & [-> | (Ea & u & Hu) ]).
      * exists f. simpl. auto.
      * exists h. simpl. split; [ auto | right ]. split; [ auto | eauto ].
Qed.

(** X16: a constraint that has just been added cannot be added again, at
    any priority: the second [add] throws and changes nothing.  It is
    assumed that the function equals itself and that a pointer recorded
    with the address of the function points to that function. *)
Theorem add_twice_throws (constraint : Implicit) (priority priority' : nat)
        (s : HierarchicalIterative) :
  existsb (fun arg => function_eq (pointee (fst arg))
                                  (pointee (functionPtr constraint)))
          (priority_ s) = false ->
  function_eq (pointee (functionPtr constraint))
              (pointee (functionPtr constraint)) = true ->
  (forall g q, In (g, q) (priority_ s) ->
               address g = address (functionPtr constraint) ->
               pointee g = pointee (functionPtr constraint)) ->
  let s' := snd (add function_eq constraint priority s) in
  add function_eq constraint priority' s'
  = (inl (logic_error (already_in_solver (functionPtr constraint))), s').
Proof.
  intros Hnew Hrefl Hptr. cbv zeta.
  destruct (add_success_state constraint priority s Hnew)
    as (grown & _ & _ & _ & Hp & _).
  remember (snd (add function_eq constraint priority s)) as s' eqn:Es'.
  clear Es'. unfold add, bind, get, throw.
  assert (existsb (fun arg => function_eq (pointee (fst arg))
                                (pointee (functionPtr constraint)))
                  (priority_ s') = true) as ->; [ | reflexivity ].
  apply existsb_exists. rewrite Hp.
  destruct (map_set_key (functionPtr constraint) priority (priority_ s))
    as (g & Hin & Hg).
  exists (g, priority). split; [ exact Hin | ]. simpl.
  destruct Hg as [-> | (Ea & w & Hw) ]; [ exact Hrefl | ].
  rewrite (Hptr g w Hw Ea). exact Hrefl.
Qed.

(** ** [computeError] within range *)

Lemma computeError_loop_done stacks :
  forall datas end_ i sq,
  length datas = length stacks -> end_ <= i + Z.of_nat (length stacks) ->
  exists sq', computeError_loop end_ i stacks datas sq = Done sq'.
Proof.
  induction stacks as [ | cs stacks IH ]; intros [ | d datas ] end_ i sq Hlen Hle;
    simpl in Hlen; try discriminate; cbn [computeError_loop].
  - simpl in Hle. destruct (Z.ltb_spec i end_); [ lia | eauto ].
  - destruct (Z.ltb_spec i end_); [ | eauto ].
    apply IH; [ lia | ]. cbn [length] in Hle. lia.
Qed.

(** The levels from the bound on are not read. *)
Lemma computeError_loop_app stacks :
  forall datas stacks2 datas2 i sq,
  length datas = length stacks ->
  computeError_loop (i + Z.of_nat (length stacks)) i
                    (stacks ++ stacks2) (datas ++ datas2) sq
  = computeError_loop (i + Z.of_nat (length stacks)) i stacks datas sq.
Proof.
  induction stacks as [ | cs stacks IH ];
    intros [ | d datas ] stacks2 datas2 i sq Hlen;
    simpl in Hlen; try discriminate.
  - simpl. rewrite Z.add_0_r, Z.ltb_irrefl.
    destruct stacks2, datas2; simpl; rewrite ?Z.ltb_irrefl; reflexivity.
  - cbn [computeError_loop length app].
    replace (i + Z.of_nat (S (length stacks)))
      with ((i + 1) + Z.of_nat (length stacks)) by lia.
    destruct (Z.ltb_spec i (i + 1 + Z.of_nat (length stacks))); [ | lia ].
    apply IH. lia.
Qed.

(** X17: [computeError] reads no level past the end as soon as the solver
    has a level, or has none and its last level is not optional. *)
Theorem computeError_within_range (s : HierarchicalIterative) :
  length (datas_ s) = length (stacks_ s) ->
  Z.of_nat (length (stacks_ s)) < 2 ^ 64 ->
  (lastIsOptional_ s = true -> (0 < length (stacks_ s))%nat) ->
  exists sq, computeError s = Done (set_squaredNorm_ sq s).
Proof.
  intros Hlen Hsize Hopt. unfold computeError.
  destruct (computeError_loop_done (stacks_ s) (datas_ s)
              (if lastIsOptional_ s
               then size_t_sub (Z.of_nat (length (stacks_ s))) 1
               else Z.of_nat (length (stacks_ s))) 0 0%Q Hlen) as (sq & E).
  - destruct (lastIsOptional_ s); [ | lia ].
    specialize (Hopt eq_refl). unfold size_t_sub.
    rewrite Z.mod_small; lia.
  - rewrite E. eauto.
Qed.

(** X18: with an optional last level, [computeError] gives the error of
    the solver made of the other levels: the error of the last level is not
    read. *)
Theorem computeError_optional_last_excluded (s : HierarchicalIterative)
        stacks last datas d :
  stacks_ s = stacks ++ [ last ] -> datas_ s = datas ++ [ d ] ->
  length datas = length stacks ->
  Z.of_nat (length stacks) + 1 < 2 ^ 64 ->
  lastIsOptional_ s = true ->
  exists sq,
    computeError s = Done (set_squaredNorm_ sq s) /\
    computeError (set_lastIsOptional_ false
                    (set_datas_ datas (set_stacks_ stacks s)))
    = Done (set_squaredNorm_ sq
              (set_lastIsOptional_ false
                 (set_datas_ datas (set_stacks_ stacks s)))).
Proof.
  intros Es Ed Hlen Hsize Hopt.
  destruct (computeError_loop_done stacks datas
              (0 + Z.of_nat (length stacks)) 0 0%Q Hlen ltac:(lia))
    as (sq & E).
  exists sq. unfold computeError. rewrite Hopt, Es, Ed. simpl.
  rewrite length_app. simpl length.
  replace (size_t_sub (Z.of_nat (length stacks + 1)) 1)
    with (0 + Z.of_nat (length stacks)).
  - rewrite computeError_loop_app by exact Hlen.
    simpl Z.add in E |- *. rewrite E. split; reflexivity.
  - unfold size_t_sub. rewrite Z.mod_small; lia.
Qed.

(** ** [computeError] bounds every constraint *)

Lemma stack_outputDerivativeSize_shift (cs : list Implicit) :
  forall a,
  fold_left (fun n c => n + outputDerivativeSize (pointee (functionPtr c)))
            cs a
  = a + stack_outputDerivativeSize cs.
Proof.
  unfold stack_outputDerivativeSize.
  induction cs as [ | c cs IH ]; intros a; simpl; [ lia | ].
  rewrite IH.
  rewrite (IH (outputDerivativeSize (pointee (functionPtr c)))). lia.
Qed.

Lemma stack_outputDerivativeSize_app (pre post : list Implicit) :
  stack_outputDerivativeSize (pre ++ post)
  = stack_outputDerivativeSize pre + stack_outputDerivativeSize post.
Proof.
  unfold stack_outputDerivativeSize at 1. rewrite fold_left_app.
  rewrite stack_outputDerivativeSize_shift. reflexivity.
Qed.

Lemma computeError_level_ge (cs : list Implicit) (d : Data) :
  forall iv sq, (sq <= computeError_level cs d iv sq)%Q.
Proof.
  induction cs as [ | c cs IH ]; intros iv sq; simpl.
  - apply Qle_refl.
  - eapply Qle_trans; [ apply Q.le_max_l | apply IH ].
Qed.

Lemma computeError_level_bound (cs : list Implicit) (d : Data) :
  forall iv sq pre c post,
  cs = pre ++ c :: post ->
  (Dense.squaredNorm
     (Dense.segment (iv + stack_outputDerivativeSize pre)
                    (outputDerivativeSize (pointee (functionPtr c)))
                    (error d))
   <= computeError_level cs d iv sq)%Q.
Proof.
  induction cs as [ | c0 cs IH ]; intros iv sq pre c post E.
  - destruct pre; discriminate.
  - destruct pre as [ | p pre ]; simpl in E; inversion E; subst.
    + simpl. unfold stack_outputDerivativeSize. simpl. rewrite Z.add_0_r.
      eapply Qle_trans; [ apply Q.le_max_r | apply computeError_level_ge ].
    + simpl.
      replace (iv + stack_outputDerivativeSize (p :: pre))
        with ((iv + outputDerivativeSize (pointee (functionPtr p)))
              + stack_outputDerivativeSize pre).
      * apply (IH _ _ pre c post). reflexivity.
      * change (p :: pre) with ([ p ] ++ pre).
        rewrite stack_outputDerivativeSize_app.
        unfold stack_outputDerivativeSize at 2. simpl. lia.
Qed.

Lemma computeError_loop_ge stacks :
  forall datas end_ i sq sq',
  computeError_loop end_ i stacks datas sq = Done sq' -> (sq <= sq')%Q.
Proof.
  induction stacks as [ | cs stacks IH ]; intros datas end_ i sq sq' E.
  - simpl in E. destruct datas; destruct (i <? end_); inversion E;
      apply Qle_refl.
  - destruct datas as [ | d datas ]; cbn [computeError_loop] in E.
    + destruct (i <? end_); inversion E. apply Qle_refl.
    + destruct (i <? end_); [ | inversion E; apply Qle_refl ].
      eapply Qle_trans; [ apply computeError_level_ge | ].
      eapply IH. exact E.
Qed.

Lemma computeError_loop_bound stacks :
  forall datas end_ i sq sq' k cs d pre c post,
  computeError_loop end_ i stacks datas sq = Done sq' ->
  nth_error stacks k = Some cs -> nth_error datas k = Some d ->
  i + Z.of_nat k < end_ ->
  cs = pre ++ c :: post ->
  (Dense.squaredNorm
     (Dense.segment (stack_outputDerivativeSize pre)
                    (outputDerivativeSize (pointee (functionPtr c)))
                    (error d)) <= sq')%Q.
Proof.
  induction stacks as [ | cs0 stacks IH ];
    intros datas end_ i sq sq' k cs d pre c post E Hs Hd Hk Hcs.
  - destruct k; discriminate.
  - destruct datas as [ | d0 datas ]; [ destruct k; discriminate | ].
    cbn [computeError_loop] in E.
    destruct k as [ | k ]; simpl in Hs, Hd.
    + inversion Hs; inversion Hd; subst cs0 d0.
      destruct (Z.ltb_spec i end_); [ | lia ].
      eapply Qle_trans; [ | eapply computeError_loop_ge; exact E ].
      pose proof (computeError_level_bound cs d 0 sq pre c post Hcs) as H0.
      simpl Z.add in H0. exact H0.
    + destruct (Z.ltb_spec i end_); [ | lia ].
      eapply (IH _ _ _ _ _ k); eauto. lia.
Qed.

(** X19: the squared norm [computeError] stores is not negative and is at
    least the squared norm of the error of every constraint of every level
    it counts (every level but an optional last one). *)
Theorem computeError_bounds (s s' : HierarchicalIterative) :
  computeError s = Done s' ->
  (0 <= squaredNorm_ s')%Q /\
  forall k cs d pre c post,
    nth_error (stacks_ s) k = Some cs -> nth_error (datas_ s) k = Some d ->
    Z.of_nat k < (if lastIsOptional_ s
                  then size_t_sub (Z.of_nat (length (stacks_ s))) 1
                  else Z.of_nat (length (stacks_ s))) ->
    cs = pre ++ c :: post ->
    (Dense.squaredNorm
       (Dense.segment (stack_outputDerivativeSize pre)
                      (outputDerivativeSize (pointee (functionPtr c)))
                      (error d)) <= squaredNorm_ s')%Q.
Proof.
  unfold computeError. intros E.
  destruct (computeError_loop _ 0 (stacks_ s) (datas_ s) 0%Q) as [sq | i] eqn:El;
    inversion E; subst s'. simpl. split.
  - eapply computeError_loop_ge. exact El.
  - intros k cs d pre c post Hs Hd Hk Hcs.
    eapply computeError_loop_bound; eauto.
Qed.

(** ** What [computeDescentDirection] leaves alone *)

(** X20: a call of [computeDescentDirection] that completes writes
    [sigma_], [dq_], [dqSmall_] and, in the levels, the decomposition,
    [maxRank] and the projector [PK]; everything else in the solver
    (constraints, priorities, thresholds, flags, free variables, the error
    and the Jacobian of every level) is left as it was. *)
Theorem computeDescentDirection_frame (s s' : HierarchicalIterative) :
  computeDescentDirection s = Done s' ->
  set_datas_ (datas_ s)
    (set_dqSmall_ (dqSmall_ s)
       (set_dq_ (dq_ s) (set_sigma_ (sigma_ s) s')))
  = s /\
  Forall2 factorisation_only (datas_ s) (datas_ s').
Proof.
  intros HD. apply computeDescentDirection_Done in HD.
  destruct HD as (ds & dqSmall & sigma & dq & -> & HF & _).
  split.
  - destruct s. reflexivity.
  - simpl datas_. eapply Forall2_impl; [ | exact HF ].
    intros d d' [_ H]. exact H.
Qed.

(** X21: with two levels or more, when the first level has active rows,
    its decomposition has a trivial kernel (as many columns in [V] as the
    rank) and the singular value of index [maxRank - 1] exists, the call
    completes, the step is the solution of the first level alone and the
    other levels are neither factored nor changed. *)
Theorem computeDescentDirection_first_level_full_rank
        (s : HierarchicalIterative) c0 c1 cs d0 ds :
  stacks_ s = c0 :: c1 :: cs -> datas_ s = d0 :: ds ->
  Dense.rows (reducedJ d0) <> 0 ->
  let svd0 := svd_compute (svd_ThinV d0) (reducedJ d0) in
  let m := Z.max (maxRank d0) (svd_rank svd0) in
  Dense.cols (svd_matrixV svd0) = svd_rank svd0 ->
  m <= Z.of_nat (length (svd_singularValues svd0)) ->
  exists s',
    computeDescentDirection s = Done s' /\
    dqSmall_ s' = svd_solve svd0 (active_error d0) /\
    datas_ s' = set_maxRank m (set_svd (Some svd0) d0) :: ds /\
    update_sigma value_max m svd0 = Done (sigma_ s').
Proof.
  intros Es Ed Hrows svd0 m Hfull Hrange.
  assert (exists x, update_sigma value_max m svd0 = Done x) as [x Ex].
  { unfold update_sigma. destruct (Z.gtb_spec m 0); [ | eauto ].
    destruct (nth_error _ _) eqn:En; [ eauto | ].
    apply nth_error_None in En. lia. }
  unfold computeDescentDirection. simpl stacks_. rewrite Es.
  simpl datas_. rewrite Ed.
  cbn [length firstn levels_loop].
  destruct (Z.eqb_spec (Dense.rows (reducedJ d0)) 0) as [E | _];
    [ contradiction | ].
  unfold level_body, level_factor, level_next. cbn [Nat.eqb Nat.sub].
  fold svd0. fold m. simpl sigma_. cbn [l_sigma]. rewrite Ex.
  rewrite Hfull, Z.eqb_refl.
  simpl solveLevelByLevel_. simpl squaredErrorThreshold_.
  destruct (solveLevelByLevel_ s
            && Qltb (squaredErrorThreshold_ s)
                    (Dense.squaredNorm (active_error d0)));
    [ | destruct (Nat.eqb 0 (length (c1 :: cs))) ];
    (eexists; split; [ reflexivity | ]; simpl;
     split; [ reflexivity | split; [ | reflexivity ] ];
     f_equal; exact (firstn_skipn (S (length cs)) ds)).
Qed.

(** ** [definesSubmanifoldOf] *)

(** X22: when the equality of functions is reflexive and transitive,
    [definesSubmanifoldOf] is a preorder on solvers: every solver defines a
    submanifold of itself, and the relation composes. *)
Theorem definesSubmanifoldOf_preorder :
  (forall f, function_eq f f = true) ->
  (forall f g h, function_eq f g = true -> function_eq g h = true ->
                 function_eq f h = true) ->
  (forall s, definesSubmanifoldOf function_eq s s = true) /\
  (forall r s t,
     definesSubmanifoldOf function_eq t s = true ->
     definesSubmanifoldOf function_eq s r = true ->
     definesSubmanifoldOf function_eq t r = true).
Proof.
  intros Hrefl Htrans. unfold definesSubmanifoldOf. split.
  - intros s. apply forallb_forall. intros c Hc.
    apply existsb_exists. exists c. auto.
  - intros r s t Hts Hsr. rewrite forallb_forall in *. intros c Hc.
    specialize (Hsr c Hc). apply existsb_exists in Hsr.
    destruct Hsr as (a & Ha & Hac).
    specialize (Hts a Ha). apply existsb_exists in Hts.
    destruct Hts as (b & Hb & Hba).
    apply existsb_exists. exists b. eauto.
Qed.

(** X23: when the equality of functions is reflexive, the solver obtained
    by adding a constraint defines a submanifold of the solver it was
    added to. *)
Theorem definesSubmanifoldOf_add (constraint : Implicit) (priority : nat)
        (s : HierarchicalIterative) :
  (forall f, function_eq f f = true) ->
  existsb (fun arg => function_eq (pointee (fst arg))
                                  (pointee (functionPtr constraint)))
          (priority_ s) = false ->
  definesSubmanifoldOf function_eq
    (snd (add function_eq constraint priority s)) s = true.
Proof.
  intros Hrefl Hnew.
  destruct (add_success_state constraint priority s Hnew)
    as (grown & _ & _ & Hc & _).
  unfold definesSubmanifoldOf. rewrite Hc.
  apply forallb_forall. intros c Hin.
  apply existsb_exists. exists c. split; [ | apply Hrefl ].
  apply in_or_app. left. exact Hin.
Qed.

(** ** [update] twice *)

Lemma resize_idempotent (n : Z) (v : list Q) :
  resize n (resize n v) = resize n v.
Proof.
  unfold resize. destruct (Z.eqb_spec (Z.of_nat (length v)) n) as [E | Hne].
  - rewrite E, Z.eqb_refl. reflexivity.
  - rewrite repeat_length.
    destruct (Z.of_nat (Z.to_nat n) =? n); reflexivity.
Qed.

Lemma resize_matrix_idempotent (r c : Z) (m : list (list Q)) :
  resize_matrix r c (resize_matrix r c m) = resize_matrix r c m.
Proof.
  unfold resize_matrix.
  set (R := repeat (repeat uninitialized (Z.to_nat c)) (Z.to_nat r)).
  set (fits := fun m : list (list Q) =>
                 (Dense.rows m =? r)
                 && forallb (fun row => Z.of_nat (length row) =? c) m).
  change ((if fits (if fits m then m else R)
           then (if fits m then m else R) else R)
          = (if fits m then m else R)).
  destruct (fits m) eqn:E.
  - rewrite E. reflexivity.
  - destruct (fits R); reflexivity.
Qed.

Lemma update_levels_idempotent freeVariables n stacks :
  forall i datas,
  update_levels freeVariables n i stacks
                (update_levels freeVariables n i stacks datas)
  = update_levels freeVariables n i stacks datas.
Proof.
  induction stacks as [ | cs stacks IH ]; intros i [ | d datas ]; simpl; auto.
  rewrite IH. f_equal.
  unfold update_level. simpl.
  rewrite resize_idempotent, !resize_matrix_idempotent. reflexivity.
Qed.

(** X24: updating twice is updating once. *)
Theorem update_idempotent (s : HierarchicalIterative) :
  update (update s) = update s.
Proof.
  unfold update. simpl.
  rewrite update_levels_idempotent, resize_idempotent. reflexivity.
Qed.

(** ** [residualError] and [getReducedJacobian] *)

Lemma set_segment_at_end {A : Type} (pre v rest : list A) :
  (length v <= length rest)%nat ->
  Dense.set_segment (Z.of_nat (length pre)) v (pre ++ rest)
  = (pre ++ v) ++ skipn (length v) rest.
Proof.
  intros Hv. unfold Dense.set_segment. rewrite length_app.
  destruct (Z.leb_spec 0 (Z.of_nat (length pre))); [ | lia ].
  destruct (Z.leb_spec (Z.of_nat (length pre) + Z.of_nat (length v))
                       (Z.of_nat (length pre + length rest))); [ | lia ].
  simpl. rewrite Nat2Z.id.
  rewrite firstn_app, firstn_all, Nat.sub_diag. simpl. rewrite app_nil_r.
  rewrite skipn_app, skipn_all2 by lia.
  replace (length pre + length v - length pre)%nat with (length v) by lia.
  simpl. rewrite <- app_assoc. reflexivity.
Qed.

Lemma residualError_loop_spec (datas : list Data) :
  forall pre rest,
  (length (concat (map error datas)) <= length rest)%nat ->
  residualError_loop datas (Z.of_nat (length pre)) (pre ++ rest)
  = pre ++ concat (map error datas)
    ++ skipn (length (concat (map error datas))) rest.
Proof.
  induction datas as [ | d datas IH ]; intros pre rest Hlen; simpl.
  - reflexivity.
  - simpl in Hlen. rewrite length_app in Hlen.
    rewrite set_segment_at_end by lia.
    rewrite <- Nat2Z.inj_add, <- length_app.
    rewrite IH by (rewrite length_skipn; lia).
    rewrite skipn_skipn, length_app, <- !app_assoc.
    do 4 f_equal. lia.
Qed.

(** X25: when the vector passed is long enough, [residualError] writes the
    errors of the levels one after the other from its start, in the order
    of the priorities, and does not touch what lies beyond. *)
Theorem residualError_concat (s : HierarchicalIterative) (out : list Q) :
  (length (concat (map error (datas_ s))) <= length out)%nat ->
  residualError s out
  = concat (map error (datas_ s))
    ++ skipn (length (concat (map error (datas_ s)))) out.
Proof.
  intros Hlen. unfold residualError.
  exact (residualError_loop_spec (datas_ s) [] out Hlen).
Qed.

Lemma getReducedJacobian_loop_spec (datas : list Data) :
  forall pre rest,
  (length (concat (map reducedJ datas)) <= length rest)%nat ->
  getReducedJacobian_loop datas (Z.of_nat (length pre)) (pre ++ rest)
  = (pre ++ concat (map reducedJ datas)
     ++ skipn (length (concat (map reducedJ datas))) rest,
     Z.of_nat (length pre + length (concat (map reducedJ datas)))).
Proof.
  induction datas as [ | d datas IH ]; intros pre rest Hlen; simpl.
  - rewrite Nat.add_0_r. reflexivity.
  - simpl in Hlen. rewrite length_app in Hlen.
    rewrite set_segment_at_end by lia.
    unfold Dense.rows.
    rewrite <- Nat2Z.inj_add, <- length_app.
    rewrite IH by (rewrite length_skipn; lia).
    rewrite skipn_skipn, !length_app, <- !app_assoc.
    f_equal; [ do 4 f_equal | ]; lia.
Qed.

(** X26: when the matrix passed has as many rows as the reduced Jacobians
    of all levels together, [getReducedJacobian] returns these, stacked in
    the order of the priorities.  When it has more rows, the build with
    assertions aborts, and the build without them stacks the reduced
    Jacobians from the first row on and does not touch the rows beyond. *)
Theorem getReducedJacobian_stacked (NDEBUG : bool)
        (s : HierarchicalIterative) (J : list (list Q)) :
  let stacked := concat (map reducedJ (datas_ s)) in
  (length stacked <= length J)%nat ->
  getReducedJacobian NDEBUG s J
  = if NDEBUG || (length J =? length stacked)%nat
    then Returns (stacked ++ skipn (length stacked) J)
    else AssertionFailure.
Proof.
  intros stacked Hlen. unfold getReducedJacobian.
  pose proof (getReducedJacobian_loop_spec (datas_ s) [] J Hlen) as E.
  cbn [app length Nat.add Z.of_nat] in E. rewrite E. clear E.
  fold stacked. unfold Dense.rows.
  assert (length (stacked ++ skipn (length stacked) J) = length J) as ->
    by (rewrite length_app, length_skipn; lia).
  destruct NDEBUG; [ reflexivity | ]. cbn [negb andb orb].
  destruct (Nat.eqb_spec (length J) (length stacked)) as [E | E].
  - rewrite E, Z.eqb_refl. reflexivity.
  - destruct (Z.eqb_spec (Z.of_nat (length J)) (Z.of_nat (length stacked)));
      [ lia | reflexivity ].
Qed.

(** ** [computeSaturation] *)

Lemma nth_upd_zero (j k : nat) (row : list Q) :
  nth k (Dense.upd j 0%Q row) 0%Q
  = if Nat.eqb k j then 0%Q else nth k row 0%Q.
Proof.
  destruct (Nat.eqb_spec k j) as [-> | Hne].
  - destruct (Nat.lt_ge_cases j (length row)).
    + apply nth_upd_eq. assumption.
    + apply nth_overflow. rewrite upd_length. assumption.
  - apply nth_upd_neq. congruence.
Qed.

(** The loop over the columns, row by row. *)
Lemma zero_columns_rows (flags : list bool) (l : list nat) :
  forall m,
  fold_left (fun m j => if nth j flags false then Dense.setZero_col j m
                        else m) l m
  = map (fun row =>
           fold_left (fun r j => if nth j flags false then Dense.upd j 0%Q r
                                 else r) l row) m.
Proof.
  induction l as [ | j l IH ]; intros m; simpl.
  - rewrite map_id. reflexivity.
  - rewrite IH. unfold Dense.setZero_col.
    destruct (nth j flags false); [ rewrite map_map | ]; reflexivity.
Qed.

Lemma zero_row_nth (flags : list bool) (l : list nat) :
  forall row k,
  nth k (fold_left (fun r j => if nth j flags false then Dense.upd j 0%Q r
                               else r) l row) 0%Q
  = if existsb (Nat.eqb k) l && nth k flags false then 0%Q
    else nth k row 0%Q.
Proof.
  induction l as [ | j l IH ]; intros row k; simpl; [ reflexivity | ].
  rewrite IH. destruct (Nat.eqb_spec k j) as [-> | Hne]; simpl.
  - destruct (nth j flags false) eqn:Ej.
    + rewrite nth_upd_zero, Nat.eqb_refl. rewrite andb_true_r.
      destruct (existsb _ l); reflexivity.
    + rewrite !andb_false_r. reflexivity.
  - destruct (existsb (Nat.eqb k) l && nth k flags false); [ reflexivity | ].
    destruct (nth j flags false); [ | reflexivity ].
    rewrite nth_upd_zero. destruct (Nat.eqb_spec k j); congruence.
Qed.

Lemma zero_row_length (flags : list bool) (l : list nat) :
  forall row,
  length (fold_left (fun r j => if nth j flags false then Dense.upd j 0%Q r
                                else r) l row) = length row.
Proof.
  induction l as [ | j l IH ]; intros row; simpl; [ reflexivity | ].
  rewrite IH. destruct (nth j flags false); [ apply upd_length | reflexivity ].
Qed.

Lemma zero_row_nil (flags : list bool) (l : list nat) :
  fold_left (fun r j => if nth j flags false then Dense.upd j 0%Q r
                        else r) l [] = [].
Proof.
  apply length_zero_iff_nil. apply zero_row_length.
Qed.

Lemma nth_map_nil {A : Type} (g : list A -> list A) (m : list (list A))
      (i : nat) :
  g [] = [] -> nth i (map g m) [] = g (nth i m []).
Proof.
  intros Hg. rewrite <- (map_nth g m [] i). rewrite Hg. reflexivity.
Qed.

(** Coefficient [(i, k)] after the loop over the columns. *)
Lemma zero_columns_nth (flags : list bool) (m : list (list Q)) (i k : nat) :
  nth k (nth i (zero_columns flags m) []) 0%Q
  = if nth k flags false then 0%Q else nth k (nth i m []) 0%Q.
Proof.
  unfold zero_columns. rewrite zero_columns_rows.
  rewrite nth_map_nil by apply zero_row_nil.
  rewrite zero_row_nth.
  destruct (nth k flags false) eqn:Ek; [ | rewrite andb_false_r; reflexivity ].
  rewrite andb_true_r.
  assert (existsb (Nat.eqb k) (seq 0 (length flags)) = true) as ->;
    [ | reflexivity ].
  apply existsb_exists. exists k. split; [ | apply Nat.eqb_refl ].
  apply in_seq. split; [ lia | ]. simpl.
  destruct (Nat.lt_ge_cases k (length flags)); [ assumption | ].
  rewrite nth_overflow in Ek by assumption. discriminate.
Qed.

Lemma zero_columns_shape (flags : list bool) (m : list (list Q)) :
  length (zero_columns flags m) = length m /\
  forall i, length (nth i (zero_columns flags m) []) = length (nth i m []).
Proof.
  unfold zero_columns. rewrite zero_columns_rows. split.
  - apply length_map.
  - intros i. rewrite nth_map_nil by apply zero_row_nil.
    apply zero_row_length.
Qed.

Lemma nth_map_inject_Z (l : list Z) (k : nat) :
  nth k (map inject_Z l) 0%Q = inject_Z (nth k l 0%Z).
Proof. exact (map_nth inject_Z l 0%Z k). Qed.

(** A flag of [tmpSat_] is raised exactly for a negative product. *)
Lemma cwiseProduct_flag (u v : list Q) :
  forall k,
  nth k (map (fun x => Qltb x 0) (Dense.cwiseProduct u v)) false = true <->
  (k < length u)%nat /\ (k < length v)%nat /\ (nth k u 0 * nth k v 0 < 0)%Q.
Proof.
  revert v. induction u as [ | x u IH ]; intros [ | y v ] k; simpl.
  - destruct k; split; [ discriminate | lia | discriminate | lia ].
  - destruct k; split; [ discriminate | lia | discriminate | lia ].
  - destruct k; split; [ discriminate | lia | discriminate | lia ].
  - destruct k as [ | k ].
    + rewrite Qltb_lt. split; [ intros H; repeat split; auto; lia | tauto ].
    + rewrite IH. split; intros (H1 & H2 & H3); repeat split; auto; lia.
Qed.

(** X27: [computeSaturation] changes, in a level, the reduced Jacobian
    only, and keeps its shape; column [k] is set to zero when the sign of
    free variable [k] times coordinate [k] of [Jr^T * error] is negative,
    and is kept otherwise, in particular when the variable is not
    saturated (sign 0). *)
Theorem computeSaturation_level_spec (reducedSaturation : list Z) (d : Data) :
  let d' := computeSaturation_level reducedSaturation d in
  let e := MatrixBlocks.rview 0%Q (fst (activeRowsOfJ d)) (error d) in
  let t := Dense.tmat_vec (reducedJ d) e in
  set_reducedJ (reducedJ d) d' = d /\
  length (reducedJ d') = length (reducedJ d) /\
  (forall i, length (nth i (reducedJ d') []) = length (nth i (reducedJ d) [])) /\
  (forall i k,
     (k < length reducedSaturation)%nat -> (k < length t)%nat ->
     (inject_Z (nth k reducedSaturation 0%Z) * nth k t 0 < 0)%Q ->
     nth k (nth i (reducedJ d') []) 0%Q = 0%Q) /\
  (forall i k,
     ~ (inject_Z (nth k reducedSaturation 0%Z) * nth k t 0 < 0)%Q ->
     nth k (nth i (reducedJ d') []) 0%Q = nth k (nth i (reducedJ d) []) 0%Q) /\
  (forall i k,
     nth k reducedSaturation 0 = 0 ->
     nth k (nth i (reducedJ d') []) 0%Q = nth k (nth i (reducedJ d) []) 0%Q).
Proof.
  cbv zeta. unfold computeSaturation_level.
  set (flags := tmpSat reducedSaturation d).
  assert (forall k, nth k flags false = true <->
            (k < length reducedSaturation)%nat /\
            (k < length (Dense.tmat_vec (reducedJ d)
                           (MatrixBlocks.rview 0%Q (fst (activeRowsOfJ d))
                                               (error d))))%nat /\
            (inject_Z (nth k reducedSaturation 0%Z)
             * nth k (Dense.tmat_vec (reducedJ d)
                        (MatrixBlocks.rview 0%Q (fst (activeRowsOfJ d))
                                            (error d))) 0 < 0)%Q) as Hflag.
  { intros k. unfold flags, tmpSat. rewrite cwiseProduct_flag.
    rewrite length_map, nth_map_inject_Z. reflexivity. }
  assert (forall i k,
            ~ (inject_Z (nth k reducedSaturation 0%Z)
               * nth k (Dense.tmat_vec (reducedJ d)
                          (MatrixBlocks.rview 0%Q (fst (activeRowsOfJ d))
                                              (error d))) 0 < 0)%Q ->
            nth k (nth i (zero_columns flags (reducedJ d)) []) 0%Q
            = nth k (nth i (reducedJ d) []) 0%Q) as Hkeep.
  { intros i k Hn. rewrite zero_columns_nth.
    destruct (nth k flags false) eqn:Ek; [ | reflexivity ].
    apply Hflag in Ek. tauto. }
  simpl reducedJ.
  split; [ destruct d; reflexivity | ].
  split; [ apply zero_columns_shape | ].
  split; [ apply zero_columns_shape | ].
  split; [ | split; [ exact Hkeep | ] ].
  - intros i k H1 H2 H3. rewrite zero_columns_nth.
    rewrite (proj2 (Hflag k)) by auto. reflexivity.
  - intros i k Hz. apply Hkeep. rewrite Hz.
    intros H. rewrite Qmult_0_l in H. exact (Qlt_irrefl _ H).
Qed.

Lemma dot_zero_column (m : list (list Q)) :
  forall e, (Dense.dot (map (fun _ : list Q => 0%Q) m) e == 0)%Q.
Proof.
  induction m as [ | row m IH ]; intros [ | y e ]; simpl; try reflexivity.
  rewrite IH. ring.
Qed.

Lemma zero_columns_col (flags : list bool) (m : list (list Q)) (k : nat) :
  Dense.col k (zero_columns flags m)
  = if nth k flags false then map (fun _ => 0%Q) m else Dense.col k m.
Proof.
  unfold Dense.col, zero_columns. rewrite zero_columns_rows, map_map.
  assert (existsb (Nat.eqb k) (seq 0 (length flags)) && nth k flags false
          = nth k flags false) as E.
  { destruct (nth k flags false) eqn:Ek; [ | apply andb_false_r ].
    rewrite andb_true_r. apply existsb_exists. exists k.
    split; [ | apply Nat.eqb_refl ]. apply in_seq. split; [ lia | ]. simpl.
    destruct (Nat.lt_ge_cases k (length flags)); [ assumption | ].
    rewrite nth_overflow in Ek by assumption. discriminate. }
  rewrite (map_ext _ (fun row : list Q =>
                        if nth k flags false then 0%Q else nth k row 0%Q)).
  - destruct (nth k flags false); reflexivity.
  - intros row. rewrite zero_row_nth, E. reflexivity.
Qed.

Lemma zero_columns_cols (flags : list bool) (m : list (list Q)) :
  Dense.cols (zero_columns flags m) = Dense.cols m.
Proof.
  unfold Dense.cols. f_equal.
  destruct (zero_columns_shape flags m) as [_ Hr]. specialize (Hr 0%nat).
  assert (forall l : list (list Q), hd [] l = nth 0 l []) as Hhd
      by (intros [ | ? ? ]; reflexivity).
  rewrite !Hhd. exact Hr.
Qed.

Lemma tmat_vec_nth (m : list (list Q)) (e : list Q) (k : nat) :
  length (Dense.tmat_vec m e) = Z.to_nat (Dense.cols m) /\
  ((k < Z.to_nat (Dense.cols m))%nat ->
   nth k (Dense.tmat_vec m e) 0%Q = Dense.dot (Dense.col k m) e).
Proof.
  unfold Dense.tmat_vec. rewrite length_map, length_seq. split; [ reflexivity | ].
  intros Hk.
  rewrite (nth_indep _ 0%Q (Dense.dot (Dense.col 0 m) e))
    by (rewrite length_map, length_seq; exact Hk).
  rewrite (map_nth (fun j => Dense.dot (Dense.col j m) e)).
  rewrite seq_nth by exact Hk. reflexivity.
Qed.

Lemma zero_columns_none (flags : list bool) (m : list (list Q)) :
  (forall k, nth k flags false = false) -> zero_columns flags m = m.
Proof.
  intros Hnone. unfold zero_columns.
  induction (seq 0 (length flags)) as [ | j l IH ]; simpl; [ reflexivity | ].
  rewrite Hnone. exact IH.
Qed.

(** After the columns have been zeroed no flag is raised any more. *)
Lemma tmpSat_after (reducedSaturation : list Z) (d : Data) (k : nat) :
  nth k (tmpSat reducedSaturation
                (computeSaturation_level reducedSaturation d)) false = false.
Proof.
  destruct (nth k (tmpSat _ (computeSaturation_level _ d)) false) eqn:E;
    [ exfalso | reflexivity ].
  unfold tmpSat in E. apply cwiseProduct_flag in E.
  rewrite length_map, nth_map_inject_Z in E.
  unfold computeSaturation_level in E. simpl in E.
  set (flags := tmpSat reducedSaturation d) in *.
  set (e := MatrixBlocks.rview 0%Q (fst (activeRowsOfJ d)) (error d)) in *.
  destruct E as (H1 & H2 & H3).
  destruct (tmat_vec_nth (zero_columns flags (reducedJ d)) e k) as [L N].
  rewrite L in H2. rewrite N in H3 by exact H2.
  rewrite zero_columns_cols in H2. rewrite zero_columns_col in H3.
  destruct (nth k flags false) eqn:Ek.
  - rewrite dot_zero_column, Qmult_0_r in H3. exact (Qlt_irrefl _ H3).
  - assert (nth k flags false = true) as Ek'; [ | congruence ].
    unfold flags, tmpSat. apply cwiseProduct_flag.
    rewrite length_map, nth_map_inject_Z. fold e.
    destruct (tmat_vec_nth (reducedJ d) e k) as [L' N'].
    rewrite L', N' by exact H2. auto.
Qed.

Lemma computeSaturation_level_idempotent (reducedSaturation : list Z)
      (d : Data) :
  computeSaturation_level reducedSaturation
    (computeSaturation_level reducedSaturation d)
  = computeSaturation_level reducedSaturation d.
Proof.
  unfold computeSaturation_level at 1.
  rewrite zero_columns_none by apply tmpSat_after.
  destruct d; reflexivity.
Qed.

(** X28: running [computeSaturation] a second time with the same signs
    changes nothing: the columns it would zero are zero already. *)
Theorem computeSaturation_idempotent (applySaturate : bool)
        (saturation : list Z) (s : HierarchicalIterative) :
  computeSaturation applySaturate saturation
    (computeSaturation applySaturate saturation s)
  = computeSaturation applySaturate saturation s.
Proof.
  unfold computeSaturation. destruct applySaturate; simpl; [ | reflexivity ].
  set (rs := MatrixBlocks.rview 0 (freeVariables_ s) saturation).
  set (n := length (stacks_ s)).
  assert (firstn n (map (computeSaturation_level rs) (firstn n (datas_ s))
                    ++ skipn n (datas_ s))
          = map (computeSaturation_level rs) (firstn n (datas_ s))
          /\ skipn n (map (computeSaturation_level rs) (firstn n (datas_ s))
                      ++ skipn n (datas_ s))
             = skipn n (datas_ s)) as [E1 E2].
  { destruct (Nat.le_gt_cases n (length (datas_ s))) as [Hle | Hgt].
    - assert (length (map (computeSaturation_level rs) (firstn n (datas_ s)))
              = n) as L by (rewrite length_map, length_firstn; lia).
      split.
      + rewrite firstn_app, L, Nat.sub_diag. simpl. rewrite app_nil_r.
        apply firstn_all2. lia.
      + rewrite skipn_app, L, Nat.sub_diag. simpl.
        rewrite skipn_all2 by lia. reflexivity.
    - rewrite (skipn_all2 (datas_ s)) by lia. rewrite app_nil_r.
      split.
      + apply firstn_all2. rewrite length_map, length_firstn. lia.
      + apply skipn_all2. rewrite length_map, length_firstn. lia. }
  rewrite E1, E2, map_map.
  rewrite (map_ext _ _ (computeSaturation_level_idempotent rs)).
  destruct s; reflexivity.
Qed.

End SolverMore.

(* ================================================================== *)
(** * Runs of the other solver functions on scalar problems            *)
(* ================================================================== *)

Lemma add_success_witness :
  let s := Scalar.problem 0 in
  let c := Scalar.constraint 2 "g"%string 1 in
  let r := add Scalar.same_name c 1 s in
  fst r = inr true /\
  constraints_ (snd r) = constraints_ s ++ [ c ] /\
  length (stacks_ (snd r)) = Nat.max (length (stacks_ s)) (1 + 1) /\
  length (datas_ (snd r)) = length (stacks_ (snd r)) /\
  nth 1 (stacks_ (snd r)) [] = nth 1 (stacks_ s) [] ++ [ c ] /\
  (forall i, i <> 1%nat ->
             nth i (stacks_ (snd r)) [] = nth i (stacks_ s) []).
Proof.
  apply (add_success (Eigen := Scalar.svd 0) Scalar.same_name
           (Scalar.constraint 2 "g"%string 1) 1 (Scalar.problem 0)).
  - vm_compute. reflexivity.
  - vm_compute. reflexivity.
Defined.

Lemma add_keeps_inequalityIndices_witness :
  Forall inequalityIndices_exact
         (datas_ (snd (add Scalar.same_name (Scalar.inequality 2 "h"%string)
                           0 (Scalar.problem 0)))).
Proof.
  apply (add_keeps_inequalityIndices (Eigen := Scalar.svd 0) Scalar.same_name
           (Scalar.inequality 2 "h"%string) 0 (Scalar.problem 0)).
  assert (map (fun d => (inequalityIndices d, comparison d))
              (datas_ (Scalar.problem 0)) = [ ([], [ Equality ]) ]) as E
      by (vm_compute; reflexivity).
  destruct (datas_ (Scalar.problem 0)) as [ | d [ | d' ds ] ];
    try discriminate E.
  injection E as Ei Ec.
  constructor; [ | constructor ]. unfold inequalityIndices_exact.
  rewrite Ei, Ec. split.
  - constructor.
  - intros j. split.
    + intros [].
    + destruct j as [ | [ | j ] ]; simpl; intros [ H | H ]; discriminate.
Defined.

Lemma add_twice_throws_witness :
  let c := Scalar.constraint 2 "g"%string 1 in
  let s' := snd (add Scalar.same_name c 1 (Scalar.problem 0)) in
  add Scalar.same_name c 0 s'
  = (inl (logic_error (already_in_solver (functionPtr c))), s').
Proof.
  apply (add_twice_throws (Eigen := Scalar.svd 0) Scalar.same_name
           (Scalar.constraint 2 "g"%string 1) 1 0 (Scalar.problem 0)).
  - vm_compute. reflexivity.
  - vm_compute. reflexivity.
  - intros g q [ H | [] ] Ha. inversion H; subst. discriminate Ha.
Defined.

Lemma computeError_within_range_witness :
  let s := evaluate [ ([ - (3 # 4) ], [ [ 1 ] ]) ]%Q 0 (Scalar.problem 0) in
  exists sq, computeError s = Done (set_squaredNorm_ sq s).
Proof.
  apply (computeError_within_range (Eigen := Scalar.svd 0)
           (evaluate [ ([ - (3 # 4) ], [ [ 1 ] ]) ]%Q 0 (Scalar.problem 0))).
  - vm_compute. reflexivity.
  - vm_compute. reflexivity.
  - intros _. simpl. lia.
Defined.

Lemma computeError_optional_last_excluded_witness :
  let s := set_lastIsOptional_ true
             (evaluate [ ([ - (3 # 4) ], [ [ 1 ] ]) ; ([ 2 ], [ [ 1 ] ]) ]%Q 0
                       (Scalar.two_levels 0)) in
  let first_level :=
    set_lastIsOptional_ false
      (set_datas_ (firstn 1 (datas_ s)) (set_stacks_ (firstn 1 (stacks_ s)) s))
  in
  exists sq,
    computeError s = Done (set_squaredNorm_ sq s) /\
    computeError first_level = Done (set_squaredNorm_ sq first_level).
Proof.
  intros s.
  apply (computeError_optional_last_excluded (Eigen := Scalar.svd 0) s
           (firstn 1 (stacks_ s)) (nth 1 (stacks_ s) [])
           (firstn 1 (datas_ s)) (nth 1 (datas_ s) Data_default)).
  - vm_compute. reflexivity.
  - vm_compute. reflexivity.
  - vm_compute. reflexivity.
  - vm_compute. reflexivity.
  - vm_compute. reflexivity.
Defined.

Lemma computeError_bounds_witness :
  let s := evaluate [ ([ - (3 # 4) ], [ [ 1 ] ]) ; ([ 2 ], [ [ 1 ] ]) ]%Q 0
                    (Scalar.two_levels 0) in
  let s' := set_squaredNorm_ (Qmax (Qmax 0 ((- (3 # 4)) * (- (3 # 4)) + 0))
                                   (2 * 2 + 0)) s in
  (0 <= squaredNorm_ s')%Q /\
  forall k cs d pre c post,
    nth_error (stacks_ s) k = Some cs -> nth_error (datas_ s) k = Some d ->
    Z.of_nat k < (if lastIsOptional_ s
                  then size_t_sub (Z.of_nat (length (stacks_ s))) 1
                  else Z.of_nat (length (stacks_ s))) ->
    cs = pre ++ c :: post ->
    (Dense.squaredNorm
       (Dense.segment (stack_outputDerivativeSize pre)
                      (outputDerivativeSize (pointee (functionPtr c)))
                      (error d)) <= squaredNorm_ s')%Q.
Proof.
  apply (computeError_bounds (Eigen := Scalar.svd 0)
           (evaluate [ ([ - (3 # 4) ], [ [ 1 ] ]) ; ([ 2 ], [ [ 1 ] ]) ]%Q 0
                     (Scalar.two_levels 0))).
  vm_compute. reflexivity.
Defined.

Lemma computeDescentDirection_frame_witness :
  let s := evaluate [ ([ - (3 # 4) ], [ [ 2 ] ]) ; ([ 2 ], [ [ 1 ] ]) ]%Q 0
                    (Scalar.two_levels 0) in
  let s' := Scalar.step s in
  set_datas_ (datas_ s)
    (set_dqSmall_ (dqSmall_ s)
       (set_dq_ (dq_ s) (set_sigma_ (sigma_ s) s')))
  = s /\
  Forall2 factorisation_only (datas_ s) (datas_ s').
Proof.
  intros s s'.
  apply (computeDescentDirection_frame (Eigen := Scalar.svd 0) s s').
  vm_compute. reflexivity.
Defined.

Lemma computeDescentDirection_first_level_full_rank_witness :
  let s := evaluate [ ([ - (3 # 4) ], [ [ 2 ] ]) ; ([ 2 ], [ [ 1 ] ]) ]%Q 0
                    (Scalar.two_levels 0) in
  let d0 := nth 0 (datas_ s) Data_default in
  let svd0 := @svd_compute (Scalar.svd 0) (svd_ThinV d0) (reducedJ d0) in
  let m := Z.max (maxRank d0) (svd_rank svd0) in
  exists s',
    computeDescentDirection s = Done s' /\
    dqSmall_ s' = svd_solve svd0 (active_error d0) /\
    datas_ s' = set_maxRank m (set_svd (Some svd0) d0) :: skipn 1 (datas_ s) /\
    update_sigma value_max m svd0 = Done (sigma_ s').
Proof.
  intros s d0 svd0 m.
  apply (computeDescentDirection_first_level_full_rank (Eigen := Scalar.svd 0)
           s (nth 0 (stacks_ s) []) (nth 1 (stacks_ s) []) [] d0
           (skipn 1 (datas_ s))).
  - vm_compute. reflexivity.
  - vm_compute. reflexivity.
  - vm_compute. discriminate.
  - vm_compute. reflexivity.
  - vm_compute. discriminate.
Defined.

Lemma definesSubmanifoldOf_preorder_witness :
  (forall s : HierarchicalIterative (Eigen := Scalar.svd 0),
     definesSubmanifoldOf Scalar.same_name s s = true) /\
  (forall r s t : HierarchicalIterative (Eigen := Scalar.svd 0),
     definesSubmanifoldOf Scalar.same_name t s = true ->
     definesSubmanifoldOf Scalar.same_name s r = true ->
     definesSubmanifoldOf Scalar.same_name t r = true).
Proof.
  apply (definesSubmanifoldOf_preorder (Eigen := Scalar.svd 0)
           Scalar.same_name).
  - intros f. apply String.eqb_refl.
  - intros f g h Hfg Hgh. unfold Scalar.same_name in *.
    apply String.eqb_eq in Hfg. apply String.eqb_eq in Hgh.
    apply String.eqb_eq. congruence.
Defined.

Lemma definesSubmanifoldOf_add_witness :
  definesSubmanifoldOf Scalar.same_name
    (snd (add Scalar.same_name (Scalar.constraint 2 "g"%string 1) 1
              (Scalar.problem 0)))
    (Scalar.problem 0) = true.
Proof.
  apply (definesSubmanifoldOf_add (Eigen := Scalar.svd 0) Scalar.same_name
           (Scalar.constraint 2 "g"%string 1) 1 (Scalar.problem 0)).
  - intros f. apply String.eqb_refl.
  - vm_compute. reflexivity.
Defined.

Lemma residualError_concat_witness :
  let s := evaluate [ ([ - (3 # 4) ], [ [ 2 ] ]) ; ([ 2 ], [ [ 1 ] ]) ]%Q 0
                    (Scalar.two_levels 0) in
  residualError s [ 7 ; 8 ; 9 ]%Q = [ - (3 # 4) ; 2 ; 9 ]%Q.
Proof.
  apply (residualError_concat (Eigen := Scalar.svd 0)
           (evaluate [ ([ - (3 # 4) ], [ [ 2 ] ]) ; ([ 2 ], [ [ 1 ] ]) ]%Q 0
                     (Scalar.two_levels 0))
           [ 7 ; 8 ; 9 ]%Q).
  simpl. lia.
Defined.

Lemma getReducedJacobian_stacked_witness :
  let s := evaluate [ ([ - (3 # 4) ], [ [ 2 ] ]) ; ([ 2 ], [ [ 1 ] ]) ]%Q 0
                    (Scalar.two_levels 0) in
  getReducedJacobian false s [ [ 7 ] ; [ 8 ] ]%Q
  = Returns [ [ 2 ] ; [ 1 ] ]%Q.
Proof.
  intros s.
  apply (getReducedJacobian_stacked (Eigen := Scalar.svd 0) false s
           [ [ 7 ] ; [ 8 ] ]%Q).
  vm_compute. apply le_n.
Defined.

(** With a third row, the build with assertions aborts; the build without
    them leaves that row as it is. *)
Example getReducedJacobian_more_rows :
  let s := evaluate [ ([ - (3 # 4) ], [ [ 2 ] ]) ; ([ 2 ], [ [ 1 ] ]) ]%Q 0
                    (Scalar.two_levels 0) in
  getReducedJacobian false s [ [ 7 ] ; [ 8 ] ; [ 9 ] ]%Q = AssertionFailure /\
  getReducedJacobian true s [ [ 7 ] ; [ 8 ] ; [ 9 ] ]%Q
  = Returns [ [ 2 ] ; [ 1 ] ; [ 9 ] ]%Q.
Proof. split; vm_compute; reflexivity. Qed.
